(** * tangerine-consensus: configuration encoding, syncer decisions and
    the simulation's total-order check.

  A shallow embedding of
  - [core/types/config.go]      ([Config.Bytes]),
  - [core/syncer/consensus.go]  ([SyncBlocks], [findLatticeSyncBlock],
                                 [checkIfSynced], [isConfigChanged],
                                 [setupConfigs], [resizeByNumChains],
                                 [ensureAgreementOverlapRound]),
  - [simulation/total-order-result.go] ([VerifyTotalOrder], [PushBlocks]).

  Go integers are [Z] with the conversions written out, byte slices
  are lists of [Z] in [0, 256), Go maps are [gmap]s, Go pointers are
  locations into an explicit store.  Part I holds the definitions,
  Part II the properties. *)

From Stdlib Require Import ZArith Lia List Bool.
From stdpp Require Import base option list gmap fin_maps.

Local Open Scope Z_scope.

(** * Part I: definitions *)

(** ** Machine integers *)

Module MachineInt.

Definition byte (v : Z) : Z := Z.land v 255.
Definition uint32 (v : Z) : Z := v mod 2 ^ 32.
Definition uint64 (v : Z) : Z := v mod 2 ^ 64.
(** Reinterpretation of a 64-bit pattern as a signed integer. *)
Definition int64 (v : Z) : Z := (v + 2 ^ 63) mod 2 ^ 64 - 2 ^ 63.

Definition MaxInt32 : Z := 2147483647.

End MachineInt.

(** ** [encoding/binary]: the little-endian byte order *)

Module LittleEndian.
Import MachineInt.

(** [make([]byte, n)]. *)
Definition make (n : nat) : list Z := replicate n 0.

(** [binary.LittleEndian.PutUint32(b, v)]: stores the four bytes of [v]
    at [b[0..3]]. *)
Definition PutUint32 (b : list Z) (v : Z) : list Z :=
  <[3%nat := byte (Z.shiftr v 24)]>
    (<[2%nat := byte (Z.shiftr v 16)]>
       (<[1%nat := byte (Z.shiftr v 8)]>
          (<[0%nat := byte v]> b))).

(** [binary.LittleEndian.PutUint64(b, v)]. *)
Definition PutUint64 (b : list Z) (v : Z) : list Z :=
  <[7%nat := byte (Z.shiftr v 56)]>
    (<[6%nat := byte (Z.shiftr v 48)]>
       (<[5%nat := byte (Z.shiftr v 40)]>
          (<[4%nat := byte (Z.shiftr v 32)]>
             (<[3%nat := byte (Z.shiftr v 24)]>
                (<[2%nat := byte (Z.shiftr v 16)]>
                   (<[1%nat := byte (Z.shiftr v 8)]>
                      (<[0%nat := byte v]> b))))))).

(** Reading a little-endian unsigned integer back
    ([binary.LittleEndian.Uint32] / [Uint64] on a slice of that size). *)
Fixpoint Uint (b : list Z) : Z :=
  match b with
  | [] => 0
  | x :: r => x + 256 * Uint r
  end.

(** [b[off : off+n]]. *)
Definition slice (off n : nat) (b : list Z) : list Z := take n (drop off b).

End LittleEndian.

(** ** [common.Hash] *)

Module Common.

(** A 32-byte hash, kept as the big-endian number of its bytes: the zero
    value [Hash{}] is [0] and the byte-wise order [Less] is [<]. *)
Abbreviation Hash := Z (only parsing).
Definition zeroHash : Hash := 0.
Definition Less (h h2 : Hash) : bool := h <? h2.

End Common.

(** ** [core/types/config.go] *)

Module Types.
Import MachineInt LittleEndian.

(** A Go [float32]: an IEEE-754 binary32 value, kept as its three
    fields.  [math.Float32bits] is the bit pattern. *)
Record float32 := mkFloat32 {
  f32_sign : bool;
  f32_exp : Z;    (* biased exponent, 8 bits *)
  f32_frac : Z    (* fraction, 23 bits *)
}.

Definition Float32bits (f : float32) : Z :=
  (if f32_sign f then 2 ^ 31 else 0) +
  (f32_exp f mod 2 ^ 8) * 2 ^ 23 + f32_frac f mod 2 ^ 23.

Definition f32_isNaN (f : float32) : bool :=
  (f32_exp f mod 2 ^ 8 =? 255) && negb (f32_frac f mod 2 ^ 23 =? 0).

Definition f32_isZero (f : float32) : bool :=
  (f32_exp f mod 2 ^ 8 =? 0) && (f32_frac f mod 2 ^ 23 =? 0).

(** Go's [==] on [float32]: a NaN equals nothing, the two zeros are
    equal, any other two values are equal when their bits are. *)
Definition f32_eq (a b : float32) : bool :=
  negb (f32_isNaN a) && negb (f32_isNaN b) &&
  ((f32_isZero a && f32_isZero b) || (Float32bits a =? Float32bits b)).

(** [time.Duration] is an [int64] count of nanoseconds. *)
Abbreviation Duration := Z (only parsing).
Definition Nanoseconds (d : Duration) : Z := int64 d.

(** [type Config struct]. *)
Record Config := mkConfig {
  NumChains : Z;            (* uint32 *)
  LambdaBA : Duration;
  LambdaDKG : Duration;
  K : Z;                    (* int *)
  PhiRatio : float32;
  NumNotarySet : Z;         (* int *)
  NumWitnessSet : Z;        (* int *)
  NumDKGSet : Z;            (* int *)
  RoundInterval : Duration;
  MinBlockInterval : Duration;
  MaxBlockInterval : Duration
}.

(** [Config.Bytes]. *)
Definition Bytes (c : Config) : list Z :=
  let binaryNumChains := PutUint32 (make 4) (NumChains c) in
  let binaryLambdaBA := PutUint64 (make 8) (uint64 (Nanoseconds (LambdaBA c))) in
  let binaryLambdaDKG := PutUint64 (make 8) (uint64 (Nanoseconds (LambdaDKG c))) in
  let binaryK := PutUint32 (make 4) (uint32 (K c)) in
  let binaryPhiRatio := PutUint32 (make 4) (Float32bits (PhiRatio c)) in
  let binaryNumNotarySet := PutUint32 (make 4) (uint32 (NumNotarySet c)) in
  let binaryNumWitnessSet := PutUint32 (make 4) (uint32 (NumWitnessSet c)) in
  let binaryNumDKGSet := PutUint32 (make 4) (uint32 (NumDKGSet c)) in
  let binaryRoundInterval :=
    PutUint64 (make 8) (uint64 (Nanoseconds (RoundInterval c))) in
  let binaryMinBlockInterval :=
    PutUint64 (make 8) (uint64 (Nanoseconds (MinBlockInterval c))) in
  let binaryMaxBlockInterval :=
    PutUint64 (make 8) (uint64 (Nanoseconds (MaxBlockInterval c))) in
  let enc := [] in
  let enc := enc ++ binaryNumChains in
  let enc := enc ++ binaryLambdaBA in
  let enc := enc ++ binaryLambdaDKG in
  let enc := enc ++ binaryK in
  let enc := enc ++ binaryPhiRatio in
  let enc := enc ++ binaryNumNotarySet in
  let enc := enc ++ binaryNumWitnessSet in
  let enc := enc ++ binaryNumDKGSet in
  let enc := enc ++ binaryRoundInterval in
  let enc := enc ++ binaryMinBlockInterval in
  let enc := enc ++ binaryMaxBlockInterval in
  enc.

(** The signed reading of eight little-endian bytes. *)
Definition Int64At (off : nat) (b : list Z) : Z := int64 (Uint (slice off 8 b)).
Definition Uint32At (off : nat) (b : list Z) : Z := Uint (slice off 4 b).

Definition sample : Config :=
  {| NumChains := 19; LambdaBA := 250000000; LambdaDKG := 1000000000;
     K := 2; PhiRatio := mkFloat32 false 126 2796203;
     NumNotarySet := 7; NumWitnessSet := 5; NumDKGSet := 4;
     RoundInterval := 3600000000000; MinBlockInterval := 1000000;
     MaxBlockInterval := -1 |}.

(** [types.Position].  Rounds and chain ids index slices, they are kept
    as [nat]. *)
Record Position := mkPosition {
  Round : nat;      (* uint64 *)
  ChainID : nat;    (* uint32 *)
  Height : Z        (* uint64 *)
}.

(** Modelled from the spec: [Position.Older] ([core/types/position.go] is
    not among the sources).  The spec speaks of a block of a chain being
    older than another; [pos] is older than [other] when it comes
    strictly before it in the order by round, then height. *)
Definition Older (pos other : Position) : bool :=
  (Round pos <? Round other)%nat ||
  ((Round pos =? Round other)%nat && (Height pos <? Height other)).

(** The part of [types.Block] the syncer reads: the block's hash, its
    position on the lattice and its place in the compaction chain
    ([Finalization.ParentHash], [Finalization.Height]). *)
Record Block := mkBlock {
  Hash : Common.Hash;
  ParentHash : Common.Hash;
  BlockPosition : Position;
  FinalizationParentHash : Common.Hash;
  FinalizationHeight : Z    (* uint64 *)
}.

End Types.


(** ** [core/syncer/consensus.go] *)

Module Syncer.
Import MachineInt Types.

Inductive error :=
| ErrAlreadySynced
| ErrGenesisBlockReached
| ErrInvalidBlockOrder
| ErrBlockDoesNotExist.   (* the error of [blockdb.Get] on a missing hash *)

(** What a call does: it returns, it panics (index out of range, nil
    dereference, explicit [panic]) or its loop is still running when the
    fuel of the model is used up. *)
Inductive outcome (A : Type) :=
| Return (a : A)
| Panic
| OutOfFuel.
Arguments Return {A} a.
Arguments Panic {A}.
Arguments OutOfFuel {A}.

Section Consensus.

(** [core.Lattice] and [core.Consensus] are outside these sources; the
    syncer only stores and passes them on. *)
Context {Lattice CoreConsensus : Type}.

(** [type Consensus struct]: the fields that hold data (collaborators,
    channels and the lock are left out). *)
Record Consensus := mkConsensus {
  db : gmap Z Block;               (* blockdb.BlockDatabase, by hash *)
  lattice : option Lattice;
  latticeLastRound : nat;
  blocks : list (list Block);      (* []types.ByPosition *)
  configs : list Config;
  agreementRoundCut : nat;
  isSynced : bool
}.

Definition set_isSynced (v : bool) (con : Consensus) : Consensus :=
  {| db := db con; lattice := lattice con;
     latticeLastRound := latticeLastRound con; blocks := blocks con;
     configs := configs con; agreementRoundCut := agreementRoundCut con;
     isSynced := v |}.

(** [isConfigChanged]. *)
Definition isConfigChanged (prev cur : Config) : bool :=
  negb (K prev =? K cur) ||
  negb (NumChains prev =? NumChains cur) ||
  negb (f32_eq (PhiRatio prev) (PhiRatio cur)).

(** *** [findLatticeSyncBlock] *)

(** [round == 0 || !con.isConfigChanged(con.configs[round-1], con.configs[round])];
    [None] is the index-out-of-range panic. *)
Definition sameAsPrevRound (cfgs : list Config) (round : nat) : option bool :=
  match round with
  | O => Some true
  | S p =>
      match cfgs !! p, cfgs !! round with
      | Some c1, Some c2 => Some (negb (isConfigChanged c1 c2))
      | _, _ => None
      end
  end.

(** [!con.isConfigChanged(con.configs[round], con.configs[round+1])]. *)
Definition sameAsNextRound (cfgs : list Config) (round : nat) : option bool :=
  match cfgs !! round, cfgs !! S round with
  | Some c1, Some c2 => Some (negb (isConfigChanged c1 c2))
  | _, _ => None
  end.

(** The first inner loop: "Find round r which r-1, r, r+1 are all in same
    total ordering config".  [Return None] is the [return nil, nil] taken
    at round 0. *)
Fixpoint findSafeRound (cfgs : list Config) (round : nat) {struct round}
  : outcome (option nat) :=
  match sameAsPrevRound cfgs round, sameAsNextRound cfgs round with
  | Some p, Some n =>
      if p && n then Return (Some round)
      else match round with
           | O => Return None
           | S r => findSafeRound cfgs r
           end
  | _, _ => Panic
  end.

(** The configurations of rounds [r-1], [r] and [r+1] agree on [K],
    [NumChains] and [PhiRatio]; round 0 has no predecessor to agree with. *)
Definition stableAt (cfgs : list Config) (r : nat) : Prop :=
  exists c n, cfgs !! r = Some c /\ cfgs !! S r = Some n /\
    isConfigChanged c n = false /\
    (r = 0%nat \/
     exists p, cfgs !! pred r = Some p /\ isConfigChanged p c = false).

(** "Find the oldest block which round is [round]": the second inner loop. *)
Fixpoint oldestInRound (fuel : nat) (d : gmap Z Block) (lastBlock : Block)
    (round : nat) : outcome (Block + error) :=
  if (Round (BlockPosition lastBlock) =? round)%nat then Return (inl lastBlock)
  else
    match fuel with
    | O => OutOfFuel
    | S f =>
        if FinalizationParentHash lastBlock =? Common.zeroHash
        then Return (inr ErrGenesisBlockReached)
        else match d !! FinalizationParentHash lastBlock with
             | None => Return (inr ErrBlockDoesNotExist)
             | Some b => oldestInRound f d b round
             end
    end.

(** The first deliver-set loop: walks the compaction chain backward until
    a parent whose hash is not below its child's; returns that parent
    ([prevBlock]). *)
Fixpoint deliverSetLast (fuel : nat) (d : gmap Z Block) (curBlock : Block)
  : outcome (Block + error) :=
  match fuel with
  | O => OutOfFuel
  | S f =>
      if FinalizationParentHash curBlock =? Common.zeroHash
      then Return (inr ErrGenesisBlockReached)
      else match d !! FinalizationParentHash curBlock with
           | None => Return (inr ErrBlockDoesNotExist)
           | Some prevBlock =>
               if negb (Common.Less (Hash prevBlock) (Hash curBlock))
               then Return (inl prevBlock)
               else deliverSetLast f d prevBlock
           end
  end.

(** The second deliver-set loop: from [deliverSetLastBlock] backward to the
    first block of its deliver set ([curBlock] at the [break]). *)
Fixpoint deliverSetFirst (fuel : nat) (d : gmap Z Block) (curBlock : Block)
  : outcome (Block + error) :=
  match fuel with
  | O => OutOfFuel
  | S f =>
      if FinalizationParentHash curBlock =? Common.zeroHash
      then Return (inl curBlock)
      else match d !! FinalizationParentHash curBlock with
           | None => Return (inr ErrBlockDoesNotExist)
           | Some prevBlock =>
               if negb (Common.Less (Hash prevBlock) (Hash curBlock))
               then Return (inl curBlock)
               else deliverSetFirst f d prevBlock
           end
  end.

(** "Check if all blocks from deliverSetFirstBlock to deliverSetLastBlock
    are in the same round": the value of [ok]. *)
Fixpoint sameRoundCheck (fuel : nat) (d : gmap Z Block) (round : nat)
    (firstHash : Common.Hash) (curBlock : Block) : outcome (bool + error) :=
  match fuel with
  | O => OutOfFuel
  | S f =>
      if negb (Round (BlockPosition curBlock) =? round)%nat
      then Return (inl false)
      else match d !! FinalizationParentHash curBlock with
           | None => Return (inr ErrBlockDoesNotExist)
           | Some b =>
               if Hash b =? firstHash then Return (inl true)
               else sameRoundCheck f d round firstHash b
           end
  end.

(** The outer [for] of [findLatticeSyncBlock].  [round] is declared anew
    from [lastBlock] at the top of every iteration, so the [round--] that
    ends the body has no effect on the next one. *)
Fixpoint findLatticeSyncBlock_loop (n fuel : nat) (con : Consensus)
    (lastBlock : Block) : outcome (option Block * option error) :=
  match n with
  | O => OutOfFuel
  | S n' =>
      match findSafeRound (configs con) (Round (BlockPosition lastBlock)) with
      | Panic => Panic
      | OutOfFuel => OutOfFuel
      | Return None => Return (None, None)
      | Return (Some round) =>
          match oldestInRound fuel (db con) lastBlock round with
          | Panic => Panic
          | OutOfFuel => OutOfFuel
          | Return (inr e) => Return (None, Some e)
          | Return (inl lastBlock) =>
              match deliverSetLast fuel (db con) lastBlock with
              | Panic => Panic
              | OutOfFuel => OutOfFuel
              | Return (inr e) => Return (None, Some e)
              | Return (inl deliverSetLastBlock) =>
                  match deliverSetFirst fuel (db con) deliverSetLastBlock with
                  | Panic => Panic
                  | OutOfFuel => OutOfFuel
                  | Return (inr e) => Return (None, Some e)
                  | Return (inl deliverSetFirstBlock) =>
                      match sameRoundCheck fuel (db con) round
                              (Hash deliverSetFirstBlock) deliverSetLastBlock with
                      | Panic => Panic
                      | OutOfFuel => OutOfFuel
                      | Return (inr e) => Return (None, Some e)
                      | Return (inl ok) =>
                          if ok then Return (Some deliverSetFirstBlock, None)
                          else if (round =? 0)%nat then Return (None, None)
                          else findLatticeSyncBlock_loop n' fuel con lastBlock
                      end
                  end
              end
          end
      end
  end.

(** [findLatticeSyncBlock]: the block to restart the lattice from, or an
    error; neither when no safe round or deliver set is found yet. *)
Definition findLatticeSyncBlock (fuel : nat) (con : Consensus)
    (bs : list Block) : outcome (option Block * option error) :=
  match last bs with
  | None => Panic                      (* blocks[len(blocks)-1] on an empty slice *)
  | Some lastBlock => findLatticeSyncBlock_loop fuel fuel con lastBlock
  end.

(** *** [checkIfSynced] *)

(** [con.configs[con.blocks[0][0].Position.Round].NumChains]. *)
Definition numChainsOfFirstBlock (con : Consensus) : option nat :=
  match blocks con !! 0%nat with
  | Some (b :: _) =>
      match configs con !! Round (BlockPosition b) with
      | Some cfg => Some (Z.to_nat (NumChains cfg))
      | None => None
      end
  | _ => None
  end.

(** "Find tips (newset blocks) of each chain in compaction chain".
    [Return None] is the plain [return] at the genesis block,
    [Return (Some tips)] the normal end of the loop. *)
Fixpoint findTips (fuel : nat) (d : gmap Z Block) (numChains : nat)
    (compactionTips : list (option Block)) (tipCount : nat) (b : Block)
  : outcome (option (list (option Block))) :=
  if (numChains <=? tipCount)%nat then Return (Some compactionTips)
  else
    match fuel with
    | O => OutOfFuel
    | S f =>
        match compactionTips !! ChainID (BlockPosition b) with
        | None => Panic
        | Some tip =>
            let '(tips', count') :=
              match tip with
              | None =>
                  if (ChainID (BlockPosition b) <? numChains)%nat
                  then (<[ChainID (BlockPosition b) := Some b]> compactionTips,
                        S tipCount)
                  else (compactionTips, tipCount)
              | Some _ => (compactionTips, tipCount)
              end in
            if FinalizationParentHash b =? Common.zeroHash then Return None
            else match d !! FinalizationParentHash b with
                 | None => Panic
                 | Some b1 => findTips f d numChains tips' count' b1
                 end
        end
    end.

(** The compaction chain read backward from [b] through
    [Finalization.ParentHash], as far as the database and the fuel go. *)
Fixpoint chainBack (fuel : nat) (d : gmap Z Block) (b : Block) : list Block :=
  match fuel with
  | O => []
  | S f =>
      b :: (if FinalizationParentHash b =? Common.zeroHash then []
            else match d !! FinalizationParentHash b with
                 | None => []
                 | Some b1 => chainBack f d b1
                 end)
  end.

(** The most recent block of chain [c] on a compaction chain read
    backward. *)
Definition tipOf (c : nat) (chain : list Block) : option Block :=
  List.find (fun x => (ChainID (BlockPosition x) =? c)%nat) chain.

(** What a chain's entry holds once the search is over: the tip it had,
    or else the first block of the chain met on the way back. *)
Definition tipAfter (tips : list (option Block)) (rest : list Block)
    (c : nat) : option Block :=
  match tips !! c with
  | Some (Some t) => Some t
  | _ => tipOf c rest
  end.

(** The number of chains that have their tip. *)
Fixpoint countTips (tips : list (option Block)) : nat :=
  match tips with
  | [] => 0
  | Some _ :: r => S (countTips r)
  | None :: r => countTips r
  end.

(** The body of [for chainID, b := range compactionTips]: whether the
    chain counts as overlapped. *)
Definition overlapped (queues : list (list Block)) (chainID : nat)
    (tip : option Block) : outcome bool :=
  match queues !! chainID with
  | None => Panic
  | Some [] => Return false
  | Some (oldest :: _) =>
      match tip with
      | None => Panic
      | Some b => Return (negb (Older (BlockPosition b) (BlockPosition oldest)))
      end
  end.


Fixpoint overlapCountFrom (queues : list (list Block)) (chainID : nat)
    (tips : list (option Block)) (overlapCount : nat) : outcome nat :=
  match tips with
  | [] => Return overlapCount
  | tip :: rest =>
      match overlapped queues chainID tip with
      | Return true => overlapCountFrom queues (S chainID) rest (S overlapCount)
      | Return false => overlapCountFrom queues (S chainID) rest overlapCount
      | Panic => Panic
      | OutOfFuel => OutOfFuel
      end
  end.

(** [checkIfSynced]. *)
Definition checkIfSynced (fuel : nat) (con : Consensus) (bs : list Block)
  : outcome Consensus :=
  match numChainsOfFirstBlock con, last bs with
  | Some numChains, Some b =>
      match findTips fuel (db con) numChains (replicate numChains None) 0 b with
      | Panic => Panic
      | OutOfFuel => OutOfFuel
      | Return None => Return con
      | Return (Some compactionTips) =>
          match overlapCountFrom (blocks con) 0 compactionTips 0 with
          | Panic => Panic
          | OutOfFuel => OutOfFuel
          | Return overlapCount =>
              if (overlapCount =? numChains)%nat
              then Return (set_isSynced true con)
              else Return con
          end
      end
  | _, _ => Panic
  end.

(** *** [SyncBlocks] *)

(** "Check if blocks are consecutive": [true] when no pair of neighbours
    breaks [blocks[i].Finalization.Height == blocks[i-1].Finalization.Height+1]. *)
Fixpoint consecutive (bs : list Block) : bool :=
  match bs with
  | prev :: ((cur :: _) as rest) =>
      (FinalizationHeight cur =? uint64 (FinalizationHeight prev + 1)) &&
      consecutive rest
  | _ => true
  end.

(** The rest of [SyncBlocks], from [con.setupConfigs(blocks)] on, drives
    the governance, the block database, the lattice and the agreement
    routines; it is a parameter here. *)
Variable syncFrom : Consensus -> list Block -> bool ->
                    Consensus * (option CoreConsensus * option error).

(** [SyncBlocks]: the syncer after the call and the pair returned, a
    [core.Consensus] or nil and an error or nil. *)
Definition SyncBlocks (con : Consensus) (bs : list Block) (latest : bool)
  : Consensus * (option CoreConsensus * option error) :=
  if isSynced con then (con, (None, Some ErrAlreadySynced))
  else if (length bs =? 0)%nat then (con, (None, None))
  else if negb (consecutive bs) then (con, (None, Some ErrInvalidBlockOrder))
  else syncFrom con bs latest.

End Consensus.

Arguments Consensus : clear implicits.

End Syncer.


(** ** Concrete syncer states *)

Module SyncerData.
Import Types Syncer.

Definition withK (k : Z) : Config :=
  {| NumChains := NumChains sample; LambdaBA := LambdaBA sample;
     LambdaDKG := LambdaDKG sample; K := k; PhiRatio := PhiRatio sample;
     NumNotarySet := NumNotarySet sample; NumWitnessSet := NumWitnessSet sample;
     NumDKGSet := NumDKGSet sample; RoundInterval := RoundInterval sample;
     MinBlockInterval := MinBlockInterval sample;
     MaxBlockInterval := MaxBlockInterval sample |}.

Definition withNumChains (n : Z) : Config :=
  {| NumChains := n; LambdaBA := LambdaBA sample;
     LambdaDKG := LambdaDKG sample; K := K sample; PhiRatio := PhiRatio sample;
     NumNotarySet := NumNotarySet sample; NumWitnessSet := NumWitnessSet sample;
     NumDKGSet := NumDKGSet sample; RoundInterval := RoundInterval sample;
     MinBlockInterval := MinBlockInterval sample;
     MaxBlockInterval := MaxBlockInterval sample |}.

Definition emptyConsensus : Consensus unit :=
  {| db := ∅; lattice := None; latticeLastRound := 0; blocks := [];
     configs := []; agreementRoundCut := 0; isSynced := false |}.

(** A syncer whose rounds 0, 1, 2 have [K] = 1, 2, 2: round 1 differs from
    round 0, and round 0 differs from round 1, so no round at or below 1
    is safe. *)
Definition unstableConsensus : Consensus unit :=
  {| db := ∅; lattice := None; latticeLastRound := 0; blocks := [];
     configs := [withK 1; withK 2; withK 2];
     agreementRoundCut := 0; isSynced := false |}.


(** One chain.  The compaction chain ends with [tipBlock] (height 3 of
    chain 0) on top of [belowTip] (height 2). *)
Definition belowTip : Block :=
  {| Hash := 100; ParentHash := 99;
     BlockPosition := {| Round := 0; ChainID := 0; Height := 2 |};
     FinalizationParentHash := 99; FinalizationHeight := 2 |}.

Definition tipBlock : Block :=
  {| Hash := 101; ParentHash := 100;
     BlockPosition := {| Round := 0; ChainID := 0; Height := 3 |};
     FinalizationParentHash := 100; FinalizationHeight := 3 |}.

Definition queued (h : Z) : Block :=
  {| Hash := 200 + h; ParentHash := 199 + h;
     BlockPosition := {| Round := 0; ChainID := 0; Height := h |};
     FinalizationParentHash := 0; FinalizationHeight := 0 |}.

(** The syncer holds the confirmed block of height [h] as the oldest of
    chain 0. *)
Definition oneChain (h : Z) : Consensus unit :=
  {| db := {[ 100 := belowTip ]}; lattice := None; latticeLastRound := 0;
     blocks := [[queued h; queued (h + 1)]];
     configs := [withNumChains 1; withNumChains 1];
     agreementRoundCut := 0; isSynced := false |}.

End SyncerData.


(** ** [simulation/total-order-result.go] *)

Module Simulation.
Import MachineInt Syncer.

(** [types.ValidatorID] wraps a hash. *)
Abbreviation ValidatorID := Z (only parsing).

(** [type TotalOrderResult struct]; the heap of pending block lists and the
    timing statistics, which [VerifyTotalOrder] does not touch, are left
    out. *)
Record TotalOrderResult := mkTotalOrderResult {
  validatorID : ValidatorID;
  hashList : list Common.Hash;
  curID : Z
}.

Definition set_hashList (l : list Common.Hash) (r : TotalOrderResult)
  : TotalOrderResult :=
  {| validatorID := validatorID r; hashList := l; curID := curID r |}.

(** A pointer to a [TotalOrderResult] is a location of the store; a pointer
    that the store does not hold stands for [nil]. *)
Abbreviation loc := positive (only parsing).
Abbreviation store := (gmap positive TotalOrderResult) (only parsing).

(** [type PeerTotalOrder = map[types.ValidatorID]*TotalOrderResult]. *)
Abbreviation PeerTotalOrder := (gmap Z positive) (only parsing).

(** "Get the common length from all validators": one step of the loop. *)
Definition shorter (st : store) (_ : ValidatorID) (peerTotalOrder : loc)
    (acc : outcome Z) : outcome Z :=
  match acc with
  | Return len =>
      match st !! peerTotalOrder with
      | None => Panic
      | Some r =>
          if Z.of_nat (length (hashList r)) <? len
          then Return (Z.of_nat (length (hashList r)))
          else Return len
      end
  | _ => acc
  end.

Definition commonLength (totalOrder : PeerTotalOrder) (st : store) : outcome Z :=
  map_fold (shorter st) (Return MaxInt32) totalOrder.

(** The inner loop at index [i]: a peer whose hash differs raises
    [hasError]. *)
Definition differs (st : store) (i : nat) (hash : Common.Hash)
    (_ : ValidatorID) (peerTotalOrder : loc) (acc : outcome bool) : outcome bool :=
  match acc with
  | Return hasError =>
      match st !! peerTotalOrder with
      | None => Panic
      | Some r =>
          match hashList r !! i with
          | None => Panic
          | Some h => Return (if negb (h =? hash) then true else hasError)
          end
      end
  | _ => acc
  end.

(** [totalOrder[id].hashList[i]]. *)
Definition hashAt (id : ValidatorID) (totalOrder : PeerTotalOrder)
    (st : store) (i : nat) : option Common.Hash :=
  match totalOrder !! id with
  | None => None
  | Some p =>
      match st !! p with
      | None => None
      | Some r => hashList r !! i
      end
  end.

(** Every peer of the map has a result object with an entry at index [j]. *)
Definition allHave (m : PeerTotalOrder) (st : store) (j : nat) : Prop :=
  forall v p, m !! v = Some p ->
    exists r h, st !! p = Some r /\ hashList r !! j = Some h.

(** Some peer's entry at index [j] differs from the caller's. *)
Definition mismatch (id : ValidatorID) (m : PeerTotalOrder) (st : store)
    (j : nat) : Prop :=
  exists v p r h hash, m !! v = Some p /\ st !! p = Some r /\
    hashList r !! j = Some h /\ hashAt id m st j = Some hash /\ h <> hash.

(** [for i := 0; i < length; i++], from index [i] for [n] more rounds. *)
Fixpoint verifyFrom (n i : nat) (id : ValidatorID) (totalOrder : PeerTotalOrder)
    (st : store) (hasError : bool) : outcome bool :=
  match n with
  | O => Return hasError
  | S n' =>
      match hashAt id totalOrder st i with
      | None => Panic
      | Some hash =>
          match map_fold (differs st i hash) (Return hasError) totalOrder with
          | Return hasError' => verifyFrom n' (S i) id totalOrder st hasError'
          | o => o
          end
      end
  end.

(** "Remove verified block from list": one step,
    [totalOrder[vid].hashList = totalOrder[vid].hashList[length:]]. *)
Definition dropVerified (totalOrder : PeerTotalOrder) (len : nat)
    (vid : ValidatorID) (_ : loc) (acc : outcome store) : outcome store :=
  match acc with
  | Return st =>
      match totalOrder !! vid with
      | None => Panic
      | Some p =>
          match st !! p with
          | None => Panic
          | Some r =>
              if (len <=? length (hashList r))%nat
              then Return (<[p := set_hashList (drop len (hashList r)) r]> st)
              else Panic      (* slice bounds out of range *)
          end
      end
  | _ => acc
  end.

(** [VerifyTotalOrder]: the store after the call, [correct] and [length];
    the map returned is the map given. *)
Definition VerifyTotalOrder (id : ValidatorID) (totalOrder : PeerTotalOrder)
    (st : store) : outcome (store * bool * Z) :=
  match commonLength totalOrder st with
  | Return len =>
      match verifyFrom (Z.to_nat len) 0 id totalOrder st false with
      | Return hasError =>
          if 0 <? len then
            match map_fold (dropVerified totalOrder (Z.to_nat len))
                    (Return st) totalOrder with
            | Return st' => Return (st', negb hasError, len)
            | Panic => Panic
            | OutOfFuel => OutOfFuel
            end
          else Return (st, negb hasError, len)
      | Panic => Panic
      | OutOfFuel => OutOfFuel
      end
  | Panic => Panic
  | OutOfFuel => OutOfFuel
  end.

(** Three peers; peer 2 is one block behind, peer 3 disagrees on the
    second block. *)
Definition threePeers : PeerTotalOrder := {[ 1 := 1%positive; 2 := 2%positive; 3 := 3%positive ]}.

Definition agreeing : store :=
  {[ 1%positive := mkTotalOrderResult 1 [11; 12; 13] 3;
     2%positive := mkTotalOrderResult 2 [11; 12] 2;
     3%positive := mkTotalOrderResult 3 [11; 12; 13; 14] 4 ]}.

Definition disagreeing : store :=
  {[ 1%positive := mkTotalOrderResult 1 [11; 12; 13] 3;
     2%positive := mkTotalOrderResult 2 [11; 12] 2;
     3%positive := mkTotalOrderResult 3 [11; 99; 13; 14] 4 ]}.

(** Two peers that share one result object. *)
Definition aliased : PeerTotalOrder := {[ 1 := 1%positive; 2 := 1%positive ]}.

End Simulation.


(** ** More of [core/types/config.go] and [core/syncer/consensus.go] *)

Module TypesMore.
Import MachineInt Types.

(** A [float32] whose fields are within their widths. *)
Definition float32_wf (f : float32) : Prop :=
  0 <= f32_exp f < 2 ^ 8 /\ 0 <= f32_frac f < 2 ^ 23.

Definition int64_range (d : Z) : Prop := - 2 ^ 63 <= d < 2 ^ 63.
Definition uint32_range (v : Z) : Prop := 0 <= v < 2 ^ 32.

(** A [Config] whose fields survive [Bytes]: the durations are [int64]
    values, and the counters, [int]s in Go, are within [uint32]. *)
Definition Config_wf (c : Config) : Prop :=
  uint32_range (NumChains c) /\
  int64_range (LambdaBA c) /\ int64_range (LambdaDKG c) /\
  uint32_range (K c) /\ float32_wf (PhiRatio c) /\
  uint32_range (NumNotarySet c) /\ uint32_range (NumWitnessSet c) /\
  uint32_range (NumDKGSet c) /\
  int64_range (RoundInterval c) /\ int64_range (MinBlockInterval c) /\
  int64_range (MaxBlockInterval c).

(** The configuration with another [K]. *)
Definition set_K (k : Z) (c : Config) : Config :=
  {| NumChains := NumChains c; LambdaBA := LambdaBA c;
     LambdaDKG := LambdaDKG c; K := k; PhiRatio := PhiRatio c;
     NumNotarySet := NumNotarySet c; NumWitnessSet := NumWitnessSet c;
     NumDKGSet := NumDKGSet c; RoundInterval := RoundInterval c;
     MinBlockInterval := MinBlockInterval c;
     MaxBlockInterval := MaxBlockInterval c |}.

(** The configuration with another [PhiRatio]. *)
Definition set_PhiRatio (f : float32) (c : Config) : Config :=
  {| NumChains := NumChains c; LambdaBA := LambdaBA c;
     LambdaDKG := LambdaDKG c; K := K c; PhiRatio := f;
     NumNotarySet := NumNotarySet c; NumWitnessSet := NumWitnessSet c;
     NumDKGSet := NumDKGSet c; RoundInterval := RoundInterval c;
     MinBlockInterval := MinBlockInterval c;
     MaxBlockInterval := MaxBlockInterval c |}.

(** A quiet NaN. *)
Definition f32_NaN : float32 := mkFloat32 false 255 4194304.

End TypesMore.


Module SyncerMore.
Import MachineInt Types Syncer.

(** [b] is what [con.db.Get(a.Finalization.ParentHash)] gives. *)
Definition parentOf (d : gmap Z Block) (a b : Block) : Prop :=
  d !! FinalizationParentHash a = Some b.

(** A block at which a deliver set starts: the compaction chain begins
    with it, or its compaction parent's hash is not below its own ("a cut
    between deliver sets"). *)
Definition startsDeliverSet (d : gmap Z Block) (b : Block) : Prop :=
  FinalizationParentHash b = Common.zeroHash \/
  exists p, parentOf d b p /\ Common.Less (Hash p) (Hash b) = false.

(** From the genesis block up to [b] every block's hash is below its
    child's: the compaction chain up to [b] has no cut. *)
Inductive risesFromGenesis (d : gmap Z Block) : Block -> Prop :=
| rises_genesis b :
    FinalizationParentHash b = Common.zeroHash -> risesFromGenesis d b
| rises_step b p :
    FinalizationParentHash b <> Common.zeroHash ->
    parentOf d b p ->
    Common.Less (Hash p) (Hash b) = true ->
    risesFromGenesis d p -> risesFromGenesis d b.

(** A compaction tip that has a compaction parent, held by the database. *)
Definition hasParent (d : gmap Z Block) (b : Block) : Prop :=
  FinalizationParentHash b <> Common.zeroHash /\
  is_Some (d !! FinalizationParentHash b).

(** Two neighbours of a slice that are not consecutive in compaction
    height. *)
Definition heightGap (bs : list Block) (i : nat) : Prop :=
  exists prev cur, bs !! i = Some prev /\ bs !! S i = Some cur /\
    FinalizationHeight cur <> uint64 (FinalizationHeight prev + 1).

(** The database holds every block under the block's own hash. *)
Definition keyedByHash (d : gmap Z Block) : Prop :=
  map_Forall (fun h b => Hash b = h) d.

(** The compaction height falls from every block of the database to its
    compaction parent. *)
Definition heightsDescend (d : gmap Z Block) : Prop :=
  map_Forall (fun _ b =>
    match d !! FinalizationParentHash b with
    | Some p => FinalizationHeight p < FinalizationHeight b
    | None => True
    end) d.

#[global] Instance keyedByHash_dec (d : gmap Z Block) : Decision (keyedByHash d).
Proof. unfold keyedByHash. apply _. Defined.

#[global] Instance heightsDescend_dec (d : gmap Z Block) :
  Decision (heightsDescend d).
Proof.
  unfold heightsDescend. apply map_Forall_dec. intros _ b.
  destruct (d !! FinalizationParentHash b); apply _.
Defined.

(** *** Concrete states *)

Definition stableConfigs : list Config := [sample; sample; sample].

Definition blockAt (hash parent : Z) (round : nat) (height : Z) : Block :=
  {| Hash := hash; ParentHash := parent;
     BlockPosition := {| Round := round; ChainID := 0; Height := height |};
     FinalizationParentHash := parent; FinalizationHeight := height |}.

(** A compaction chain 70 <- 40 <- 60 <- 50 (by hash): the deliver set
    {40, 60} lies in round 0 and the latest block 50 opens round 1. *)
Definition boundaryDb : gmap Z Block :=
  {[ 70 := blockAt 70 0 0 1; 40 := blockAt 40 70 0 2;
     60 := blockAt 60 40 0 3 ]}.

Definition boundaryLast : Block := blockAt 50 60 1 4.

Definition boundaryConsensus : Consensus unit :=
  {| db := boundaryDb; lattice := None; latticeLastRound := 0; blocks := [];
     configs := stableConfigs; agreementRoundCut := 0; isSynced := false |}.

(** A compaction chain 10 <- 20 <- 30 whose hashes only rise. *)
Definition risingDb : gmap Z Block :=
  {[ 10 := blockAt 10 0 0 1; 20 := blockAt 20 10 0 2 ]}.

Definition risingLast : Block := blockAt 30 20 0 3.

Definition risingConsensus : Consensus unit :=
  {| db := risingDb; lattice := None; latticeLastRound := 0; blocks := [];
     configs := stableConfigs; agreementRoundCut := 0; isSynced := false |}.

(** A compaction chain 70 <- 40 <- 60 <- 90 <- 80 <- 85, all of round 0:
    the deliver sets are {70}, {40, 60, 90}, {80, 85}. *)
Definition setsDb : gmap Z Block :=
  {[ 70 := blockAt 70 0 0 1; 40 := blockAt 40 70 0 2;
     60 := blockAt 60 40 0 3; 90 := blockAt 90 60 0 4;
     80 := blockAt 80 90 0 5 ]}.

Definition setsLast : Block := blockAt 85 80 0 6.

Definition setsConsensus : Consensus unit :=
  {| db := setsDb; lattice := None; latticeLastRound := 0; blocks := [];
     configs := stableConfigs; agreementRoundCut := 0; isSynced := false |}.


(** Two chains by configuration, one queue in the pool; the compaction
    chain 401 <- 402 <- 403 meets both chains. *)
Definition poolBlock (hash parent : Z) (chain : nat) : Block :=
  {| Hash := hash; ParentHash := parent;
     BlockPosition := {| Round := 0; ChainID := chain; Height := hash - 400 |};
     FinalizationParentHash := parent; FinalizationHeight := hash - 400 |}.

Definition shortPool : Consensus unit :=
  {| db := {[ 402 := poolBlock 402 401 0; 401 := poolBlock 401 0 0 ]};
     lattice := None; latticeLastRound := 0;
     blocks := [[SyncerData.queued 1]];
     configs := [SyncerData.withNumChains 2; SyncerData.withNumChains 2];
     agreementRoundCut := 0; isSynced := false |}.

End SyncerMore.


Module SimulationMore.
Import MachineInt Syncer Simulation.

(** The three peers of [agreeing] once their common prefix is verified. *)
Definition verified : store :=
  {[ 1%positive := mkTotalOrderResult 1 [13] 3;
     2%positive := mkTotalOrderResult 2 [] 2;
     3%positive := mkTotalOrderResult 3 [13; 14] 4 ]}.

(** One peer whose list holds 2^31 hashes, one more than
    [math.MaxInt32]. *)
Definition onePeer : PeerTotalOrder := {[ 1 := 1%positive ]}.

Definition longList : store :=
  {[ 1%positive :=
       mkTotalOrderResult 1 (replicate (Z.to_nat 2147483648) 0) 0 ]}.

End SimulationMore.


(** ** [simulation/total-order-result.go]: [PushBlocks] *)

Module SimulationPush.
Import MachineInt Syncer Simulation.

(** [BlockList] is declared outside these sources; [PushBlocks] reads its
    [ID] and its [BlockHash] (the [ConfirmLatency] goes to the timing
    statistics, which are left out as in [TotalOrderResult]). *)
Record BlockList := mkBlockList {
  ID : Z;                        (* int *)
  BlockHash : list Common.Hash
}.

(** A [TotalOrderResult] with its [pendingBlockList], a heap kept in a
    slice: the root is at index 0. *)
Record Result := mkResult {
  result : TotalOrderResult;
  pendingBlockList : list BlockList
}.

Section Heap.

(** [heap.Push] and [heap.Pop] on a [PendingBlockList], whose methods
    are outside these sources: the heaps after the call, and for
    [heap.Pop] the element taken. *)
Variable heapPush : list BlockList -> BlockList -> list BlockList.
Variable heapPop : list BlockList -> option (BlockList * list BlockList).

(** "Append all of the consecutive blockList in the pendingBlockList". *)
Fixpoint appendConsecutive (fuel : nat) (blocks : BlockList)
    (hashes : list Common.Hash) (cur : Z) (pending : list BlockList)
  : outcome (list Common.Hash * Z * list BlockList) :=
  let hashes' := hashes ++ BlockHash blocks in
  let cur' := int64 (cur + 1) in
  match pending with
  | [] => Return (hashes', cur', pending)
  | top :: _ =>
      if negb (ID top =? cur') then Return (hashes', cur', pending)
      else
        match fuel with
        | O => OutOfFuel
        | S f =>
            match heapPop pending with
            | None => Panic
            | Some (next, pending') =>
                appendConsecutive f next hashes' cur' pending'
            end
        end
  end.

(** [PushBlocks]: the result object after the call and [ready]. *)
Definition PushBlocks (fuel : nat) (r : Result) (blocks : BlockList)
  : outcome (Result * bool) :=
  if negb (ID blocks =? curID (result r))
  then Return ({| result := result r;
                  pendingBlockList := heapPush (pendingBlockList r) blocks |},
               false)
  else
    match appendConsecutive fuel blocks (hashList (result r))
            (curID (result r)) (pendingBlockList r) with
    | Return (hashes, cur, pending) =>
        Return ({| result := {| validatorID := validatorID (result r);
                                hashList := hashes; curID := cur |};
                   pendingBlockList := pending |}, true)
    | Panic => Panic
    | OutOfFuel => OutOfFuel
    end.

End Heap.

(** What [PushBlocks] relies on: [heap.Push] adds the element to those
    of the heap, and [heap.Pop] takes the root, the element at index 0,
    and keeps the others. *)
Definition pushAdds (heapPush : list BlockList -> BlockList -> list BlockList)
  : Prop :=
  forall h x, heapPush h x ≡ₚ x :: h.

Definition popTakesRoot
    (heapPop : list BlockList -> option (BlockList * list BlockList)) : Prop :=
  forall x h, exists h', heapPop (x :: h) = Some (x, h') /\ h ≡ₚ h'.

(** A heap kept sorted by [ID]. *)
Fixpoint sortedPush (h : list BlockList) (x : BlockList) : list BlockList :=
  match h with
  | [] => [x]
  | y :: rest => if ID x <? ID y then x :: h else y :: sortedPush rest x
  end.

Definition sortedPop (h : list BlockList) : option (BlockList * list BlockList) :=
  match h with
  | [] => None
  | x :: rest => Some (x, rest)
  end.

(** A peer that waits for list 3 and holds lists 4, 5 and 7. *)
Definition waiting : Result :=
  {| result := mkTotalOrderResult 1 [11; 12] 3;
     pendingBlockList := [mkBlockList 4 [14]; mkBlockList 5 [15; 16];
                          mkBlockList 7 [19]] |}.

Definition caughtUp : Result :=
  {| result := mkTotalOrderResult 1 [11; 12; 13; 14; 15; 16] 6;
     pendingBlockList := [mkBlockList 7 [19]] |}.

End SimulationPush.


(** ** [core/syncer/consensus.go]: [ensureAgreementOverlapRound] *)

Module SyncerOverlap.
Import MachineInt Types Syncer.

(** [isEmptyBlock]. *)
Definition isEmptyBlock (b : Block) : bool :=
  (Hash b =? Common.zeroHash) && (ParentHash b =? Common.zeroHash).

(** [for len(bs) > 0 && cond(bs[0]) { bs = bs[1:] }]. *)
Fixpoint dropTips (cond : Block -> bool) (bs : list Block) : list Block :=
  match bs with
  | b :: rest => if cond b then dropTips cond rest else bs
  | [] => []
  end.

(** [buildEmptyBlock]: the timestamp, witness and acks that it writes
    are not among the fields of [Block]; what is left is the lookup of
    the configuration of the block's round. *)
Definition buildEmptyBlock (cfgs : list Config) (b parent : Block)
  : outcome unit :=
  match cfgs !! Round (BlockPosition b) with
  | None => Panic
  | Some _ => Return tt
  end.

(** "Build empty blocks", on one queue: [for i := range bs], where [prev]
    is [bs[i-1]], nothing at index 0. *)
Fixpoint buildEmptyBlocks (cfgs : list Config) (prev : option Block)
    (bs : list Block) : outcome unit :=
  match bs with
  | [] => Return tt
  | b :: rest =>
      if isEmptyBlock b then
        match prev with
        | None => Panic        (* bs[i-1] at i = 0 *)
        | Some parent =>
            if Height (BlockPosition parent)
               =? uint64 (Height (BlockPosition b) - 1)
            then match buildEmptyBlock cfgs b parent with
                 | Return _ => buildEmptyBlocks cfgs (Some b) rest
                 | Panic => Panic
                 | OutOfFuel => OutOfFuel
                 end
            else buildEmptyBlocks cfgs (Some b) rest
        end
      else buildEmptyBlocks cfgs (Some b) rest
  end.

Fixpoint buildAll (cfgs : list Config) (queues : list (list Block))
  : outcome unit :=
  match queues with
  | [] => Return tt
  | bs :: rest =>
      match buildEmptyBlocks cfgs None bs with
      | Return _ => buildAll cfgs rest
      | Panic => Panic
      | OutOfFuel => OutOfFuel
      end
  end.

(** [if len(bs) > 0 { tipRoundMap[bs[0].Position.Round]++ }]. *)
Definition countTip (tipRoundMap : gmap nat Z) (bs : list Block) : gmap nat Z :=
  match bs with
  | b :: _ =>
      <[Round (BlockPosition b) :=
          uint32 (default 0 (tipRoundMap !! Round (BlockPosition b)) + 1)]>
        tipRoundMap
  | [] => tipRoundMap
  end.

Definition tipRoundMapOf (queues : list (list Block)) : gmap nat Z :=
  foldl countTip ∅ queues.

(** [for r := range tipRoundMap { if r > maxRound { maxRound = r } }]. *)
Definition maxRoundIn (tipRoundMap : gmap nat Z) : nat :=
  map_fold (fun r _ maxRound => if (maxRound <? r)%nat then r else maxRound)
           0%nat tipRoundMap.

(** The [for] that makes all tips be of one round; it returns the queues
    and the last [tipRoundMap]. *)
Fixpoint alignTips (fuel : nat) (queues : list (list Block))
  : outcome (list (list Block) * gmap nat Z) :=
  let tipRoundMap := tipRoundMapOf queues in
  if (size tipRoundMap <=? 1)%nat then Return (queues, tipRoundMap)
  else
    match fuel with
    | O => OutOfFuel
    | S f =>
        let maxRound := maxRoundIn tipRoundMap in
        alignTips f
          (map (dropTips (fun b => (Round (BlockPosition b) <? maxRound)%nat))
               queues)
    end.

Section Consensus.
Context {Lattice : Type}.

Definition set_blocks (queues : list (list Block)) (con : Consensus Lattice)
  : Consensus Lattice :=
  {| db := db con; lattice := lattice con;
     latticeLastRound := latticeLastRound con; blocks := queues;
     configs := configs con; agreementRoundCut := agreementRoundCut con;
     isSynced := isSynced con |}.

Definition set_agreementRoundCut (r : nat) (con : Consensus Lattice)
  : Consensus Lattice :=
  {| db := db con; lattice := lattice con;
     latticeLastRound := latticeLastRound con; blocks := blocks con;
     configs := configs con; agreementRoundCut := r;
     isSynced := isSynced con |}.

(** [ensureAgreementOverlapRound]: the syncer after the call and the
    value returned. *)
Definition ensureAgreementOverlapRound (fuel : nat) (con : Consensus Lattice)
  : outcome (Consensus Lattice * bool) :=
  if (0 <? agreementRoundCut con)%nat then Return (con, true)
  else
    let queues := map (dropTips isEmptyBlock) (blocks con) in
    match buildAll (configs con) queues with
    | Return _ =>
        match alignTips fuel queues with
        | Return (queues', tipRoundMap) =>
            let con' := set_blocks queues' con in
            match map_to_list tipRoundMap with
            | [(r, count)] =>
                match configs con !! r with
                | None => Panic
                | Some cfg =>
                    if count =? NumChains cfg
                    then Return (set_agreementRoundCut r con', true)
                    else Return (con', false)
                end
            | _ => Return (con', false)
            end
        | Panic => Panic
        | OutOfFuel => OutOfFuel
        end
    | Panic => Panic
    | OutOfFuel => OutOfFuel
    end.

End Consensus.

(** The number of queues whose oldest block is of round [r]. *)
Fixpoint tipVotes (r : nat) (queues : list (list Block)) : nat :=
  match queues with
  | [] => 0
  | (b :: _) :: rest =>
      ((if (Round (BlockPosition b) =? r)%nat then 1 else 0)
       + tipVotes r rest)%nat
  | [] :: rest => tipVotes r rest
  end.

(** The number of blocks in the queues. *)
Definition queued (queues : list (list Block)) : nat :=
  sum_list (length <$> queues).

(** The oldest blocks of the queues that have one are all of one round. *)
Definition tipsAligned (queues : list (list Block)) : Prop :=
  forall q1 q2 b1 b2 rest1 rest2,
    q1 ∈ queues -> q2 ∈ queues -> q1 = b1 :: rest1 -> q2 = b2 :: rest2 ->
    Round (BlockPosition b1) = Round (BlockPosition b2).

(** Two chains; chain 0 has blocks of rounds 1 and 2 behind an empty
    block, chain 1 starts in round 2. *)
Definition ofRound (hash : Z) (round : nat) (chain : nat) (height : Z) : Block :=
  {| Hash := hash; ParentHash := hash - 1;
     BlockPosition := {| Round := round; ChainID := chain; Height := height |};
     FinalizationParentHash := 0; FinalizationHeight := 0 |}.

Definition emptyAt (round : nat) (chain : nat) (height : Z) : Block :=
  {| Hash := 0; ParentHash := 0;
     BlockPosition := {| Round := round; ChainID := chain; Height := height |};
     FinalizationParentHash := 0; FinalizationHeight := 0 |}.

Definition withNumChains2 : Config := SyncerData.withNumChains 2.

Definition twoChains : Consensus unit :=
  {| db := ∅; lattice := None; latticeLastRound := 0;
     blocks := [[emptyAt 1 0 4; ofRound 11 1 0 5; ofRound 12 2 0 6];
                [ofRound 21 2 1 3; ofRound 22 2 1 4]];
     configs := [Types.sample; withNumChains2; withNumChains2];
     agreementRoundCut := 0; isSynced := false |}.

(** What [ensureAgreementOverlapRound] makes of [twoChains]. *)
Definition alignedChains : Consensus unit :=
  set_agreementRoundCut 2
    (set_blocks [[ofRound 12 2 0 6]; [ofRound 21 2 1 3; ofRound 22 2 1 4]]
       twoChains).

End SyncerOverlap.


(** ** [core/syncer/consensus.go]: [setupConfigs] *)

Module SyncerSetup.
Import MachineInt Types Syncer.

(** [s[i]] for an index of type [uint64]; [None] is the index out of
    range. *)
Definition index {A : Type} (s : list A) (i : Z) : option A :=
  if (0 <=? i) && (i <? Z.of_nat (length s)) then s !! Z.to_nat i else None.

Section SetupConfigs.

Context {Lattice Time : Type}.

(** The collaborators of [setupConfigs], outside these sources:
    [con.gov.Configuration] (nil is [None]), the [uint64] constant
    [core.ConfigRoundShift], [time.Time.Add] and
    [con.lattice.AppendConfig] (an error is [None]).  Rounds are passed
    as the [uint64] values they are. *)
Variable Configuration : Z -> option Config.
Variable ConfigRoundShift : Z.
Variable Add : Time -> Duration -> Time.
Variable AppendConfig : Lattice -> Z -> Config -> option Lattice.

(** "Find max round in blocks". *)
Definition maxRoundOf (bs : list Block) : nat :=
  foldl (fun maxRound b =>
           if (maxRound <? Round (BlockPosition b))%nat
           then Round (BlockPosition b) else maxRound) 0%nat bs.

(** [untilRound := maxRound + core.ConfigRoundShift], in [uint64]. *)
Definition untilRoundOf (bs : list Block) : Z :=
  uint64 (Z.of_nat (maxRoundOf bs) + ConfigRoundShift).

(** "Get configs from governance":
    [for r := uint64(len(con.configs)); r <= untilRound; r++], from the
    value [r] of the loop variable on. *)
Fixpoint fetchConfigs (fuel : nat) (r untilRound : Z) (cfgs : list Config)
    (roundBeginTimes : list Time) (curMaxNumChains : Z)
  : outcome (list Config * list Time * Z) :=
  if untilRound <? r then Return (cfgs, roundBeginTimes, curMaxNumChains)
  else
    match fuel with
    | O => OutOfFuel
    | S f =>
        match Configuration r with
        | None => Panic      (* unable to get config for round *)
        | Some cfg =>
            let cfgs' := cfgs ++ [cfg] in
            match index roundBeginTimes (uint64 (r - 1)),
                  index cfgs' (uint64 (r - 1)) with
            | Some t, Some c =>
                fetchConfigs f (uint64 (r + 1)) untilRound cfgs'
                  (roundBeginTimes ++ [Add t (RoundInterval c)])
                  (if curMaxNumChains <=? NumChains cfg
                   then NumChains cfg else curMaxNumChains)
            | _, _ => Panic
            end
        end
    end.

(** [resizeByNumChains]: the pool of blocks; the agreement modules that
    are started along with the queues are left out, as in [Consensus]. *)
Definition resizeByNumChains (numChains : Z) (queues : list (list Block))
  : list (list Block) :=
  if uint32 (Z.of_nat (length queues)) <? numChains
  then queues ++
       replicate (Z.to_nat (numChains - uint32 (Z.of_nat (length queues)))) []
  else queues.

(** "Notify core.Lattice for new configs":
    [for con.latticeLastRound+1 <= maxRound], the sum in [uint64]. *)
Fixpoint notifyLattice (fuel : nat) (lat : Lattice) (latticeLastRound : nat)
    (maxRound : nat) (cfgs : list Config) : outcome (Lattice * nat) :=
  if uint64 (Z.of_nat latticeLastRound + 1) <=? Z.of_nat maxRound then
    match fuel with
    | O => OutOfFuel
    | S f =>
        let round := uint64 (Z.of_nat latticeLastRound + 1) in
        match index cfgs round with
        | None => Panic
        | Some c =>
            match AppendConfig lat round c with
            | None => Panic
            | Some lat' => notifyLattice f lat' (Z.to_nat round) maxRound cfgs
            end
        end
    end
  else Return (lat, latticeLastRound).

(** [setupConfigs], on the syncer and its [roundBeginTimes]. *)
Definition setupConfigs (fuel : nat) (con : Consensus Lattice)
    (roundBeginTimes : list Time) (bs : list Block)
  : outcome (Consensus Lattice * list Time) :=
  let maxRound := maxRoundOf bs in
  let untilRound := untilRoundOf bs in
  match fetchConfigs fuel (uint64 (Z.of_nat (length (configs con))))
          untilRound (configs con) roundBeginTimes 0 with
  | Return (cfgs, times, curMaxNumChains) =>
      let queues := resizeByNumChains curMaxNumChains (blocks con) in
      match lattice con with
      | None =>
          Return ({| db := db con; lattice := None;
                     latticeLastRound := latticeLastRound con;
                     blocks := queues; configs := cfgs;
                     agreementRoundCut := agreementRoundCut con;
                     isSynced := isSynced con |}, times)
      | Some lat =>
          match notifyLattice fuel lat (latticeLastRound con) maxRound cfgs with
          | Return (lat', last) =>
              Return ({| db := db con; lattice := Some lat';
                         latticeLastRound := last;
                         blocks := queues; configs := cfgs;
                         agreementRoundCut := agreementRoundCut con;
                         isSynced := isSynced con |}, times)
          | Panic => Panic
          | OutOfFuel => OutOfFuel
          end
      end
  | Panic => Panic
  | OutOfFuel => OutOfFuel
  end.

End SetupConfigs.

(** A governance that answers [sample] for every round up to 9, and a
    syncer as [NewConsensus] makes it. *)
Definition tenRounds (r : Z) : option Config :=
  if r <=? 9 then Some sample else None.

Definition newConsensus : Consensus unit :=
  {| db := ∅; lattice := None; latticeLastRound := 0; blocks := [];
     configs := [sample]; agreementRoundCut := 0; isSynced := false |}.

Definition roundBlock (round : nat) : Block :=
  {| Hash := 1; ParentHash := 0;
     BlockPosition := {| Round := round; ChainID := 0; Height := 0 |};
     FinalizationParentHash := 0; FinalizationHeight := 1 |}.

(** What [setupConfigs] makes of [newConsensus], begun at instant 0, on
    a block of round 1 with a [ConfigRoundShift] of 2. *)
Definition afterSetup : Consensus unit :=
  {| db := ∅; lattice := None; latticeLastRound := 0;
     blocks := replicate 19 [];
     configs := [sample; sample; sample; sample];
     agreementRoundCut := 0; isSynced := false |}.

Definition afterSetupTimes : list Z :=
  [0; 3600000000000; 7200000000000; 10800000000000].

(** The same syncer with a lattice whose last round is 0, and what
    [setupConfigs] makes of it on a block of round 3. *)
Definition withLattice : Consensus unit :=
  {| db := ∅; lattice := Some tt; latticeLastRound := 0; blocks := [];
     configs := [sample]; agreementRoundCut := 0; isSynced := false |}.

Definition afterNotify : Consensus unit :=
  {| db := ∅; lattice := Some tt; latticeLastRound := 3;
     blocks := replicate 19 [];
     configs := [sample; sample; sample; sample; sample; sample];
     agreementRoundCut := 0; isSynced := false |}.

Definition afterNotifyTimes : list Z :=
  [0; 3600000000000; 7200000000000; 10800000000000; 14400000000000;
   18000000000000].

End SyncerSetup.


(** * Part II: properties *)

(** ** Machine integers and the little-endian byte order *)

Section EncodingFacts.
Import MachineInt LittleEndian.

Lemma byte_mod v : byte v = v mod 256.
Proof. unfold byte. change 255 with (Z.ones 8). now rewrite Z.land_ones. Qed.

Lemma byte_range v : 0 <= byte v < 256.
Proof. rewrite byte_mod. apply Z.mod_pos_bound. lia. Qed.

Lemma shiftr_div v n : 0 <= n -> Z.shiftr v n = v / 2 ^ n.
Proof. intros. now apply Z.shiftr_div_pow2. Qed.

Lemma int64_uint64 v : int64 (uint64 v) = int64 v.
Proof.
  unfold int64, uint64.
  rewrite Zplus_mod_idemp_l. reflexivity.
Qed.

Lemma int64_id v : - 2 ^ 63 <= v < 2 ^ 63 -> int64 v = v.
Proof. intros. unfold int64. rewrite Z.mod_small; lia. Qed.

Lemma uint32_id v : 0 <= v < 2 ^ 32 -> uint32 v = v.
Proof. intros. unfold uint32. now rewrite Z.mod_small. Qed.

Lemma PutUint32_make v :
  PutUint32 (make 4) v =
  [byte v; byte (Z.shiftr v 8); byte (Z.shiftr v 16); byte (Z.shiftr v 24)].
Proof. reflexivity. Qed.

Lemma PutUint64_make v :
  PutUint64 (make 8) v =
  [byte v; byte (Z.shiftr v 8); byte (Z.shiftr v 16); byte (Z.shiftr v 24);
   byte (Z.shiftr v 32); byte (Z.shiftr v 40); byte (Z.shiftr v 48);
   byte (Z.shiftr v 56)].
Proof. reflexivity. Qed.

Lemma split_low v n : 0 < n -> v mod (256 * n) = v mod 256 + 256 * ((v / 256) mod n).
Proof. intros. apply Z.rem_mul_r; lia. Qed.

Lemma Uint_PutUint32 v : Uint (PutUint32 (make 4) v) = uint32 v.
Proof.
  rewrite PutUint32_make. unfold Uint, uint32.
  rewrite !byte_mod, !shiftr_div by lia.
  change (2 ^ 32) with (256 * (256 * (256 * 256))).
  rewrite (split_low v) by lia.
  rewrite (split_low (v / 256)) by lia.
  rewrite (split_low (v / 256 / 256)) by lia.
  change (2 ^ 8) with 256.
  change (2 ^ 16) with (256 * 256).
  change (2 ^ 24) with (256 * 256 * 256).
  rewrite <- !Z.div_div by lia.
  lia.
Qed.

Lemma Uint_PutUint64 v : Uint (PutUint64 (make 8) v) = uint64 v.
Proof.
  rewrite PutUint64_make. unfold Uint, uint64.
  rewrite !byte_mod, !shiftr_div by lia.
  change (2 ^ 64) with
    (256 * (256 * (256 * (256 * (256 * (256 * (256 * 256))))))).
  rewrite (split_low v) by lia.
  rewrite (split_low (v / 256)) by lia.
  rewrite (split_low (v / 256 / 256)) by lia.
  rewrite (split_low (v / 256 / 256 / 256)) by lia.
  rewrite (split_low (v / 256 / 256 / 256 / 256)) by lia.
  rewrite (split_low (v / 256 / 256 / 256 / 256 / 256)) by lia.
  rewrite (split_low (v / 256 / 256 / 256 / 256 / 256 / 256)) by lia.
  change (2 ^ 8) with 256.
  change (2 ^ 16) with (256 * 256).
  change (2 ^ 24) with (256 * 256 * 256).
  change (2 ^ 32) with (256 * 256 * 256 * 256).
  change (2 ^ 40) with (256 * 256 * 256 * 256 * 256).
  change (2 ^ 48) with (256 * 256 * 256 * 256 * 256 * 256).
  change (2 ^ 56) with (256 * 256 * 256 * 256 * 256 * 256 * 256).
  rewrite <- !Z.div_div by lia.
  lia.
Qed.

Lemma int64_range v : - 2 ^ 63 <= int64 v < 2 ^ 63.
Proof.
  unfold int64.
  pose proof (Z.mod_pos_bound (v + 2 ^ 63) (2 ^ 64) ltac:(lia)). lia.
Qed.

Lemma int64_int64 v : int64 (int64 v) = int64 v.
Proof. apply int64_id, int64_range. Qed.

Lemma uint32_uint32 v : uint32 (uint32 v) = uint32 v.
Proof. unfold uint32. apply Z.mod_mod. lia. Qed.

End EncodingFacts.


(** ** [Config.Bytes] *)

Section ConfigBytes.
Import MachineInt LittleEndian Types.

Lemma Float32bits_range f : 0 <= Float32bits f < 2 ^ 32.
Proof.
  unfold Float32bits.
  pose proof (Z.mod_pos_bound (f32_exp f) (2 ^ 8) ltac:(lia)).
  pose proof (Z.mod_pos_bound (f32_frac f) (2 ^ 23) ltac:(lia)).
  destruct (f32_sign f); lia.
Qed.

Lemma Bytes_unfold c :
  Bytes c =
  PutUint32 (make 4) (NumChains c) ++
  PutUint64 (make 8) (uint64 (Nanoseconds (LambdaBA c))) ++
  PutUint64 (make 8) (uint64 (Nanoseconds (LambdaDKG c))) ++
  PutUint32 (make 4) (uint32 (K c)) ++
  PutUint32 (make 4) (Float32bits (PhiRatio c)) ++
  PutUint32 (make 4) (uint32 (NumNotarySet c)) ++
  PutUint32 (make 4) (uint32 (NumWitnessSet c)) ++
  PutUint32 (make 4) (uint32 (NumDKGSet c)) ++
  PutUint64 (make 8) (uint64 (Nanoseconds (RoundInterval c))) ++
  PutUint64 (make 8) (uint64 (Nanoseconds (MinBlockInterval c))) ++
  PutUint64 (make 8) (uint64 (Nanoseconds (MaxBlockInterval c))).
Proof. unfold Bytes. cbv zeta. rewrite app_nil_l, <- !app_assoc. reflexivity. Qed.

Lemma length_PutUint32 v : length (PutUint32 (make 4) v) = 4%nat.
Proof. reflexivity. Qed.

Lemma length_PutUint64 v : length (PutUint64 (make 8) v) = 8%nat.
Proof. reflexivity. Qed.

(** Reading a field back: skip the fields before it, take its bytes. *)
Lemma slice_here (n : nat) (x r : list Z) : length x = n -> slice 0 n (x ++ r) = x.
Proof.
  intros <-. unfold slice. rewrite drop_0. now rewrite take_app_length.
Qed.

Lemma slice_skip (off n : nat) (x r : list Z) :
  (length x <= off)%nat -> slice off n (x ++ r) = slice (off - length x) n r.
Proof.
  intros Hle. unfold slice.
  rewrite drop_app_ge by exact Hle. reflexivity.
Qed.

Lemma slice_last (n : nat) (x : list Z) : length x = n -> slice 0 n x = x.
Proof. intros <-. unfold slice. rewrite drop_0. apply firstn_all. Qed.

Ltac field_at :=
  unfold Uint32At, Int64At; rewrite Bytes_unfold;
  repeat (rewrite slice_skip by (rewrite ?length_PutUint32, ?length_PutUint64; lia);
          rewrite ?length_PutUint32, ?length_PutUint64; cbn [Nat.sub]);
  first [ rewrite slice_here by reflexivity | rewrite slice_last by reflexivity ];
  rewrite ?Uint_PutUint32, ?Uint_PutUint64.

Lemma duration_field d : int64 (uint64 (uint64 (Nanoseconds d))) = int64 d.
Proof. unfold Nanoseconds. now rewrite !int64_uint64, int64_int64. Qed.


(** On a configuration whose fields are within their Go types, the fields
    read back are the fields themselves. *)
Lemma Config_Bytes_in_range (c : Config) :
  0 <= NumChains c < 2 ^ 32 -> 0 <= K c < 2 ^ 32 ->
  - 2 ^ 63 <= LambdaBA c < 2 ^ 63 ->
  Uint32At 0 (Bytes c) = NumChains c /\
  Int64At 4 (Bytes c) = LambdaBA c /\
  Uint32At 20 (Bytes c) = K c.
Proof.
  intros Hn Hk Hl. repeat apply conj.
  - field_at. now apply uint32_id.
  - field_at. rewrite duration_field. now apply int64_id.
  - field_at. rewrite uint32_uint32. now apply uint32_id.
Qed.

(** Every byte of the encoding is a byte. *)
Lemma Config_Bytes_bytes c : Forall (fun b => 0 <= b < 256) (Bytes c).
Proof.
  rewrite Bytes_unfold, !PutUint32_make, !PutUint64_make. cbn [app].
  repeat (constructor; [apply byte_range|]). constructor.
Qed.

(** The encoding of a configuration with two thirds as [PhiRatio]; the
    negative [MaxBlockInterval] shows the two's complement. *)
Example Config_Bytes_sample :
  Bytes sample =
  [19; 0; 0; 0;   128; 178; 230; 14; 0; 0; 0; 0;   0; 202; 154; 59; 0; 0; 0; 0;
   2; 0; 0; 0;   171; 170; 42; 63;   7; 0; 0; 0;   5; 0; 0; 0;   4; 0; 0; 0;
   0; 160; 184; 48; 70; 3; 0; 0;   64; 66; 15; 0; 0; 0; 0; 0;
   255; 255; 255; 255; 255; 255; 255; 255].
Proof. vm_compute. reflexivity. Qed.

(** *** What the encoding keeps of a configuration *)

Import TypesMore.

(** All eleven fields, read back at their offsets. *)
Lemma Bytes_read_back (c : Config) :
  Uint32At 0 (Bytes c) = uint32 (NumChains c) /\
  Int64At 4 (Bytes c) = int64 (LambdaBA c) /\
  Int64At 12 (Bytes c) = int64 (LambdaDKG c) /\
  Uint32At 20 (Bytes c) = uint32 (K c) /\
  Uint32At 24 (Bytes c) = Float32bits (PhiRatio c) /\
  Uint32At 28 (Bytes c) = uint32 (NumNotarySet c) /\
  Uint32At 32 (Bytes c) = uint32 (NumWitnessSet c) /\
  Uint32At 36 (Bytes c) = uint32 (NumDKGSet c) /\
  Int64At 40 (Bytes c) = int64 (RoundInterval c) /\
  Int64At 48 (Bytes c) = int64 (MinBlockInterval c) /\
  Int64At 56 (Bytes c) = int64 (MaxBlockInterval c).
Proof.
  repeat apply conj; field_at;
    first [ apply duration_field | apply uint32_uint32
          | apply uint32_id, Float32bits_range | reflexivity ].
Qed.

Lemma Float32bits_inj (f g : float32) :
  float32_wf f -> float32_wf g -> Float32bits f = Float32bits g -> f = g.
Proof.
  destruct f as [s e m], g as [s' e' m']. unfold float32_wf, Float32bits.
  cbn [f32_sign f32_exp f32_frac]. intros [He Hm] [He' Hm'].
  rewrite !Z.mod_small by assumption.
  change (2 ^ 8) with 256 in *. change (2 ^ 23) with 8388608 in *.
  change (2 ^ 31) with 2147483648.
  intros H. destruct s, s'; try lia;
    (assert (e = e') by lia; assert (m = m') by lia; now subst).
Qed.

(** X1. On configurations whose fields are within the widths that Bytes
    writes, Bytes is injective: two configurations with the same encoding
    are the same configuration. *)
Theorem Bytes_injective (c1 c2 : Config) :
  Config_wf c1 -> Config_wf c2 -> Bytes c1 = Bytes c2 -> c1 = c2.
Proof.
  intros (H1 & H2 & H3 & H4 & H5 & H6 & H7 & H8 & H9 & H10 & H11)
         (G1 & G2 & G3 & G4 & G5 & G6 & G7 & G8 & G9 & G10 & G11) Heq.
  pose proof (Bytes_read_back c1) as (R1 & R2 & R3 & R4 & R5 & R6 & R7 & R8 & R9 & R10 & R11).
  pose proof (Bytes_read_back c2) as (S1 & S2 & S3 & S4 & S5 & S6 & S7 & S8 & S9 & S10 & S11).
  rewrite Heq in *. unfold uint32_range, int64_range in *.
  rewrite uint32_id in R1, R4, R6, R7, R8, S1, S4, S6, S7, S8 by assumption.
  rewrite int64_id in R2, R3, R9, R10, R11, S2, S3, S9, S10, S11 by assumption.
  destruct c1, c2; cbn in *. f_equal; try congruence.
  apply Float32bits_inj; [assumption | assumption | congruence].
Qed.

(** X2. Bytes keeps the low 32 bits of K only: configurations that differ
    in K by a multiple of 2^32 have the same encoding. *)
Theorem Bytes_K_truncated (c : Config) (n : Z) :
  Bytes (set_K (K c + 2 ^ 32 * n) c) = Bytes c.
Proof.
  rewrite !Bytes_unfold. cbn [set_K NumChains LambdaBA LambdaDKG K PhiRatio
    NumNotarySet NumWitnessSet NumDKGSet RoundInterval MinBlockInterval
    MaxBlockInterval].
  replace (uint32 (K c + 2 ^ 32 * n)) with (uint32 (K c)); [reflexivity|].
  unfold uint32. rewrite Z.mul_comm. now rewrite Z_mod_plus_full.
Qed.

Lemma Bytes_injective_witness :
  set_K 2 (set_K 7 sample) = sample.
Proof.
  apply (Bytes_injective (set_K 2 (set_K 7 sample)) sample).
  - unfold Config_wf, uint32_range, int64_range, float32_wf. cbn. lia.
  - unfold Config_wf, uint32_range, int64_range, float32_wf. cbn. lia.
  - vm_compute. reflexivity.
Defined.

End ConfigBytes.


(** ** The syncer *)

Section SyncerFacts.
Import MachineInt Types Syncer.
Context {Lattice CoreConsensus : Type}.
Implicit Types (con : Consensus Lattice) (cfgs : list Config).

(** *** [SyncBlocks] *)

(** C10. On a syncer that is not yet synced, SyncBlocks with an empty
    slice returns (nil, nil) and leaves the syncer as it was; the
    already-synced test comes first, so a synced syncer answers
    ErrAlreadySynced for any slice, the empty one included. *)
Theorem SyncBlocks_empty_and_synced
    (syncFrom : Consensus Lattice -> list Block -> bool ->
                Consensus Lattice * (option CoreConsensus * option error))
    con (bs : list Block) (latest : bool) :
  (isSynced con = false ->
   SyncBlocks syncFrom con [] latest = (con, (None, None))) /\
  (isSynced con = true ->
   SyncBlocks syncFrom con bs latest = (con, (None, Some ErrAlreadySynced)) /\
   SyncBlocks syncFrom con [] latest = (con, (None, Some ErrAlreadySynced))).
Proof.
  unfold SyncBlocks. split.
  - intros ->. reflexivity.
  - intros ->. split; reflexivity.
Qed.

(** A slice that is not consecutive in compaction height is refused before
    anything else is done. *)
Lemma SyncBlocks_invalid_order syncFrom con (bs : list Block) latest :
  isSynced con = false -> consecutive bs = false ->
  SyncBlocks (CoreConsensus := CoreConsensus) syncFrom con bs latest =
  (con, (None, Some ErrInvalidBlockOrder)).
Proof.
  intros Hs Hc. unfold SyncBlocks. rewrite Hs, Hc.
  destruct bs; [discriminate Hc | reflexivity].
Qed.

(** *** [findLatticeSyncBlock]: the search for a safe round *)

Lemma findSafeRound_eq cfgs round :
  findSafeRound cfgs round =
  match sameAsPrevRound cfgs round, sameAsNextRound cfgs round with
  | Some p, Some n =>
      if p && n then Return (Some round)
      else match round with
           | O => Return None
           | S r => findSafeRound cfgs r
           end
  | _, _ => Panic
  end.
Proof. destruct round; reflexivity. Qed.

Lemma sameAsPrevRound_true cfgs r :
  sameAsPrevRound cfgs r = Some true ->
  r = 0%nat \/ exists p c, cfgs !! pred r = Some p /\ cfgs !! r = Some c /\
                      isConfigChanged p c = false.
Proof.
  destruct r as [|p]; [now left|]. cbn [sameAsPrevRound pred].
  destruct (cfgs !! p) as [c1|] eqn:E1; [|discriminate].
  destruct (cfgs !! S p) as [c2|] eqn:E2; [|discriminate].
  intros [= H]. right. exists c1, c2. repeat split.
  now apply negb_true_iff.
Qed.

Lemma sameAsNextRound_true cfgs r :
  sameAsNextRound cfgs r = Some true ->
  exists c n, cfgs !! r = Some c /\ cfgs !! S r = Some n /\
              isConfigChanged c n = false.
Proof.
  unfold sameAsNextRound.
  destruct (cfgs !! r) as [c1|] eqn:E1; [|discriminate].
  destruct (cfgs !! S r) as [c2|] eqn:E2; [|discriminate].
  intros [= H]. exists c1, c2. repeat split. now apply negb_true_iff.
Qed.

Lemma safe_round_stable cfgs r :
  sameAsPrevRound cfgs r = Some true -> sameAsNextRound cfgs r = Some true ->
  stableAt cfgs r.
Proof.
  intros Hp Hn.
  destruct (sameAsNextRound_true _ _ Hn) as (c & n & Hc & Hn' & Hcn).
  exists c, n. repeat split; try assumption.
  destruct (sameAsPrevRound_true _ _ Hp) as [->|(p & c' & Hp' & Hc' & Hpc)].
  - now left.
  - right. exists p. split; [assumption|]. congruence.
Qed.

Lemma sameAsPrevRound_defined cfgs r :
  (r < length cfgs)%nat -> is_Some (sameAsPrevRound cfgs r).
Proof.
  intros Hlt. destruct r as [|p]; [now eexists|]. cbn [sameAsPrevRound].
  destruct (lookup_lt_is_Some_2 cfgs p ltac:(lia)) as [c1 ->].
  destruct (lookup_lt_is_Some_2 cfgs (S p) ltac:(lia)) as [c2 ->].
  now eexists.
Qed.

Lemma sameAsNextRound_defined cfgs r :
  (S r < length cfgs)%nat -> is_Some (sameAsNextRound cfgs r).
Proof.
  intros Hlt. unfold sameAsNextRound.
  destruct (lookup_lt_is_Some_2 cfgs r ltac:(lia)) as [c1 ->].
  destruct (lookup_lt_is_Some_2 cfgs (S r) ltac:(lia)) as [c2 ->].
  now eexists.
Qed.


(** When the search does return a round, that round is stable and not
    above the starting one. *)
Lemma findSafeRound_Some cfgs round r :
  findSafeRound cfgs round = Return (Some r) ->
  (r <= round)%nat /\ stableAt cfgs r.
Proof.
  induction round as [|round IH]; rewrite findSafeRound_eq;
    destruct (sameAsPrevRound cfgs _) as [p|] eqn:Hp; try discriminate;
    destruct (sameAsNextRound cfgs _) as [n|] eqn:Hn; try discriminate;
    destruct p, n; cbn [andb]; try discriminate;
    try (intros [= <-]; split; [lia | now apply safe_round_stable]);
    intros H; destruct (IH H); split; (lia || assumption).
Qed.



(** *** [checkIfSynced]: the tips of the compaction chain *)

Lemma countTips_le (tips : list (option Block)) :
  (countTips tips <= length tips)%nat.
Proof. induction tips as [|[t|] r IH]; cbn; lia. Qed.

Lemma countTips_full (tips : list (option Block)) :
  (length tips <= countTips tips)%nat ->
  forall c, (c < length tips)%nat -> exists t, tips !! c = Some (Some t).
Proof.
  induction tips as [|[t|] r IH]; cbn; intros Hle c Hc.
  - lia.
  - destruct c as [|c]; [now exists t|]. apply IH; lia.
  - pose proof (countTips_le r). lia.
Qed.

Lemma countTips_insert (tips : list (option Block)) (c : nat) (b : Block) :
  tips !! c = Some None ->
  countTips (<[c := Some b]> tips) = S (countTips tips).
Proof.
  revert c. induction tips as [|o r IH]; intros [|c] H; try discriminate.
  - cbn in H. injection H as ->. reflexivity.
  - change (<[S c := Some b]> (o :: r)) with (o :: <[c := Some b]> r).
    cbn in H. destruct o; cbn [countTips]; now rewrite (IH c H).
Qed.

Lemma findTips_eq fuel (d : gmap Z Block) numChains tips tipCount b :
  findTips fuel d numChains tips tipCount b =
  if (numChains <=? tipCount)%nat then Return (Some tips)
  else
    match fuel with
    | O => OutOfFuel
    | S f =>
        match tips !! ChainID (BlockPosition b) with
        | None => Panic
        | Some tip =>
            let '(tips', count') :=
              match tip with
              | None =>
                  if (ChainID (BlockPosition b) <? numChains)%nat
                  then (<[ChainID (BlockPosition b) := Some b]> tips,
                        S tipCount)
                  else (tips, tipCount)
              | Some _ => (tips, tipCount)
              end in
            if FinalizationParentHash b =? Common.zeroHash then Return None
            else match d !! FinalizationParentHash b with
                 | None => Panic
                 | Some b1 => findTips f d numChains tips' count' b1
                 end
        end
    end.
Proof. destruct fuel; reflexivity. Qed.

Lemma findTips_tips fuel (d : gmap Z Block) numChains :
  forall tips tipCount b tips',
  length tips = numChains -> tipCount = countTips tips ->
  findTips fuel d numChains tips tipCount b = Return (Some tips') ->
  length tips' = numChains /\
  forall c, (c < numChains)%nat ->
    exists t, tips' !! c = Some (Some t) /\
              tipAfter tips (chainBack fuel d b) c = Some t.
Proof.
  induction fuel as [|f IH]; intros tips tipCount b tips' Hlen Hcnt;
    rewrite findTips_eq.
  - destruct (Nat.leb_spec numChains tipCount) as [Hle|Hlt]; [|discriminate].
    intros [= <-]. split; [assumption|]. intros c Hc.
    destruct (countTips_full tips ltac:(lia) c ltac:(lia)) as [t Ht].
    exists t. split; [assumption|]. unfold tipAfter. now rewrite Ht.
  - destruct (Nat.leb_spec numChains tipCount) as [Hle|Hlt].
    { intros [= <-]. split; [assumption|]. intros c Hc.
      destruct (countTips_full tips ltac:(lia) c ltac:(lia)) as [t Ht].
      exists t. split; [assumption|]. unfold tipAfter. now rewrite Ht. }
    destruct (tips !! ChainID (BlockPosition b)) as [tip|] eqn:Htip;
      [|discriminate].
    cbn [chainBack].
    destruct tip as [t0|].
    + (* the chain of [b] has its tip already *)
      destruct (FinalizationParentHash b =? Common.zeroHash); [discriminate|].
      destruct (d !! FinalizationParentHash b) as [b1|]; [|discriminate].
      intros Hrec.
      destruct (IH tips tipCount b1 tips' Hlen Hcnt Hrec) as [Hl Hall].
      split; [assumption|]. intros c Hc.
      destruct (Hall c Hc) as (t & Ht & Hafter). exists t. split; [assumption|].
      unfold tipAfter in *. destruct (tips !! c) as [[t1|]|] eqn:Hc1;
        try assumption.
      * cbn [tipOf List.find].
        destruct (Nat.eqb_spec (ChainID (BlockPosition b)) c) as [Heq|Hne];
          [subst c; congruence | exact Hafter].
      * cbn [tipOf List.find].
        destruct (Nat.eqb_spec (ChainID (BlockPosition b)) c) as [Heq|Hne];
          [subst c; congruence | exact Hafter].
    + (* [b] is the tip of its chain *)
      assert (Hin : (ChainID (BlockPosition b) < numChains)%nat).
      { rewrite <- Hlen. eapply lookup_lt_Some. exact Htip. }
      destruct (Nat.ltb_spec (ChainID (BlockPosition b)) numChains) as [_|?];
        [|lia].
      destruct (FinalizationParentHash b =? Common.zeroHash); [discriminate|].
      destruct (d !! FinalizationParentHash b) as [b1|]; [|discriminate].
      intros Hrec.
      destruct (IH (<[ChainID (BlockPosition b) := Some b]> tips) (S tipCount)
                  b1 tips') as [Hl Hall].
      { now rewrite length_insert. }
      { rewrite countTips_insert by assumption. now rewrite Hcnt. }
      { exact Hrec. }
      split; [assumption|]. intros c Hc.
      destruct (Hall c Hc) as (t & Ht & Hafter). exists t. split; [assumption|].
      unfold tipAfter in *.
      destruct (Nat.eq_dec (ChainID (BlockPosition b)) c) as [Heq|Hne].
      * subst c. rewrite list_lookup_insert_eq in Hafter by lia.
        rewrite Htip. cbn [tipOf List.find]. now rewrite Nat.eqb_refl.
      * rewrite list_lookup_insert_ne in Hafter by assumption.
        destruct (tips !! c) as [[t1|]|] eqn:Hc1; try assumption.
        -- cbn [tipOf List.find].
           destruct (Nat.eqb_spec (ChainID (BlockPosition b)) c); [lia|].
           exact Hafter.
        -- cbn [tipOf List.find].
           destruct (Nat.eqb_spec (ChainID (BlockPosition b)) c); [lia|].
           exact Hafter.
Qed.


(** The search started by [checkIfSynced] yields, for every chain, the most
    recent block of that chain on the compaction chain. *)
Lemma findTips_fresh fuel (d : gmap Z Block) numChains b tips :
  findTips fuel d numChains (replicate numChains None) 0 b = Return (Some tips) ->
  length tips = numChains /\
  forall c, (c < numChains)%nat ->
    exists t, tips !! c = Some (Some t) /\ tipOf c (chainBack fuel d b) = Some t.
Proof.
  intros H.
  destruct (findTips_tips fuel d numChains (replicate numChains None) 0 b tips)
    as [Hl Hall].
  - apply length_replicate.
  - clear. induction numChains; cbn; auto.
  - exact H.
  - split; [assumption|]. intros c Hc.
    destruct (Hall c Hc) as (t & Ht & Hafter). exists t. split; [assumption|].
    unfold tipAfter in Hafter.
    now rewrite lookup_replicate_2 in Hafter by assumption.
Qed.

(** *** [checkIfSynced]: counting the overlapped chains *)




(** When the walk reaches the genesis block first, the syncer is left as
    it was. *)
Lemma checkIfSynced_genesis (fuel : nat) con (bs : list Block)
    (numChains : nat) (b : Block) :
  numChainsOfFirstBlock con = Some numChains ->
  last bs = Some b ->
  findTips fuel (db con) numChains (replicate numChains None) 0 b = Return None ->
  checkIfSynced fuel con bs = Return con.
Proof. intros Hnum Hlast H. unfold checkIfSynced. now rewrite Hnum, Hlast, H. Qed.

End SyncerFacts.


(** *** The syncer on concrete states *)

Section SyncerExamples.
Import Types Syncer SyncerData.




(** ErrGenesisBlockReached is the answer when the walk over the compaction
    chain, not the walk over the rounds, runs into the genesis block: here
    round 0 is safe and the only block has no compaction parent. *)
Example findLatticeSyncBlock_genesis :
  findLatticeSyncBlock 8 (oneChain 5) [queued 5]
  = Return (None, Some ErrGenesisBlockReached).
Proof. vm_compute. reflexivity. Qed.

Lemma SyncBlocks_empty_and_synced_witness :
  SyncBlocks (CoreConsensus := unit) (fun c _ _ => (c, (None, None)))
             unstableConsensus [] true
  = (unstableConsensus, (None, None)) /\
  SyncBlocks (CoreConsensus := unit) (fun c _ _ => (c, (None, None)))
             (set_isSynced true unstableConsensus) [] true
  = (set_isSynced true unstableConsensus, (None, Some ErrAlreadySynced)).
Proof.
  split.
  - apply (proj1 (SyncBlocks_empty_and_synced
                    (fun c _ _ => (c, (None, None))) unstableConsensus [] true)).
    reflexivity.
  - apply (proj2 (SyncBlocks_empty_and_synced
                    (fun c _ _ => (c, (None, None)))
                    (set_isSynced true unstableConsensus) [] true)).
    reflexivity.
Defined.




(** A compaction chain that ends at its genesis block before every chain
    was met leaves the syncer unsynced, whatever the queues hold. *)
Example checkIfSynced_genesis_first :
  checkIfSynced 8 (oneChain 0) [queued 0] = Return (oneChain 0).
Proof. vm_compute. reflexivity. Qed.

End SyncerExamples.


(** ** [VerifyTotalOrder] *)

Section VerifyTotalOrderFacts.
Import MachineInt Syncer Simulation.
Implicit Types (st : store) (m : PeerTotalOrder) (l : list (ValidatorID * loc)).

(** The loops over the map are folds over its entries, in the order in
    which the map yields them. *)

(** **** The common length *)

Lemma shorter_fold st : forall l (M : Z),
  (forall v p, (v, p) ∈ l -> is_Some (st !! p)) ->
  exists L, foldr (uncurry (shorter st)) (Return M) l = Return L /\
    L <= M /\
    (forall v p r, (v, p) ∈ l -> st !! p = Some r ->
                   L <= Z.of_nat (length (hashList r))) /\
    (L = M \/ exists v p r, (v, p) ∈ l /\ st !! p = Some r /\
                            L = Z.of_nat (length (hashList r))).
Proof.
  induction l as [|[v p] l IH]; intros M Hval.
  - exists M. cbn. split; [reflexivity|]. split; [lia|]. split.
    + intros v p r Hin. now apply elem_of_nil in Hin.
    + now left.
  - destruct (IH M) as (L & HL & HLM & Hmin & Hatt).
    { intros v' p' Hin. apply (Hval v' p'). now right. }
    destruct (Hval v p ltac:(left)) as [r Hr].
    cbn [foldr uncurry]. rewrite HL. cbn [shorter]. rewrite Hr.
    destruct (Z.ltb_spec (Z.of_nat (length (hashList r))) L) as [Hlt|Hge].
    + eexists. split; [reflexivity|]. split; [lia|]. split.
      * intros v' p' r' Hin Hr'. apply elem_of_cons in Hin as [[= -> ->]|Hin].
        -- assert (r' = r) by congruence. subst. lia.
        -- specialize (Hmin _ _ _ Hin Hr'). lia.
      * right. exists v, p, r. split; [left|]. now split.
    + exists L. split; [reflexivity|]. split; [lia|]. split.
      * intros v' p' r' Hin Hr'. apply elem_of_cons in Hin as [[= -> ->]|Hin].
        -- assert (r' = r) by congruence. subst. lia.
        -- exact (Hmin _ _ _ Hin Hr').
      * destruct Hatt as [->|(v' & p' & r' & Hin & Hr' & HL')]; [now left|].
        right. exists v', p', r'. split; [now right|]. now split.
Qed.

(** **** The comparison with the caller's list *)

Lemma differs_fold st (i : nat) (hash : Common.Hash) : forall l (e : bool),
  (forall v p, (v, p) ∈ l ->
     exists r h, st !! p = Some r /\ hashList r !! i = Some h) ->
  exists e', foldr (uncurry (differs st i hash)) (Return e) l = Return e' /\
    (e' = true <->
     e = true \/
     exists v p r h, (v, p) ∈ l /\ st !! p = Some r /\
                     hashList r !! i = Some h /\ h <> hash).
Proof.
  induction l as [|[v p] l IH]; intros e Hval.
  - exists e. cbn. split; [reflexivity|]. split; [now left|].
    intros [H|(v & p & r & h & Hin & _)]; [exact H|].
    now apply elem_of_nil in Hin.
  - destruct (IH e) as (e1 & He1 & Hiff).
    { intros v' p' Hin. apply (Hval v' p'). now right. }
    destruct (Hval v p ltac:(left)) as (r & h & Hr & Hh).
    cbn [foldr uncurry]. rewrite He1. cbn [differs]. rewrite Hr, Hh.
    eexists. split; [reflexivity|].
    destruct (Z.eqb_spec h hash) as [Heq|Hne]; cbn [negb].
    + rewrite Hiff. split.
      * intros [H|(v' & p' & r' & h' & Hin & Hx)]; [now left|].
        right. exists v', p', r', h'. split; [now right | exact Hx].
      * intros [H|(v' & p' & r' & h' & Hin & Hr' & Hh' & Hne)]; [now left|].
        apply elem_of_cons in Hin as [[= -> ->]|Hin].
        -- congruence.
        -- right. exists v', p', r', h'. now repeat split.
    + split; [|reflexivity]. intros _. right.
      exists v, p, r, h. split; [left|]. now repeat split.
Qed.


Lemma verifyFrom_spec (id : Z) m st : forall (n i : nat) (e : bool),
  is_Some (m !! id) ->
  (forall j, (i <= j < i + n)%nat -> allHave m st j) ->
  exists e', verifyFrom n i id m st e = Return e' /\
    (e' = true <->
     e = true \/ exists j, (i <= j < i + n)%nat /\ mismatch id m st j).
Proof.
  induction n as [|n IH]; intros i e Hid Hall.
  - exists e. split; [reflexivity|]. split; [now left|].
    intros [H|(j & Hj & _)]; [exact H | lia].
  - cbn [verifyFrom].
    destruct Hid as [pid Hpid].
    destruct (Hall i ltac:(lia) id pid Hpid) as (rid & hash & Hrid & Hhash).
    assert (Hat : hashAt id m st i = Some hash).
    { unfold hashAt. now rewrite Hpid, Hrid. }
    rewrite Hat, map_fold_foldr.
    destruct (differs_fold st i hash (map_to_list m) e) as (e1 & He1 & Hiff1).
    { intros v p Hin. apply elem_of_map_to_list in Hin. exact (Hall i ltac:(lia) v p Hin). }
    rewrite He1.
    destruct (IH (S i) e1 ltac:(eauto)) as (e2 & He2 & Hiff2).
    { intros j Hj. apply Hall. lia. }
    exists e2. split; [exact He2|]. rewrite Hiff2, Hiff1. split.
    + intros [[H|(v & p & r & h & Hin & Hr & Hh & Hne)]|(j & Hj & Hm)].
      * now left.
      * right. exists i. split; [lia|]. exists v, p, r, h, hash.
        apply elem_of_map_to_list in Hin. now repeat split.
      * right. exists j. split; [lia | exact Hm].
    + intros [H|(j & Hj & Hm)]; [now left; left|].
      destruct (Nat.eq_dec j i) as [->|Hne].
      * left. right. destruct Hm as (v & p & r & h & hash' & Hv & Hr & Hh & Hat' & Hd).
        exists v, p, r, h. split; [now apply elem_of_map_to_list|].
        repeat split; try assumption. congruence.
      * right. exists j. split; [lia | exact Hm].
Qed.

(** **** Dropping the verified prefix *)

Lemma dropVerified_fold m (L : nat) : forall l st,
  NoDup (l.*2) ->
  (forall v p, (v, p) ∈ l ->
     m !! v = Some p /\
     exists r, st !! p = Some r /\ (L <= length (hashList r))%nat) ->
  exists st', foldr (uncurry (dropVerified m L)) (Return st) l = Return st' /\
    (forall v p r, (v, p) ∈ l -> st !! p = Some r ->
       st' !! p = Some (set_hashList (drop L (hashList r)) r)) /\
    (forall q, q ∉ l.*2 -> st' !! q = st !! q).
Proof.
  induction l as [|[v p] l IH]; intros st Hnd Hval.
  - exists st. split; [reflexivity|]. split; [|reflexivity].
    intros v p r Hin. now apply elem_of_nil in Hin.
  - cbn [fmap list_fmap snd] in Hnd. apply NoDup_cons in Hnd as [Hnotin Hnd].
    destruct (IH st Hnd) as (st1 & Hst1 & Hupd & Hkeep).
    { intros v' p' Hin. apply Hval. now right. }
    destruct (Hval v p ltac:(left)) as (Hv & r & Hr & Hlen).
    cbn [foldr uncurry]. rewrite Hst1. cbn [dropVerified].
    rewrite Hv, (Hkeep p Hnotin), Hr.
    destruct (Nat.leb_spec L (length (hashList r))) as [_|?]; [|lia].
    eexists. split; [reflexivity|]. split.
    + intros v' p' r' Hin Hr'. apply elem_of_cons in Hin as [[= -> ->]|Hin].
      * rewrite lookup_insert_eq. congruence.
      * assert (p' <> p).
        { intros ->. apply Hnotin. apply list_elem_of_fmap. now exists (v', p). }
        rewrite lookup_insert_ne by congruence. now apply (Hupd v').
    + intros q Hq. cbn [fmap list_fmap snd] in Hq.
      apply not_elem_of_cons in Hq as [Hqp Hq].
      rewrite lookup_insert_ne by congruence. now apply Hkeep.
Qed.

Lemma unaliased_NoDup m :
  (forall v1 v2 p, m !! v1 = Some p -> m !! v2 = Some p -> v1 = v2) ->
  NoDup ((map_to_list m).*2).
Proof.
  intros Hinj. apply NoDup_fmap_2_strong; [|apply NoDup_map_to_list].
  intros [v1 p1] [v2 p2] H1 H2 Heq. cbn in Heq. subst p2.
  apply elem_of_map_to_list in H1, H2. now rewrite (Hinj v1 v2 p1).
Qed.


Lemma set_hashList_drop_0 (r : TotalOrderResult) :
  set_hashList (drop 0 (hashList r)) r = r.
Proof. now destruct r. Qed.

Lemma no_mismatch_iff (id : Z) m st (j : nat) :
  is_Some (m !! id) -> allHave m st j ->
  ~ mismatch id m st j <->
  (forall v p r, m !! v = Some p -> st !! p = Some r ->
                 hashList r !! j = hashAt id m st j).
Proof.
  intros [pid Hpid] Hall.
  destruct (Hall id pid Hpid) as (rid & hash & Hrid & Hhash).
  assert (Hat : hashAt id m st j = Some hash).
  { unfold hashAt. now rewrite Hpid, Hrid. }
  split.
  - intros Hno v p r Hv Hr.
    destruct (Hall v p Hv) as (r' & h & Hr' & Hh).
    assert (r' = r) by congruence. subst r'.
    rewrite Hh, Hat. f_equal.
    destruct (Z.eq_dec h hash) as [Heq|Hne]; [exact Heq|].
    exfalso. apply Hno. exists v, p, r, h, hash. now repeat split.
  - intros Heq (v & p & r & h & hash' & Hv & Hr & Hh & Hat' & Hne).
    specialize (Heq v p r Hv Hr). congruence.
Qed.

(** C9 (amended). VerifyTotalOrder, on a map that has an entry for the
    calling peer and in which every peer has a result object of its own:
    the length returned is the smallest length of the peers' hash lists,
    or math.MaxInt32, the value the search for the minimum starts from,
    when every list is longer; correct is true exactly when, at every
    index below that length, every peer's hash is the calling peer's;
    and every peer's hash list is afterwards what it was without its
    first length entries, the peer's other fields and the rest of the
    store being as they were. *)
Theorem VerifyTotalOrder_common_prefix (id : Z) m st :
  is_Some (m !! id) ->
  (forall v p, m !! v = Some p -> is_Some (st !! p)) ->
  (forall v1 v2 p, m !! v1 = Some p -> m !! v2 = Some p -> v1 = v2) ->
  exists st' correct L,
    VerifyTotalOrder id m st = Return (st', correct, L) /\
    0 <= L <= MaxInt32 /\
    (forall v p r, m !! v = Some p -> st !! p = Some r ->
                   L <= Z.of_nat (length (hashList r))) /\
    (L = MaxInt32 \/
     exists v p r, m !! v = Some p /\ st !! p = Some r /\
                   L = Z.of_nat (length (hashList r))) /\
    (correct = true <->
     forall j : nat, Z.of_nat j < L ->
       forall v p r, m !! v = Some p -> st !! p = Some r ->
                     hashList r !! j = hashAt id m st j) /\
    (forall v p r, m !! v = Some p -> st !! p = Some r ->
       exists r', st' !! p = Some r' /\
         hashList r' = drop (Z.to_nat L) (hashList r) /\
         validatorID r' = validatorID r /\ curID r' = curID r) /\
    (forall q, (forall v, m !! v <> Some q) -> st' !! q = st !! q).
Proof.
  intros Hid Hval Hinj.
  (* the common length *)
  destruct (shorter_fold st (map_to_list m) MaxInt32) as (L & HL & HLM & Hmin & Hatt).
  { intros v p Hin. apply elem_of_map_to_list in Hin. exact (Hval v p Hin). }
  assert (Hmin' : forall v p r, m !! v = Some p -> st !! p = Some r ->
                    L <= Z.of_nat (length (hashList r))).
  { intros v p r Hv Hr. apply (Hmin v p r); [|exact Hr].
    now apply elem_of_map_to_list. }
  assert (Hatt' : L = MaxInt32 \/
                  exists v p r, m !! v = Some p /\ st !! p = Some r /\
                    L = Z.of_nat (length (hashList r))).
  { destruct Hatt as [->|(v & p & r & Hin & Hr & HLr)]; [now left|].
    right. exists v, p, r. apply elem_of_map_to_list in Hin. now repeat split. }
  assert (HL0 : 0 <= L).
  { destruct Hatt' as [->|(v & p & r & _ & _ & ->)]; [discriminate | lia]. }
  (* the comparison *)
  assert (Hhave : forall j, (0 <= j < 0 + Z.to_nat L)%nat -> allHave m st j).
  { intros j Hj v p Hv. destruct (Hval v p Hv) as (r & Hr).
    specialize (Hmin' v p r Hv Hr).
    destruct (lookup_lt_is_Some_2 (hashList r) j ltac:(lia)) as [h Hh].
    now exists r, h. }
  destruct (verifyFrom_spec id m st (Z.to_nat L) 0 false Hid Hhave)
    as (e & He & Hiff).
  assert (Hcorrect : negb e = true <->
            forall j : nat, Z.of_nat j < L ->
              forall v p r, m !! v = Some p -> st !! p = Some r ->
                            hashList r !! j = hashAt id m st j).
  { rewrite negb_true_iff, <- not_true_iff_false, Hiff. split.
    - intros Hno j Hj. apply no_mismatch_iff; [assumption | apply Hhave; lia |].
      intros Hm. apply Hno. right. exists j. split; [lia | exact Hm].
    - intros Hall [H|(j & Hj & Hm)]; [discriminate|].
      revert Hm. apply no_mismatch_iff; [assumption | apply Hhave; lia |].
      apply Hall. lia. }
  unfold VerifyTotalOrder, commonLength. rewrite map_fold_foldr, HL, He.
  destruct (Z.ltb_spec 0 L) as [Hpos|Hzero].
  - (* the verified prefix is dropped *)
    rewrite map_fold_foldr.
    destruct (dropVerified_fold m (Z.to_nat L) (map_to_list m) st)
      as (st' & Hst' & Hupd & Hkeep).
    { now apply unaliased_NoDup. }
    { intros v p Hin. apply elem_of_map_to_list in Hin. split; [exact Hin|].
      destruct (Hval v p Hin) as (r & Hr). exists r. split; [exact Hr|].
      specialize (Hmin' v p r Hin Hr). lia. }
    rewrite Hst'. exists st', (negb e), L. split; [reflexivity|].
    split; [lia|].
    split; [exact Hmin'|]. split; [exact Hatt'|]. split; [exact Hcorrect|]. split.
    + intros v p r Hv Hr. eexists. split.
      * apply (Hupd v p r); [now apply elem_of_map_to_list | exact Hr].
      * now repeat split.
    + intros q Hq. apply Hkeep. intros Hin.
      apply list_elem_of_fmap in Hin as ([v p] & -> & Hin).
      apply elem_of_map_to_list in Hin. exact (Hq v Hin).
  - (* nothing to drop *)
    assert (L = 0) by lia. subst L.
    exists st, (negb e), 0. split; [reflexivity|].
    split; [lia|].
    split; [exact Hmin'|]. split; [exact Hatt'|]. split; [exact Hcorrect|]. split.
    + intros v p r Hv Hr. exists r. now repeat split.
    + reflexivity.
Qed.

End VerifyTotalOrderFacts.


(** *** [VerifyTotalOrder] on concrete peers *)

Section VerifyTotalOrderExamples.
Import MachineInt Syncer Simulation.

Lemma threePeers_entries v p :
  threePeers !! v = Some p ->
  (v, p) = (1, 1%positive) \/ (v, p) = (2, 2%positive) \/ (v, p) = (3, 3%positive).
Proof.
  intros H. apply elem_of_map_to_list in H.
  assert (Hl : map_to_list threePeers = [(3, 3%positive); (2, 2%positive); (1, 1%positive)])
    by (vm_compute; reflexivity).
  rewrite Hl in H.
  repeat (apply elem_of_cons in H as [H|H]; [auto|]).
  now apply elem_of_nil in H.
Qed.

Lemma VerifyTotalOrder_common_prefix_witness :
  exists st' correct L,
    VerifyTotalOrder 1 threePeers agreeing = Return (st', correct, L) /\
    0 <= L <= MaxInt32 /\
    (forall v p r, threePeers !! v = Some p -> agreeing !! p = Some r ->
                   L <= Z.of_nat (length (hashList r))) /\
    (L = MaxInt32 \/
     exists v p r, threePeers !! v = Some p /\ agreeing !! p = Some r /\
                   L = Z.of_nat (length (hashList r))) /\
    (correct = true <->
     forall j : nat, Z.of_nat j < L ->
       forall v p r, threePeers !! v = Some p -> agreeing !! p = Some r ->
                     hashList r !! j = hashAt 1 threePeers agreeing j) /\
    (forall v p r, threePeers !! v = Some p -> agreeing !! p = Some r ->
       exists r', st' !! p = Some r' /\
         hashList r' = drop (Z.to_nat L) (hashList r) /\
         validatorID r' = validatorID r /\ curID r' = curID r) /\
    (forall q, (forall v, threePeers !! v <> Some q) -> st' !! q = agreeing !! q).
Proof.
  apply (VerifyTotalOrder_common_prefix 1 threePeers agreeing).
  - vm_compute. eexists. reflexivity.
  - intros v p H.
    destruct (threePeers_entries v p H) as [[= -> ->]|[[= -> ->]|[= -> ->]]];
      vm_compute; eexists; reflexivity.
  - intros v1 v2 p H1 H2.
    destruct (threePeers_entries v1 p H1) as [[= -> ->]|[[= -> ->]|[= -> ->]]];
      destruct (threePeers_entries v2 _ H2) as [[= ->]|[[= ->]|[= ->]]];
      reflexivity.
Defined.

(** The common prefix has length 2; the peers agree on it and it is
    dropped from the three lists. *)
Example VerifyTotalOrder_agreeing :
  VerifyTotalOrder 1 threePeers agreeing =
  Return ({[ 1%positive := mkTotalOrderResult 1 [13] 3;
             2%positive := mkTotalOrderResult 2 [] 2;
             3%positive := mkTotalOrderResult 3 [13; 14] 4 ]}, true, 2).
Proof. vm_compute. reflexivity. Qed.

(** Peer 3 differs at index 1: the answer is false, the prefix is dropped
    all the same. *)
Example VerifyTotalOrder_disagreeing :
  VerifyTotalOrder 1 threePeers disagreeing =
  Return ({[ 1%positive := mkTotalOrderResult 1 [13] 3;
             2%positive := mkTotalOrderResult 2 [] 2;
             3%positive := mkTotalOrderResult 3 [13; 14] 4 ]}, false, 2).
Proof. vm_compute. reflexivity. Qed.

(** Two peers that share one result object: the shared list is cut twice,
    and the second cut is out of range. *)
Example VerifyTotalOrder_aliased :
  VerifyTotalOrder 1 aliased agreeing = Panic.
Proof. vm_compute. reflexivity. Qed.

End VerifyTotalOrderExamples.


(** ** The syncer, continued *)

Section SyncerMoreFacts.
Import MachineInt Types Syncer SyncerMore TypesMore.
Context {Lattice : Type}.
Implicit Types (con : Consensus Lattice) (cfgs : list Config).
Implicit Types (d : gmap Z Block).

(** *** [isConfigChanged] *)

Lemma f32_eq_sym (a b : float32) : f32_eq a b = f32_eq b a.
Proof.
  unfold f32_eq. rewrite (Z.eqb_sym (Float32bits a)).
  destruct (f32_isNaN a), (f32_isNaN b), (f32_isZero a), (f32_isZero b);
    reflexivity.
Qed.

Lemma f32_eq_NaN (a b : float32) :
  f32_isNaN a = true -> f32_eq a b = false.
Proof. unfold f32_eq. now intros ->. Qed.

Lemma f32_eq_refl (a : float32) : f32_eq a a = negb (f32_isNaN a).
Proof.
  unfold f32_eq. rewrite Z.eqb_refl, orb_true_r, andb_true_r.
  now destruct (f32_isNaN a).
Qed.

(** X3. isConfigChanged does not depend on the order of its arguments. *)
Theorem isConfigChanged_sym (prev cur : Config) :
  isConfigChanged prev cur = isConfigChanged cur prev.
Proof.
  unfold isConfigChanged.
  now rewrite (Z.eqb_sym (K prev)), (Z.eqb_sym (NumChains prev)), f32_eq_sym.
Qed.

(** X4. A configuration whose PhiRatio is NaN counts as changed against
    every configuration, itself included; any other configuration is
    unchanged against itself. *)
Theorem isConfigChanged_NaN (c other : Config) :
  (f32_isNaN (PhiRatio c) = true ->
   isConfigChanged c other = true /\ isConfigChanged other c = true) /\
  isConfigChanged c c = f32_isNaN (PhiRatio c).
Proof.
  split.
  - intros HN. unfold isConfigChanged.
    rewrite (f32_eq_sym (PhiRatio other)), (f32_eq_NaN _ _ HN). cbn.
    split; apply orb_true_r.
  - unfold isConfigChanged. rewrite !Z.eqb_refl, f32_eq_refl. cbn.
    apply negb_involutive.
Qed.

Lemma isConfigChanged_NaN_witness :
  isConfigChanged (set_PhiRatio f32_NaN sample) sample = true /\
  isConfigChanged sample (set_PhiRatio f32_NaN sample) = true.
Proof.
  apply (proj1 (isConfigChanged_NaN (set_PhiRatio f32_NaN sample) sample)).
  vm_compute. reflexivity.
Defined.

(** *** [findLatticeSyncBlock]: the search for a safe round *)

Lemma stable_safe_round cfgs r :
  stableAt cfgs r ->
  sameAsPrevRound cfgs r = Some true /\ sameAsNextRound cfgs r = Some true.
Proof.
  intros (c & n & Hc & Hn & Hcn & Hprev). split.
  - destruct r as [|p]; [reflexivity|]. cbn [sameAsPrevRound].
    destruct Hprev as [?|(q & Hq & Hqc)]; [discriminate|].
    cbn [pred] in Hq. now rewrite Hq, Hc, Hqc.
  - unfold sameAsNextRound. now rewrite Hc, Hn, Hcn.
Qed.

Lemma sameAsNextRound_length cfgs r :
  is_Some (sameAsNextRound cfgs r) -> (S r < length cfgs)%nat.
Proof.
  unfold sameAsNextRound. intros [v Hv].
  destruct (cfgs !! r); [|discriminate].
  destruct (cfgs !! S r) eqn:E; [|discriminate].
  eapply lookup_lt_Some. exact E.
Qed.

(** X5. The search for a safe round returns round r exactly when r is
    the greatest stable round at or below the starting round and the
    configurations reach one round past the starting round. *)
Theorem findSafeRound_greatest cfgs round r :
  findSafeRound cfgs round = Return (Some r) <->
  (r <= round)%nat /\ (S round < length cfgs)%nat /\ stableAt cfgs r /\
  forall r', (r < r' <= round)%nat -> ~ stableAt cfgs r'.
Proof.
  induction round as [|round IH]; rewrite findSafeRound_eq.
  - split.
    + destruct (sameAsPrevRound cfgs 0) as [p|] eqn:Hp; [|discriminate].
      destruct (sameAsNextRound cfgs 0) as [n|] eqn:Hn; [|discriminate].
      destruct p, n; cbn [andb]; try discriminate.
      intros [= <-]. repeat apply conj.
      * lia.
      * apply sameAsNextRound_length. now rewrite Hn.
      * now apply safe_round_stable.
      * intros r' Hr'. lia.
    + intros (Hle & Hlen & Hst & _). assert (r = 0%nat) as -> by lia.
      destruct (stable_safe_round _ _ Hst) as [-> ->]. reflexivity.
  - split.
    + destruct (sameAsPrevRound cfgs (S round)) as [p|] eqn:Hp; [|discriminate].
      destruct (sameAsNextRound cfgs (S round)) as [n|] eqn:Hn; [|discriminate].
      assert (Hlen : (S (S round) < length cfgs)%nat).
      { apply sameAsNextRound_length. now rewrite Hn. }
      destruct (p && n) eqn:Hpn.
      * apply andb_true_iff in Hpn as [-> ->]. intros [= <-].
        repeat apply conj; try lia. now apply safe_round_stable.
      * intros H. apply IH in H as (Hle & _ & Hst & Hmax).
        repeat apply conj; try lia; [assumption|].
        intros r' Hr' Hst'.
        destruct (Nat.eq_dec r' (S round)) as [->|Hne].
        -- destruct (stable_safe_round _ _ Hst') as [Hp' Hn'].
           rewrite Hp in Hp'. rewrite Hn in Hn'.
           injection Hp' as ->. injection Hn' as ->. discriminate.
        -- apply (Hmax r'); [lia | assumption].
    + intros (Hle & Hlen & Hst & Hmax).
      destruct (Nat.eq_dec r (S round)) as [->|Hne].
      * destruct (stable_safe_round _ _ Hst) as [-> ->]. reflexivity.
      * destruct (sameAsPrevRound_defined cfgs (S round) ltac:(lia)) as [p Hp].
        destruct (sameAsNextRound_defined cfgs (S round) ltac:(lia)) as [n Hn].
        rewrite Hp, Hn.
        destruct (p && n) eqn:Hpn.
        -- apply andb_true_iff in Hpn as [-> ->]. exfalso.
           apply (Hmax (S round)); [lia|]. now apply safe_round_stable.
        -- apply IH. repeat apply conj; try lia; [assumption|].
           intros r' Hr'. apply Hmax. lia.
Qed.

(** X6. The search for a safe round panics exactly when the
    configurations do not reach one round past the starting round. *)
Theorem findSafeRound_panics cfgs round :
  findSafeRound cfgs round = Panic <-> (length cfgs <= S round)%nat.
Proof.
  split.
  - intros H. destruct (Nat.le_gt_cases (length cfgs) (S round)) as [|Hlt];
      [assumption|exfalso].
    revert H. induction round as [|round IH]; rewrite findSafeRound_eq.
    + destruct (sameAsPrevRound_defined cfgs 0 ltac:(lia)) as [p ->].
      destruct (sameAsNextRound_defined cfgs 0 ltac:(lia)) as [n ->].
      now destruct (p && n).
    + destruct (sameAsPrevRound_defined cfgs (S round) ltac:(lia)) as [p ->].
      destruct (sameAsNextRound_defined cfgs (S round) ltac:(lia)) as [n ->].
      destruct (p && n); [discriminate|]. apply IH. lia.
  - intros Hle. rewrite findSafeRound_eq.
    destruct (sameAsNextRound cfgs round) as [n|] eqn:Hn.
    + assert (S round < length cfgs)%nat; [|lia].
      apply sameAsNextRound_length. now rewrite Hn.
    + now destruct (sameAsPrevRound cfgs round).
Qed.

(** A round that the search returns is returned again when the search
    starts from it. *)
Lemma findSafeRound_again cfgs round r :
  findSafeRound cfgs round = Return (Some r) ->
  findSafeRound cfgs r = Return (Some r).
Proof.
  intros H. apply findSafeRound_Some in H as [_ Hst].
  destruct (stable_safe_round _ _ Hst) as [Hp Hn].
  rewrite findSafeRound_eq, Hp, Hn. reflexivity.
Qed.

End SyncerMoreFacts.


(** *** [findLatticeSyncBlock]: the walks over the compaction chain *)

Section SyncBlockFacts.
Import MachineInt Types Syncer SyncerMore.
Context {Lattice : Type}.
Implicit Types (con : Consensus Lattice) (cfgs : list Config).
Implicit Types (d : gmap Z Block).

(** More fuel does not change what a walk returns, and no walk panics. *)
Lemma oldestInRound_mono d round :
  forall f f' b r, oldestInRound f d b round = Return r -> (f <= f')%nat ->
                   oldestInRound f' d b round = Return r.
Proof.
  induction f as [|f IH]; intros f' b r H Hle.
  - cbn [oldestInRound] in H.
    destruct (Round (BlockPosition b) =? round)%nat eqn:E; [|discriminate].
    destruct f'; cbn [oldestInRound]; now rewrite E.
  - destruct f' as [|f']; [lia|]. cbn [oldestInRound] in H |- *.
    destruct (Round (BlockPosition b) =? round)%nat; [exact H|].
    destruct (FinalizationParentHash b =? Common.zeroHash); [exact H|].
    destruct (d !! FinalizationParentHash b); [|exact H].
    apply IH; [exact H | lia].
Qed.

Lemma oldestInRound_no_panic d round :
  forall f b, oldestInRound f d b round <> Panic.
Proof.
  induction f as [|f IH]; intros b; cbn [oldestInRound];
    destruct (Round (BlockPosition b) =? round)%nat; try discriminate.
  destruct (FinalizationParentHash b =? Common.zeroHash); [discriminate|].
  destruct (d !! FinalizationParentHash b); [apply IH | discriminate].
Qed.

Lemma deliverSetLast_mono d :
  forall f f' b r, deliverSetLast f d b = Return r -> (f <= f')%nat ->
                   deliverSetLast f' d b = Return r.
Proof.
  induction f as [|f IH]; intros f' b r H Hle; [discriminate|].
  destruct f' as [|f']; [lia|]. cbn [deliverSetLast] in H |- *.
  destruct (FinalizationParentHash b =? Common.zeroHash); [exact H|].
  destruct (d !! FinalizationParentHash b) as [p|]; [|exact H].
  destruct (negb (Common.Less (Hash p) (Hash b))); [exact H|].
  apply IH; [exact H | lia].
Qed.

Lemma deliverSetLast_no_panic d :
  forall f b, deliverSetLast f d b <> Panic.
Proof.
  induction f as [|f IH]; intros b; cbn [deliverSetLast]; [discriminate|].
  destruct (FinalizationParentHash b =? Common.zeroHash); [discriminate|].
  destruct (d !! FinalizationParentHash b) as [p|]; [|discriminate].
  destruct (negb (Common.Less (Hash p) (Hash b))); [discriminate | apply IH].
Qed.

Lemma deliverSetFirst_mono d :
  forall f f' b r, deliverSetFirst f d b = Return r -> (f <= f')%nat ->
                   deliverSetFirst f' d b = Return r.
Proof.
  induction f as [|f IH]; intros f' b r H Hle; [discriminate|].
  destruct f' as [|f']; [lia|]. cbn [deliverSetFirst] in H |- *.
  destruct (FinalizationParentHash b =? Common.zeroHash); [exact H|].
  destruct (d !! FinalizationParentHash b) as [p|]; [|exact H].
  destruct (negb (Common.Less (Hash p) (Hash b))); [exact H|].
  apply IH; [exact H | lia].
Qed.

Lemma deliverSetFirst_no_panic d :
  forall f b, deliverSetFirst f d b <> Panic.
Proof.
  induction f as [|f IH]; intros b; cbn [deliverSetFirst]; [discriminate|].
  destruct (FinalizationParentHash b =? Common.zeroHash); [discriminate|].
  destruct (d !! FinalizationParentHash b) as [p|]; [|discriminate].
  destruct (negb (Common.Less (Hash p) (Hash b))); [discriminate | apply IH].
Qed.

Lemma sameRoundCheck_mono d round h :
  forall f f' b r, sameRoundCheck f d round h b = Return r -> (f <= f')%nat ->
                   sameRoundCheck f' d round h b = Return r.
Proof.
  induction f as [|f IH]; intros f' b r H Hle; [discriminate|].
  destruct f' as [|f']; [lia|]. cbn [sameRoundCheck] in H |- *.
  destruct (negb (Round (BlockPosition b) =? round)%nat); [exact H|].
  destruct (d !! FinalizationParentHash b) as [p|]; [|exact H].
  destruct (Hash p =? h); [exact H|].
  apply IH; [exact H | lia].
Qed.

Lemma sameRoundCheck_no_panic d round h :
  forall f b, sameRoundCheck f d round h b <> Panic.
Proof.
  induction f as [|f IH]; intros b; cbn [sameRoundCheck]; [discriminate|].
  destruct (negb (Round (BlockPosition b) =? round)%nat); [discriminate|].
  destruct (d !! FinalizationParentHash b) as [p|]; [|discriminate].
  destruct (Hash p =? h); [discriminate | apply IH].
Qed.

(** A walk that returns with some fuel returns the same, or is still
    under way, with any other fuel. *)
Lemma fuel_agree {A : Type} (F : nat -> outcome A) :
  (forall f f' r, F f = Return r -> (f <= f')%nat -> F f' = Return r) ->
  (forall f, F f <> Panic) ->
  forall f r, F f = Return r ->
  forall f', F f' = Return r \/ F f' = OutOfFuel.
Proof.
  intros Hmono Hnp f r Hf f'.
  destruct (F f') as [a| |] eqn:E.
  - left. destruct (Nat.le_ge_cases f f') as [Hle|Hle].
    + rewrite <- E. now apply (Hmono f).
    + pose proof (Hmono f' f a E Hle) as H'. congruence.
  - now destruct (Hnp f').
  - now right.
Qed.

(** What the walks return. *)
Lemma oldestInRound_reach d round :
  forall f b b', oldestInRound f d b round = Return (inl b') ->
                 rtc (parentOf d) b b' /\ Round (BlockPosition b') = round.
Proof.
  induction f as [|f IH]; intros b b'; cbn [oldestInRound];
    destruct (Nat.eqb_spec (Round (BlockPosition b)) round) as [Heq|Hne];
    try discriminate;
    try (intros [= <-]; split; [apply rtc_refl | exact Heq]).
  destruct (FinalizationParentHash b =? Common.zeroHash); [discriminate|].
  destruct (d !! FinalizationParentHash b) as [p|] eqn:Hp; [|discriminate].
  intros H. destruct (IH p b' H) as [Hr Hround]. split; [|exact Hround].
  eapply rtc_l; [exact Hp | exact Hr].
Qed.

Lemma oldestInRound_here d round f b :
  Round (BlockPosition b) = round ->
  oldestInRound f d b round = Return (inl b).
Proof.
  intros H. destruct f; cbn [oldestInRound];
    destruct (Nat.eqb_spec (Round (BlockPosition b)) round); congruence.
Qed.

Lemma deliverSetLast_reach d :
  forall f b l, deliverSetLast f d b = Return (inl l) ->
  exists cur, rtc (parentOf d) b cur /\ parentOf d cur l /\
              Common.Less (Hash l) (Hash cur) = false.
Proof.
  induction f as [|f IH]; intros b l; cbn [deliverSetLast]; [discriminate|].
  destruct (FinalizationParentHash b =? Common.zeroHash); [discriminate|].
  destruct (d !! FinalizationParentHash b) as [p|] eqn:Hp; [|discriminate].
  destruct (Common.Less (Hash p) (Hash b)) eqn:Hless; cbn [negb].
  - intros H. destruct (IH p l H) as (cur & Hr & Hpar & Hcut).
    exists cur. split; [|now split]. eapply rtc_l; [exact Hp | exact Hr].
  - intros [= <-]. exists b. split; [apply rtc_refl | now split].
Qed.

Lemma deliverSetFirst_reach d :
  forall f l s, deliverSetFirst f d l = Return (inl s) ->
  rtc (parentOf d) l s /\ startsDeliverSet d s /\
  (l = s \/ exists c, parentOf d c s /\ Common.Less (Hash s) (Hash c) = true).
Proof.
  induction f as [|f IH]; intros l s; cbn [deliverSetFirst]; [discriminate|].
  destruct (Z.eqb_spec (FinalizationParentHash l) Common.zeroHash) as [Hz|Hnz].
  { intros [= <-]. split; [apply rtc_refl|]. split; [now left | now left]. }
  destruct (d !! FinalizationParentHash l) as [p|] eqn:Hp; [|discriminate].
  destruct (Common.Less (Hash p) (Hash l)) eqn:Hless; cbn [negb].
  - intros H. destruct (IH p s H) as (Hr & Hstart & Hchild).
    split; [eapply rtc_l; [exact Hp | exact Hr]|]. split; [exact Hstart|].
    right. destruct Hchild as [<-|Hc]; [|exact Hc]. now exists l.
  - intros [= <-]. split; [apply rtc_refl|]. split; [|now left].
    right. now exists p.
Qed.

Lemma sameRoundCheck_true d round h :
  forall f l, sameRoundCheck f d round h l = Return (inl true) ->
  Round (BlockPosition l) = round /\
  exists b, tc (parentOf d) l b /\ Hash b = h.
Proof.
  induction f as [|f IH]; intros l; cbn [sameRoundCheck]; [discriminate|].
  destruct (Nat.eqb_spec (Round (BlockPosition l)) round) as [Heq|Hne];
    cbn [negb]; [|discriminate].
  destruct (d !! FinalizationParentHash l) as [p|] eqn:Hp; [|discriminate].
  destruct (Z.eqb_spec (Hash p) h) as [Hh|Hh].
  - intros _. split; [exact Heq|]. exists p. split; [|exact Hh].
    now apply tc_once.
  - intros H. destruct (IH p H) as (_ & b & Htc & Hb). split; [exact Heq|].
    exists b. split; [|exact Hb]. eapply tc_l; [exact Hp | exact Htc].
Qed.

(** The block that the second walk stops at starts the next iteration
    exactly where the first one started. *)
Lemma retry_same_start cfgs d fuel (lb lb' : Block) (round : nat) :
  findSafeRound cfgs (Round (BlockPosition lb)) = Return (Some round) ->
  oldestInRound fuel d lb round = Return (inl lb') ->
  findSafeRound cfgs (Round (BlockPosition lb')) = Return (Some round) /\
  forall f, oldestInRound f d lb' round = Return (inl lb').
Proof.
  intros Hs Ho. destruct (oldestInRound_reach _ _ _ _ _ Ho) as [_ Hr].
  split.
  - rewrite Hr. eapply findSafeRound_again. exact Hs.
  - intros f. now apply oldestInRound_here.
Qed.

(** X7. The outer loop of findLatticeSyncBlock gives every result it ever
    gives in its first iteration: the round-- that ends an iteration is
    undone by the round declared anew at the top of the next, which
    repeats the iteration before it. *)
Theorem findLatticeSyncBlock_first_iteration (n fuel : nat) con
    (lastBlock : Block) (r : option Block * option error) :
  findLatticeSyncBlock_loop n fuel con lastBlock = Return r ->
  findLatticeSyncBlock_loop 1 fuel con lastBlock = Return r.
Proof.
  revert lastBlock. induction n as [|n IH]; intros lb; [discriminate|].
  cbn [findLatticeSyncBlock_loop].
  destruct (findSafeRound (configs con) (Round (BlockPosition lb)))
    as [[round|]| |] eqn:Hs; try (intros H; exact H).
  destruct (oldestInRound fuel (db con) lb round) as [[lb'|e]| |] eqn:Ho;
    try (intros H; exact H).
  destruct (deliverSetLast fuel (db con) lb') as [[l|e]| |] eqn:Hl;
    try (intros H; exact H).
  destruct (deliverSetFirst fuel (db con) l) as [[s|e]| |] eqn:Hf;
    try (intros H; exact H).
  destruct (sameRoundCheck fuel (db con) round (Hash s) l)
    as [[[|]|e]| |] eqn:Hc; try (intros H; exact H).
  destruct (round =? 0)%nat eqn:H0; [intros H; exact H|].
  intros H. apply IH in H. exfalso. revert H.
  destruct (retry_same_start _ _ _ _ _ _ Hs Ho) as [Hs' Ho'].
  cbn [findLatticeSyncBlock_loop]. rewrite Hs', Ho', Hl, Hf, Hc, H0.
  discriminate.
Qed.

(** X8. When the blocks from the last block of the deliver set found are
    not all of the safe round, and the safe round is not round 0,
    findLatticeSyncBlock never returns: whatever the fuel, its loop is
    still running. *)
Theorem findLatticeSyncBlock_never_returns con (bs : list Block)
    (lastBlock oldest l s : Block) (round fuel : nat) :
  last bs = Some lastBlock ->
  findSafeRound (configs con) (Round (BlockPosition lastBlock))
    = Return (Some round) ->
  oldestInRound fuel (db con) lastBlock round = Return (inl oldest) ->
  deliverSetLast fuel (db con) oldest = Return (inl l) ->
  deliverSetFirst fuel (db con) l = Return (inl s) ->
  sameRoundCheck fuel (db con) round (Hash s) l = Return (inl false) ->
  round <> 0%nat ->
  forall fuel', findLatticeSyncBlock fuel' con bs = OutOfFuel.
Proof.
  intros Hlast Hs Ho Hl Hf Hc H0 fuel'.
  unfold findLatticeSyncBlock. rewrite Hlast.
  clear Hlast. generalize fuel' at 1. intros n.
  revert lastBlock Hs Ho. induction n as [|n IH]; intros lb Hs Ho;
    [reflexivity|].
  cbn [findLatticeSyncBlock_loop]. rewrite Hs.
  destruct (fuel_agree (fun f => oldestInRound f (db con) lb round)
              (fun f f' r => oldestInRound_mono _ _ f f' lb r)
              (fun f => oldestInRound_no_panic _ _ f lb) _ _ Ho fuel')
    as [-> | ->]; [|reflexivity].
  destruct (fuel_agree (fun f => deliverSetLast f (db con) oldest)
              (fun f f' r => deliverSetLast_mono _ f f' oldest r)
              (fun f => deliverSetLast_no_panic _ f oldest) _ _ Hl fuel')
    as [-> | ->]; [|reflexivity].
  destruct (fuel_agree (fun f => deliverSetFirst f (db con) l)
              (fun f f' r => deliverSetFirst_mono _ f f' l r)
              (fun f => deliverSetFirst_no_panic _ f l) _ _ Hf fuel')
    as [-> | ->]; [|reflexivity].
  destruct (fuel_agree (fun f => sameRoundCheck f (db con) round (Hash s) l)
              (fun f f' r => sameRoundCheck_mono _ _ _ f f' l r)
              (fun f => sameRoundCheck_no_panic _ _ _ f l) _ _ Hc fuel')
    as [-> | ->]; [|reflexivity].
  destruct (Nat.eqb_spec round 0) as [?|_]; [contradiction|].
  destruct (retry_same_start _ _ _ _ _ _ Hs Ho) as [Hs' Ho'].
  apply (IH oldest); [exact Hs' | apply Ho'].
Qed.

(** X9. A block that findLatticeSyncBlock returns lies behind the last
    block on the compaction chain and starts a deliver set; the round of
    the last block of that deliver set is stable and at most the round of
    the last block given. *)
Theorem findLatticeSyncBlock_returns (n fuel : nat) con (lastBlock s : Block) :
  findLatticeSyncBlock_loop n fuel con lastBlock = Return (Some s, None) ->
  tc (parentOf (db con)) lastBlock s /\
  startsDeliverSet (db con) s /\
  exists l, tc (parentOf (db con)) lastBlock l /\
            rtc (parentOf (db con)) l s /\
            (Round (BlockPosition l) <= Round (BlockPosition lastBlock))%nat /\
            stableAt (configs con) (Round (BlockPosition l)).
Proof.
  revert lastBlock. induction n as [|n IH]; intros lb; [discriminate|].
  cbn [findLatticeSyncBlock_loop].
  destruct (findSafeRound (configs con) (Round (BlockPosition lb)))
    as [[round|]| |] eqn:Hs; try discriminate.
  destruct (oldestInRound fuel (db con) lb round) as [[lb'|e]| |] eqn:Ho;
    try discriminate.
  destruct (deliverSetLast fuel (db con) lb') as [[l|e]| |] eqn:Hl;
    try discriminate.
  destruct (deliverSetFirst fuel (db con) l) as [[s'|e]| |] eqn:Hf;
    try discriminate.
  destruct (sameRoundCheck fuel (db con) round (Hash s') l)
    as [[[|]|e]| |] eqn:Hc; try discriminate.
  - intros [= ->].
    destruct (findSafeRound_Some _ _ _ Hs) as [Hle Hst].
    destruct (oldestInRound_reach _ _ _ _ _ Ho) as [Hr1 _].
    destruct (deliverSetLast_reach _ _ _ _ Hl) as (cur & Hr2 & Hpar & _).
    destruct (deliverSetFirst_reach _ _ _ _ Hf) as (Hr3 & Hstart & _).
    destruct (sameRoundCheck_true _ _ _ _ _ Hc) as [Hround _].
    assert (Htc : tc (parentOf (db con)) lb l).
    { eapply tc_rtc_l; [exact Hr1|]. eapply tc_rtc_l; [exact Hr2|].
      now apply tc_once. }
    split; [eapply tc_rtc_r; [exact Htc | exact Hr3]|].
    split; [exact Hstart|].
    exists l. rewrite Hround. now repeat split.
  - destruct (round =? 0)%nat; [discriminate|]. intros H.
    destruct (IH lb' H) as (Htc & Hstart & l' & Hl' & Hls & Hle & Hst).
    destruct (oldestInRound_reach _ _ _ _ _ Ho) as [Hr1 Hround].
    destruct (findSafeRound_Some _ _ _ Hs) as [Hle' _].
    split; [eapply tc_rtc_l; [exact Hr1 | exact Htc]|].
    split; [exact Hstart|].
    exists l'. split; [eapply tc_rtc_l; [exact Hr1 | exact Hl']|].
    split; [exact Hls|]. split; [lia | exact Hst].
Qed.

Lemma keyed_tc_lower d (a b : Block) :
  heightsDescend d -> keyedByHash d ->
  d !! Hash a = Some a -> tc (parentOf d) a b ->
  d !! Hash b = Some b /\ FinalizationHeight b < FinalizationHeight a.
Proof.
  intros Hdesc Hkey Ha Htc. induction Htc as [x y Hxy|x y z Hxy Hyz IH].
  - pose proof (map_Forall_lookup_1 _ _ _ _ Hdesc Ha) as Hd. cbn in Hd.
    unfold parentOf in Hxy. rewrite Hxy in Hd.
    pose proof (map_Forall_lookup_1 _ _ _ _ Hkey Hxy) as Hk. cbn in Hk.
    split; [|exact Hd]. now rewrite Hk.
  - pose proof (map_Forall_lookup_1 _ _ _ _ Hdesc Ha) as Hd. cbn in Hd.
    unfold parentOf in Hxy. rewrite Hxy in Hd.
    pose proof (map_Forall_lookup_1 _ _ _ _ Hkey Hxy) as Hk. cbn in Hk.
    destruct IH as [Hz Hlt]; [now rewrite Hk|]. split; [exact Hz | lia].
Qed.

(** X10. On a database that keeps every block under its hash and whose
    compaction heights fall from block to parent, findLatticeSyncBlock
    never returns a block that is a deliver set of its own: the block
    returned has a compaction child with a greater hash. *)
Theorem findLatticeSyncBlock_not_single (n fuel : nat) con
    (lastBlock s : Block) :
  keyedByHash (db con) -> heightsDescend (db con) ->
  findLatticeSyncBlock_loop n fuel con lastBlock = Return (Some s, None) ->
  exists c, parentOf (db con) c s /\ Common.Less (Hash s) (Hash c) = true.
Proof.
  intros Hkey Hdesc. revert lastBlock.
  induction n as [|n IH]; intros lb; [discriminate|].
  cbn [findLatticeSyncBlock_loop].
  destruct (findSafeRound (configs con) (Round (BlockPosition lb)))
    as [[round|]| |] eqn:Hs; try discriminate.
  destruct (oldestInRound fuel (db con) lb round) as [[lb'|e]| |] eqn:Ho;
    try discriminate.
  destruct (deliverSetLast fuel (db con) lb') as [[l|e]| |] eqn:Hl;
    try discriminate.
  destruct (deliverSetFirst fuel (db con) l) as [[s'|e]| |] eqn:Hf;
    try discriminate.
  destruct (sameRoundCheck fuel (db con) round (Hash s') l)
    as [[[|]|e]| |] eqn:Hc; try discriminate.
  - intros [= ->].
    destruct (deliverSetFirst_reach _ _ _ _ Hf) as (_ & _ & [Heq|Hchild]);
      [|exact Hchild].
    exfalso. subst s.
    destruct (deliverSetLast_reach _ _ _ _ Hl) as (cur & _ & Hpar & _).
    destruct (sameRoundCheck_true _ _ _ _ _ Hc) as (_ & b & Htc & Hb).
    assert (Hin : db con !! Hash l = Some l).
    { pose proof (map_Forall_lookup_1 _ _ _ _ Hkey Hpar) as Hk. cbn in Hk.
      unfold parentOf in Hpar. now rewrite Hk. }
    destruct (keyed_tc_lower _ _ _ Hdesc Hkey Hin Htc) as [Hbin Hlt].
    rewrite Hb, Hin in Hbin. injection Hbin as <-. lia.
  - destruct (round =? 0)%nat; [discriminate|]. apply IH.
Qed.

(** The first deliver-set walk answers ErrGenesisBlockReached exactly on
    a chain without a cut. *)
Lemma deliverSetLast_rises d (b : Block) :
  risesFromGenesis d b ->
  exists f0, forall f, (f0 <= f)%nat ->
    deliverSetLast f d b = Return (inr ErrGenesisBlockReached).
Proof.
  induction 1 as [b Hz|b p Hnz Hp Hless _ [f0 IH]].
  - exists 1%nat. intros [|f] Hf; [lia|]. cbn [deliverSetLast].
    now rewrite Hz.
  - exists (S f0). intros [|f] Hf; [lia|]. cbn [deliverSetLast].
    destruct (Z.eqb_spec (FinalizationParentHash b) Common.zeroHash);
      [contradiction|].
    unfold parentOf in Hp. rewrite Hp, Hless. cbn [negb]. apply IH. lia.
Qed.

Lemma deliverSetLast_genesis d :
  forall f b, deliverSetLast f d b = Return (inr ErrGenesisBlockReached) ->
              risesFromGenesis d b.
Proof.
  induction f as [|f IH]; intros b; cbn [deliverSetLast]; [discriminate|].
  destruct (Z.eqb_spec (FinalizationParentHash b) Common.zeroHash) as [Hz|Hnz].
  { intros _. now apply rises_genesis. }
  destruct (d !! FinalizationParentHash b) as [p|] eqn:Hp; [|discriminate].
  destruct (Common.Less (Hash p) (Hash b)) eqn:Hless; cbn [negb];
    [|discriminate].
  intros H. eapply rises_step; eauto.
Qed.

(** X11. When the hashes rise from the genesis block all the way up to
    the oldest block of the safe round that the walk from the last block
    stops at, findLatticeSyncBlock answers ErrGenesisBlockReached. *)
Theorem findLatticeSyncBlock_genesis_reached con (bs : list Block)
    (lastBlock oldest : Block) (round fuel0 : nat) :
  last bs = Some lastBlock ->
  findSafeRound (configs con) (Round (BlockPosition lastBlock))
    = Return (Some round) ->
  oldestInRound fuel0 (db con) lastBlock round = Return (inl oldest) ->
  risesFromGenesis (db con) oldest ->
  exists fuel1, forall fuel, (fuel1 <= fuel)%nat ->
    findLatticeSyncBlock fuel con bs
    = Return (None, Some ErrGenesisBlockReached).
Proof.
  intros Hlast Hs Ho Hrise.
  destruct (deliverSetLast_rises _ _ Hrise) as [f0 Hf0].
  exists (S (Nat.max fuel0 f0)). intros fuel Hfuel.
  unfold findLatticeSyncBlock. rewrite Hlast.
  destruct fuel as [|fuel]; [lia|].
  cbn [findLatticeSyncBlock_loop]. rewrite Hs.
  rewrite (oldestInRound_mono _ _ _ (S fuel) _ _ Ho) by lia.
  rewrite Hf0 by lia. reflexivity.
Qed.

End SyncBlockFacts.


(** *** [findLatticeSyncBlock] on concrete compaction chains *)

Section SyncBlockExamples.
Import Types Syncer SyncerMore.

Lemma findLatticeSyncBlock_first_iteration_witness :
  findLatticeSyncBlock_loop 1 8 setsConsensus setsLast
  = Return (Some (blockAt 40 70 0 2), None).
Proof.
  apply (findLatticeSyncBlock_first_iteration 5 8 setsConsensus setsLast).
  vm_compute. reflexivity.
Defined.

Lemma findLatticeSyncBlock_never_returns_witness :
  findLatticeSyncBlock 1000 boundaryConsensus [boundaryLast] = OutOfFuel.
Proof.
  refine (findLatticeSyncBlock_never_returns boundaryConsensus [boundaryLast]
            boundaryLast boundaryLast (blockAt 60 40 0 3) (blockAt 40 70 0 2)
            1 8 _ _ _ _ _ _ _ 1000%nat).
  - reflexivity.
  - vm_compute. reflexivity.
  - vm_compute. reflexivity.
  - vm_compute. reflexivity.
  - vm_compute. reflexivity.
  - vm_compute. reflexivity.
  - lia.
Defined.

Lemma findLatticeSyncBlock_returns_witness :
  tc (parentOf (db setsConsensus)) setsLast (blockAt 40 70 0 2) /\
  startsDeliverSet (db setsConsensus) (blockAt 40 70 0 2) /\
  exists l, tc (parentOf (db setsConsensus)) setsLast l /\
            rtc (parentOf (db setsConsensus)) l (blockAt 40 70 0 2) /\
            (Round (BlockPosition l) <= Round (BlockPosition setsLast))%nat /\
            stableAt (configs setsConsensus) (Round (BlockPosition l)).
Proof.
  apply (findLatticeSyncBlock_returns 8 8 setsConsensus setsLast).
  vm_compute. reflexivity.
Defined.

Lemma findLatticeSyncBlock_not_single_witness :
  exists c, parentOf (db setsConsensus) c (blockAt 40 70 0 2) /\
            Common.Less (Hash (blockAt 40 70 0 2)) (Hash c) = true.
Proof.
  apply (findLatticeSyncBlock_not_single 8 8 setsConsensus setsLast).
  - apply (bool_decide_unpack _). vm_compute. exact I.
  - apply (bool_decide_unpack _). vm_compute. exact I.
  - vm_compute. reflexivity.
Defined.

Lemma findLatticeSyncBlock_genesis_reached_witness :
  exists fuel1, forall fuel, (fuel1 <= fuel)%nat ->
    findLatticeSyncBlock fuel risingConsensus [risingLast]
    = Return (None, Some ErrGenesisBlockReached).
Proof.
  apply (findLatticeSyncBlock_genesis_reached risingConsensus [risingLast]
           risingLast risingLast 0 8).
  - reflexivity.
  - vm_compute. reflexivity.
  - vm_compute. reflexivity.
  - apply (rises_step _ risingLast (blockAt 20 10 0 2));
      [discriminate | reflexivity | reflexivity |].
    apply (rises_step _ _ (blockAt 10 0 0 1));
      [discriminate | reflexivity | reflexivity |].
    apply rises_genesis. reflexivity.
Defined.

End SyncBlockExamples.


(** *** [checkIfSynced] and [SyncBlocks], continued *)

Section SyncerTipFacts.
Import MachineInt Types Syncer SyncerMore SyncerData.
Context {Lattice CoreConsensus : Type}.
Implicit Types (con : Consensus Lattice) (d : gmap Z Block).

(** Every block that the search records as a tip had its compaction
    parent fetched from the database before the search went on. *)
Lemma findTips_parents fuel d numChains :
  forall tips tipCount b tips',
  findTips fuel d numChains tips tipCount b = Return (Some tips') ->
  (forall c t, tips !! c = Some (Some t) -> hasParent d t) ->
  forall c t, tips' !! c = Some (Some t) -> hasParent d t.
Proof.
  induction fuel as [|f IH]; intros tips tipCount b tips'; rewrite findTips_eq.
  - destruct (Nat.leb_spec numChains tipCount); [|discriminate].
    intros [= <-] Hold. exact Hold.
  - destruct (Nat.leb_spec numChains tipCount) as [Hle|Hlt].
    { intros [= <-] Hold. exact Hold. }
    destruct (tips !! ChainID (BlockPosition b)) as [tip|] eqn:Htip;
      [|discriminate].
    assert (Hrec : forall tips1 count1,
      (if FinalizationParentHash b =? Common.zeroHash then Return None
       else match d !! FinalizationParentHash b with
            | None => Panic
            | Some b1 => findTips f d numChains tips1 count1 b1
            end) = Return (Some tips') ->
      hasParent d b /\
      exists b1, findTips f d numChains tips1 count1 b1 = Return (Some tips')).
    { intros tips1 count1.
      destruct (Z.eqb_spec (FinalizationParentHash b) Common.zeroHash)
        as [?|Hnz]; [discriminate|].
      destruct (d !! FinalizationParentHash b) as [b1|] eqn:Hb1;
        [|discriminate].
      intros Hr. split; [|now exists b1]. split; [exact Hnz|].
      rewrite Hb1. now eexists. }
    destruct tip as [t0|].
    + intros Hr Hold. apply Hrec in Hr as (_ & b1 & Hr).
      exact (IH _ _ _ _ Hr Hold).
    + destruct (ChainID (BlockPosition b) <? numChains)%nat.
      * intros Hr Hold. apply Hrec in Hr as (Hpar & b1 & Hr).
        apply (IH _ _ _ _ Hr).
        intros c t Hc.
        destruct (Nat.eq_dec (ChainID (BlockPosition b)) c) as [Heq|Hne].
        -- subst c. rewrite list_lookup_insert_eq in Hc.
           ++ injection Hc as <-. exact Hpar.
           ++ eapply lookup_lt_Some. exact Htip.
        -- rewrite list_lookup_insert_ne in Hc by assumption.
           exact (Hold c t Hc).
      * intros Hr Hold. apply Hrec in Hr as (_ & b1 & Hr).
        exact (IH _ _ _ _ Hr Hold).
Qed.

(** X12. When checkIfSynced marks the syncer synced, the tip it used for
    each chain has a compaction parent that the database holds: a chain
    whose only block on the compaction chain is the genesis block never
    lets the syncer become synced. *)
Theorem checkIfSynced_tips_have_parents (fuel : nat) con (bs : list Block)
    (numChains : nat) (b : Block) con' :
  isSynced con = false ->
  numChainsOfFirstBlock con = Some numChains ->
  last bs = Some b ->
  checkIfSynced fuel con bs = Return con' ->
  isSynced con' = true ->
  forall c, (c < numChains)%nat ->
    exists tip, tipOf c (chainBack fuel (db con) b) = Some tip /\
                hasParent (db con) tip.
Proof.
  intros Hns Hnum Hlast. unfold checkIfSynced. rewrite Hnum, Hlast.
  destruct (findTips fuel (db con) numChains (replicate numChains None) 0 b)
    as [[tips|]| |] eqn:Htips; try discriminate.
  - intros _ _ c Hc.
    destruct (findTips_fresh _ _ _ _ _ Htips) as [_ Hall].
    destruct (Hall c Hc) as (t & Ht & Htip). exists t. split; [exact Htip|].
    apply (findTips_parents _ _ _ _ _ _ _ Htips) with (c := c); [|exact Ht].
    intros c' t' H'. apply lookup_replicate in H' as [[=] _].
  - intros [= <-] Hsy. congruence.
Qed.


Lemma overlapCountFrom_short (queues : list (list Block)) :
  forall (tips : list (option Block)) (c acc : nat),
  (forall i, (i < length tips)%nat -> exists t, tips !! i = Some (Some t)) ->
  (c <= length queues < c + length tips)%nat ->
  overlapCountFrom queues c tips acc = Panic.
Proof.
  induction tips as [|tip rest IH]; intros c acc Hsome Hlen;
    cbn [length] in *; [lia|].
  destruct (Hsome 0%nat ltac:(lia)) as [t Ht]. cbn in Ht. injection Ht as ->.
  assert (Hrest : forall i, (i < length rest)%nat ->
                    exists t, rest !! i = Some (Some t)).
  { intros i Hi. apply (Hsome (S i)). lia. }
  cbn [overlapCountFrom]. unfold overlapped.
  destruct (queues !! c) as [q|] eqn:Hq; [|reflexivity].
  apply lookup_lt_Some in Hq.
  destruct q as [|oldest q]; [apply IH; [exact Hrest | lia]|].
  destruct (negb _); apply IH; (exact Hrest || lia).
Qed.

(** X30. checkIfSynced panics (index out of range on con.blocks) when
    the walk over the compaction chain has found the tip of every chain
    and the pool of blocks has fewer queues than the configuration has
    chains. *)
Theorem checkIfSynced_short_pool (fuel : nat) con (bs : list Block)
    (numChains : nat) (b : Block) (tips : list (option Block)) :
  numChainsOfFirstBlock con = Some numChains ->
  last bs = Some b ->
  findTips fuel (db con) numChains (replicate numChains None) 0 b
    = Return (Some tips) ->
  (length (blocks con) < numChains)%nat ->
  checkIfSynced fuel con bs = Panic.
Proof.
  intros Hnum Hlast Htips Hshort.
  destruct (findTips_fresh _ _ _ _ _ Htips) as [Hlen Hall].
  unfold checkIfSynced. rewrite Hnum, Hlast, Htips.
  rewrite overlapCountFrom_short; [reflexivity| |lia].
  intros i Hi. destruct (Hall i ltac:(lia)) as (t & Ht & _). now exists t.
Qed.

(** *** [SyncBlocks]: the order of the blocks given *)

Lemma consecutive_gap (bs : list Block) :
  consecutive bs = false <-> exists i, heightGap bs i.
Proof.
  induction bs as [|prev [|cur rest] IH].
  - split; [discriminate|]. intros (i & p & c & H & _). discriminate.
  - split; [discriminate|]. intros (i & p & c & _ & H & _). discriminate.
  - change (consecutive (prev :: cur :: rest))
      with ((FinalizationHeight cur =? uint64 (FinalizationHeight prev + 1))
            && consecutive (cur :: rest)).
    rewrite andb_false_iff, IH, Z.eqb_neq. split.
    + intros [Hne|(i & p & c & Hp & Hc & Hne)].
      * exists 0%nat, prev, cur. now repeat split.
      * exists (S i), p, c. now repeat split.
    + intros ([|i] & p & c & Hp & Hc & Hne).
      * cbn in Hp, Hc. injection Hp as <-. injection Hc as <-. now left.
      * right. exists i, p, c. now repeat split.
Qed.

(** X13. On a syncer that is not synced, SyncBlocks refuses with
    ErrInvalidBlockOrder, and leaves the syncer as it was, exactly the
    slices in which some block's compaction height is not its
    predecessor's plus one (in 64-bit arithmetic); every other non-empty
    slice goes on to be synced. *)
Theorem SyncBlocks_block_order
    (syncFrom : Consensus Lattice -> list Block -> bool ->
                Consensus Lattice * (option CoreConsensus * option error))
    con (bs : list Block) (latest : bool) :
  isSynced con = false -> bs <> [] ->
  ((exists i, heightGap bs i) ->
   SyncBlocks syncFrom con bs latest = (con, (None, Some ErrInvalidBlockOrder)))
  /\
  (~ (exists i, heightGap bs i) ->
   SyncBlocks syncFrom con bs latest = syncFrom con bs latest).
Proof.
  intros Hs Hne. unfold SyncBlocks. rewrite Hs.
  destruct bs as [|b0 rest]; [contradiction|]. cbn [length Nat.eqb].
  split.
  - intros Hgap. apply consecutive_gap in Hgap. now rewrite Hgap.
  - intros Hno. destruct (consecutive (b0 :: rest)) eqn:Hc; [reflexivity|].
    exfalso. apply Hno. now apply consecutive_gap.
Qed.

End SyncerTipFacts.

Section SyncerTipExamples.
Import MachineInt Types Syncer SyncerMore SyncerData.

Lemma checkIfSynced_tips_have_parents_witness :
  exists tip, tipOf 0 (chainBack 8 (db (oneChain 1)) tipBlock) = Some tip /\
              hasParent (db (oneChain 1)) tip.
Proof.
  apply (checkIfSynced_tips_have_parents 8 (oneChain 1) [tipBlock] 1 tipBlock
           (set_isSynced true (oneChain 1))).
  - reflexivity.
  - vm_compute. reflexivity.
  - reflexivity.
  - vm_compute. reflexivity.
  - reflexivity.
  - lia.
Defined.


Lemma checkIfSynced_short_pool_witness :
  checkIfSynced 8 shortPool [poolBlock 403 402 1] = Panic.
Proof.
  apply (checkIfSynced_short_pool 8 shortPool [poolBlock 403 402 1] 2
           (poolBlock 403 402 1)
           [Some (poolBlock 402 401 0); Some (poolBlock 403 402 1)]).
  - vm_compute. reflexivity.
  - reflexivity.
  - vm_compute. reflexivity.
  - cbn. lia.
Defined.

Lemma SyncBlocks_block_order_witness :
  ((exists i, heightGap [blockAt 1 0 0 5; blockAt 2 1 0 7] i) ->
   SyncBlocks (CoreConsensus := unit) (fun c _ _ => (c, (None, None)))
     unstableConsensus [blockAt 1 0 0 5; blockAt 2 1 0 7] true
   = (unstableConsensus, (None, Some ErrInvalidBlockOrder))) /\
  (~ (exists i, heightGap [blockAt 1 0 0 5; blockAt 2 1 0 7] i) ->
   SyncBlocks (CoreConsensus := unit) (fun c _ _ => (c, (None, None)))
     unstableConsensus [blockAt 1 0 0 5; blockAt 2 1 0 7] true
   = (fun c _ _ => (c, (None, None))) unstableConsensus
       [blockAt 1 0 0 5; blockAt 2 1 0 7] true).
Proof.
  apply (SyncBlocks_block_order (fun c _ _ => (c, (None, None)))
           unstableConsensus [blockAt 1 0 0 5; blockAt 2 1 0 7] true).
  - reflexivity.
  - discriminate.
Defined.

End SyncerTipExamples.


(** ** [VerifyTotalOrder], continued *)

Section VerifyTotalOrderMoreFacts.
Import MachineInt Syncer Simulation.
Implicit Types (st : store) (m : PeerTotalOrder) (l : list (ValidatorID * loc)).

(** A nil entry stops the search for the common length. *)
Lemma shorter_fold_nil st : forall l (M : Z),
  foldr (uncurry (shorter st)) (Return M) l <> OutOfFuel /\
  ((exists v p, (v, p) ∈ l /\ st !! p = None) ->
   foldr (uncurry (shorter st)) (Return M) l = Panic).
Proof.
  induction l as [|[v p] l IH]; intros M.
  - split; [discriminate|]. intros (v & p & Hin & _).
    now apply elem_of_nil in Hin.
  - destruct (IH M) as [Hno Hnil]. cbn [foldr uncurry].
    destruct (foldr (uncurry (shorter st)) (Return M) l) as [L| |] eqn:E;
      [| |contradiction].
    + cbn [shorter]. destruct (st !! p) as [r|] eqn:Hp.
      * split; [now destruct (_ <? _)|].
        intros (v' & p' & Hin & Hnone).
        apply elem_of_cons in Hin as [[= -> ->]|Hin]; [congruence|].
        discriminate Hnil. now exists v', p'.
      * split; [discriminate | reflexivity].
    + split; [discriminate | reflexivity].
Qed.

(** The common length of a map whose entries all point to result
    objects. *)
Lemma commonLength_spec m st :
  (forall v p, m !! v = Some p -> is_Some (st !! p)) ->
  exists L, commonLength m st = Return L /\ 0 <= L <= MaxInt32 /\
    (forall v p r, m !! v = Some p -> st !! p = Some r ->
                   L <= Z.of_nat (length (hashList r))) /\
    (L = MaxInt32 \/ exists v p r, m !! v = Some p /\ st !! p = Some r /\
                                   L = Z.of_nat (length (hashList r))).
Proof.
  intros Hval. unfold commonLength. rewrite map_fold_foldr.
  destruct (shorter_fold st (map_to_list m) MaxInt32)
    as (L & HL & HLM & Hmin & Hatt).
  { intros v p Hin. apply elem_of_map_to_list in Hin. eauto. }
  exists L. split; [exact HL|]. split; [|split].
  - split; [|exact HLM].
    destruct Hatt as [->|(v & p & r & _ & _ & ->)]; [discriminate | lia].
  - intros v p r Hv Hr. apply (Hmin v p r); [|exact Hr].
    now apply elem_of_map_to_list.
  - destruct Hatt as [->|(v & p & r & Hin & Hr & HLr)]; [now left|].
    right. exists v, p, r. apply elem_of_map_to_list in Hin. now repeat split.
Qed.

Lemma commonLength_zero m st :
  (forall v p, m !! v = Some p -> is_Some (st !! p)) ->
  (exists v p r, m !! v = Some p /\ st !! p = Some r /\ hashList r = []) ->
  commonLength m st = Return 0.
Proof.
  intros Hval (v & p & r & Hv & Hr & Hnil).
  destruct (commonLength_spec m st Hval) as (L & HL & Hrange & Hmin & _).
  specialize (Hmin v p r Hv Hr). rewrite Hnil in Hmin. cbn in Hmin.
  rewrite HL. f_equal. lia.
Qed.

(** X14. VerifyTotalOrder panics when the map has no entry for the
    calling peer and no peer's list is empty; the empty map is such a
    map. *)
Theorem VerifyTotalOrder_missing_caller (id : Z) m st :
  (forall v p, m !! v = Some p ->
     exists r, st !! p = Some r /\ hashList r <> []) ->
  m !! id = None ->
  VerifyTotalOrder id m st = Panic.
Proof.
  intros Hval Hid.
  destruct (commonLength_spec m st) as (L & HL & Hrange & _ & Hatt).
  { intros v p Hv. destruct (Hval v p Hv) as (r & Hr & _). now exists r. }
  assert (Hpos : 0 < L).
  { destruct Hatt as [->|(v & p & r & Hv & Hr & ->)]; [reflexivity|].
    destruct (Hval v p Hv) as (r' & Hr' & Hne).
    assert (r' = r) by congruence. subst r'.
    destruct (hashList r); [contradiction | cbn; lia]. }
  unfold VerifyTotalOrder. rewrite HL.
  destruct (Z.to_nat L) as [|n] eqn:En; [lia|].
  cbn [verifyFrom]. unfold hashAt. now rewrite Hid.
Qed.

(** X15. VerifyTotalOrder panics when an entry of the map is a nil
    pointer. *)
Theorem VerifyTotalOrder_nil_entry (id : Z) m st (v : Z) (p : positive) :
  m !! v = Some p -> st !! p = None ->
  VerifyTotalOrder id m st = Panic.
Proof.
  intros Hv Hp. unfold VerifyTotalOrder, commonLength. rewrite map_fold_foldr.
  destruct (shorter_fold_nil st (map_to_list m) MaxInt32) as [_ Hnil].
  rewrite Hnil; [reflexivity|].
  exists v, p. split; [now apply elem_of_map_to_list | exact Hp].
Qed.

(** X16. When some peer's list is empty, VerifyTotalOrder compares
    nothing: whoever the caller is, it answers true with length 0 and
    leaves every list as it was. *)
Theorem VerifyTotalOrder_empty_list (id : Z) m st :
  (forall v p, m !! v = Some p -> is_Some (st !! p)) ->
  (exists v p r, m !! v = Some p /\ st !! p = Some r /\ hashList r = []) ->
  VerifyTotalOrder id m st = Return (st, true, 0).
Proof.
  intros Hval Hempty. unfold VerifyTotalOrder.
  rewrite (commonLength_zero m st Hval Hempty). reflexivity.
Qed.

(** X17. A call that follows a call on the same peers, with no block
    pushed in between, finds nothing left to verify: it answers true
    with length 0 and changes nothing. *)
Theorem VerifyTotalOrder_twice (id : Z) m st st' (correct : bool) (L : Z) :
  (forall v p, m !! v = Some p ->
     exists r, st !! p = Some r /\ Z.of_nat (length (hashList r)) <= MaxInt32) ->
  (forall v1 v2 p, m !! v1 = Some p -> m !! v2 = Some p -> v1 = v2) ->
  VerifyTotalOrder id m st = Return (st', correct, L) ->
  VerifyTotalOrder id m st' = Return (st', true, 0).
Proof.
  intros Hval Hinj Hcall.
  assert (Hval' : forall v p, m !! v = Some p -> is_Some (st !! p)).
  { intros v p Hv. destruct (Hval v p Hv) as (r & Hr & _). now exists r. }
  destruct (commonLength_spec m st Hval') as (L0 & HL & Hrange & Hmin & Hatt).
  unfold VerifyTotalOrder in Hcall. rewrite HL in Hcall.
  destruct (verifyFrom (Z.to_nat L0) 0 id m st false) as [e| |] eqn:He;
    try discriminate.
  assert (Hm : m <> ∅).
  { intros ->. destruct Hatt as [->|(v & p & r & Hv & _)].
    - cbn in He. discriminate.
    - discriminate. }
  assert (Hatt' : exists v p r, m !! v = Some p /\ st !! p = Some r /\
                    L0 = Z.of_nat (length (hashList r))).
  { destruct Hatt as [->|Hatt]; [|exact Hatt].
    destruct (map_choose m Hm) as (v & p & Hv).
    destruct (Hval v p Hv) as (r & Hr & Hle).
    specialize (Hmin v p r Hv Hr). exists v, p, r. repeat split; try assumption.
    lia. }
  destruct Hatt' as (v0 & p0 & r0 & Hv0 & Hr0 & HL0).
  destruct (Z.ltb_spec 0 L0) as [Hpos|Hzero].
  - rewrite map_fold_foldr in Hcall.
    destruct (dropVerified_fold m (Z.to_nat L0) (map_to_list m) st)
      as (st1 & Hst1 & Hupd & _).
    { now apply unaliased_NoDup. }
    { intros v p Hin. apply elem_of_map_to_list in Hin. split; [exact Hin|].
      destruct (Hval v p Hin) as (r & Hr & _). exists r. split; [exact Hr|].
      specialize (Hmin v p r Hin Hr). lia. }
    rewrite Hst1 in Hcall. injection Hcall as <- _ _.
    unfold VerifyTotalOrder. rewrite (commonLength_zero m st1); [reflexivity| |].
    + intros v p Hv. destruct (Hval v p Hv) as (r & Hr & _).
      rewrite (Hupd v p r); [now eexists | now apply elem_of_map_to_list | exact Hr].
    + exists v0, p0, (set_hashList (drop (Z.to_nat L0) (hashList r0)) r0).
      split; [exact Hv0|]. split.
      * apply (Hupd v0); [now apply elem_of_map_to_list | exact Hr0].
      * cbn. apply drop_ge. lia.
  - injection Hcall as <- _ _.
    unfold VerifyTotalOrder.
    rewrite (commonLength_zero m st Hval'); [reflexivity|].
    exists v0, p0, r0. split; [exact Hv0|]. split; [exact Hr0|].
    apply nil_length_inv. lia.
Qed.

End VerifyTotalOrderMoreFacts.

Section VerifyTotalOrderMoreExamples.
Import MachineInt Syncer Simulation SimulationMore.

Lemma VerifyTotalOrder_missing_caller_witness :
  VerifyTotalOrder 1 ∅ agreeing = Panic.
Proof.
  apply (VerifyTotalOrder_missing_caller 1 ∅ agreeing).
  - intros v p H. discriminate.
  - reflexivity.
Defined.

Lemma VerifyTotalOrder_nil_entry_witness :
  VerifyTotalOrder 1 threePeers {[ 1%positive := mkTotalOrderResult 1 [11] 1 ]}
  = Panic.
Proof.
  apply (VerifyTotalOrder_nil_entry 1 threePeers
           {[ 1%positive := mkTotalOrderResult 1 [11] 1 ]} 2 2%positive).
  - reflexivity.
  - reflexivity.
Defined.

Lemma VerifyTotalOrder_empty_list_witness :
  VerifyTotalOrder 7 threePeers verified = Return (verified, true, 0).
Proof.
  apply (VerifyTotalOrder_empty_list 7 threePeers verified).
  - intros v p H.
    destruct (threePeers_entries v p H) as [[= -> ->]|[[= -> ->]|[= -> ->]]];
      vm_compute; eexists; reflexivity.
  - exists 2, 2%positive, (mkTotalOrderResult 2 [] 2).
    repeat split; reflexivity.
Defined.

Lemma VerifyTotalOrder_twice_witness :
  VerifyTotalOrder 1 threePeers verified = Return (verified, true, 0).
Proof.
  apply (VerifyTotalOrder_twice 1 threePeers agreeing verified true 2).
  - intros v p H.
    destruct (threePeers_entries v p H) as [[= -> ->]|[[= -> ->]|[= -> ->]]];
      eexists; (split; [vm_compute; reflexivity | vm_compute; discriminate]).
  - intros v1 v2 p H1 H2.
    destruct (threePeers_entries v1 p H1) as [[= -> ->]|[[= -> ->]|[= -> ->]]];
      destruct (threePeers_entries v2 _ H2) as [[= ->]|[[= ->]|[= ->]]];
      reflexivity.
  - vm_compute. reflexivity.
Defined.

Lemma onePeer_longList v p r :
  onePeer !! v = Some p -> longList !! p = Some r ->
  v = 1 /\ p = 1%positive /\
  r = mkTotalOrderResult 1 (replicate (Z.to_nat 2147483648) 0) 0.
Proof.
  unfold onePeer, longList. intros Hv Hp.
  apply lookup_singleton_Some in Hv as [<- <-].
  apply lookup_singleton_Some in Hp as [_ <-]. now repeat split.
Qed.

Lemma onePeer_valid v p : onePeer !! v = Some p -> is_Some (longList !! p).
Proof.
  unfold onePeer, longList. intros Hv.
  apply lookup_singleton_Some in Hv as [_ <-].
  rewrite lookup_singleton_eq. now eexists.
Qed.

Lemma onePeer_length v p r :
  onePeer !! v = Some p -> longList !! p = Some r ->
  Z.of_nat (length (hashList r)) = 2147483648.
Proof.
  intros Hv Hp. destruct (onePeer_longList v p r Hv Hp) as (_ & _ & ->).
  cbn [hashList]. rewrite length_replicate. apply Z2Nat.id. lia.
Qed.

Lemma onePeer_commonLength : commonLength onePeer longList = Return MaxInt32.
Proof.
  destruct (commonLength_spec onePeer longList onePeer_valid)
    as (L & HL & Hrange & Hmin & Hatt).
  rewrite HL. f_equal.
  destruct Hatt as [->|(v & p & r & Hv & Hp & HLr)]; [reflexivity|].
  rewrite (onePeer_length v p r Hv Hp) in HLr.
  unfold MaxInt32 in Hrange. lia.
Qed.

Lemma onePeer_verifyFrom :
  exists e, verifyFrom (Z.to_nat MaxInt32) 0 1 onePeer longList false = Return e.
Proof.
  destruct (verifyFrom_spec 1 onePeer longList (Z.to_nat MaxInt32) 0 false)
    as (e & He & _).
  { unfold onePeer. rewrite lookup_singleton_eq. now eexists. }
  { intros j Hj v p Hv. destruct (onePeer_valid v p Hv) as [r Hr].
    destruct (onePeer_longList v p r Hv Hr) as (_ & _ & Heq).
    exists r, 0. split; [exact Hr|]. subst r. cbn [hashList].
    apply lookup_replicate_2.
    assert (Hle : (Z.to_nat MaxInt32 <= Z.to_nat 2147483648)%nat).
    { apply Z2Nat.inj_le; unfold MaxInt32; lia. }
    revert Hj Hle. generalize (Z.to_nat MaxInt32) (Z.to_nat 2147483648).
    intros a b Hj Hle. lia. }
  now exists e.
Qed.

Lemma onePeer_dropVerified :
  exists st', foldr (uncurry (dropVerified onePeer (Z.to_nat MaxInt32)))
                (Return longList) (map_to_list onePeer) = Return st'.
Proof.
  destruct (dropVerified_fold onePeer (Z.to_nat MaxInt32) (map_to_list onePeer)
              longList) as (st' & Hst' & _).
  { apply unaliased_NoDup. unfold onePeer. intros v1 v2 p H1 H2.
    apply lookup_singleton_Some in H1 as [<- _].
    apply lookup_singleton_Some in H2 as [<- _]. reflexivity. }
  { intros v p Hin. apply elem_of_map_to_list in Hin. split; [exact Hin|].
    destruct (onePeer_valid v p Hin) as [r Hr]. exists r. split; [exact Hr|].
    pose proof (onePeer_length v p r Hin Hr) as Hlen.
    apply Nat2Z.inj_le. rewrite Hlen, Z2Nat.id; unfold MaxInt32; lia. }
  now exists st'.
Qed.

Lemma onePeer_run :
  exists st' correct,
    VerifyTotalOrder 1 onePeer longList = Return (st', correct, MaxInt32).
Proof.
  destruct onePeer_verifyFrom as [e He].
  destruct onePeer_dropVerified as [st' Hst'].
  exists st', (negb e). unfold VerifyTotalOrder.
  rewrite onePeer_commonLength, He. change (0 <? MaxInt32) with true. cbv iota.
  rewrite map_fold_foldr, Hst'. reflexivity.
Qed.

(** C9 (as stated) fails on non-empty maps.  A map without an entry for
    the calling peer makes the call panic, and so do two peers that
    share one result object, whose list is cut twice; and a peer whose
    list holds more than math.MaxInt32 hashes gets math.MaxInt32 as the
    length, not the length of its list. *)
Lemma VerifyTotalOrder_common_prefix_counterexample :
  (threePeers !! 7 = None /\
   VerifyTotalOrder 7 threePeers agreeing = Panic) /\
  (aliased !! 1 = Some 1%positive /\ aliased !! 2 = Some 1%positive /\
   VerifyTotalOrder 1 aliased agreeing = Panic) /\
  (exists r, onePeer !! 1 = Some 1%positive /\ longList !! 1%positive = Some r /\
     Z.of_nat (length (hashList r)) = 2147483648 /\
     exists st' correct,
       VerifyTotalOrder 1 onePeer longList = Return (st', correct, 2147483647)).
Proof.
  split; [|split].
  - split; vm_compute; reflexivity.
  - repeat split; vm_compute; reflexivity.
  - exists (mkTotalOrderResult 1 (replicate (Z.to_nat 2147483648) 0) 0).
    split; [apply lookup_singleton_eq|]. split; [apply lookup_singleton_eq|].
    split; [cbn [hashList]; rewrite length_replicate; apply Z2Nat.id; lia|].
    exact onePeer_run.
Qed.

End VerifyTotalOrderMoreExamples.


(** ** [setupConfigs] *)

Section SetupConfigsFacts.
Import MachineInt Types Syncer SyncerSetup.
Context {Lattice Time : Type}.
Variable Configuration : Z -> option Config.
Variable ConfigRoundShift : Z.
Variable Add : Time -> Duration -> Time.
Variable AppendConfig : Lattice -> Z -> Config -> option Lattice.
Implicit Types (con : Consensus Lattice) (cfgs : list Config).
Implicit Types (times : list Time) (bs : list Block).

Local Abbreviation fetch := (fetchConfigs Configuration Add).
Local Abbreviation setup :=
  (setupConfigs Configuration ConfigRoundShift Add AppendConfig).
Local Abbreviation untilRound := (untilRoundOf ConfigRoundShift).

Lemma uint64_small (v : Z) : 0 <= v < 2 ^ 64 -> uint64 v = v.
Proof. intros H. unfold uint64. now apply Z.mod_small. Qed.

Lemma maxRoundOf_from (bs : list Block) : forall m0 : nat,
  let m := foldl (fun maxRound b =>
                    if (maxRound <? Round (BlockPosition b))%nat
                    then Round (BlockPosition b) else maxRound) m0 bs in
  (m0 <= m)%nat /\
  (forall b, b ∈ bs -> (Round (BlockPosition b) <= m)%nat) /\
  (m = m0 \/ exists b, b ∈ bs /\ m = Round (BlockPosition b)).
Proof.
  induction bs as [|b bs IH]; intros m0; cbn [foldl].
  - split; [lia|]. split; [|now left]. intros b Hb.
    now apply elem_of_nil in Hb.
  - destruct (IH (if (m0 <? Round (BlockPosition b))%nat
                  then Round (BlockPosition b) else m0))
      as (Hle & Hall & Hatt).
    destruct (Nat.ltb_spec m0 (Round (BlockPosition b))) as [Hlt|Hge].
    + split; [lia|]. split.
      * intros b' Hb'. apply elem_of_cons in Hb' as [->|Hb']; [lia|].
        now apply Hall.
      * right. destruct Hatt as [->|(b' & Hb' & ->)].
        -- exists b. split; [left | reflexivity].
        -- exists b'. split; [now right | reflexivity].
    + split; [lia|]. split.
      * intros b' Hb'. apply elem_of_cons in Hb' as [->|Hb']; [lia|].
        now apply Hall.
      * destruct Hatt as [->|(b' & Hb' & ->)]; [now left|].
        right. exists b'. split; [now right | reflexivity].
Qed.

Lemma fetchConfigs_eq (fuel : nat) (r until : Z) cfgs times (cur : Z) :
  fetch fuel r until cfgs times cur =
  if until <? r then Return (cfgs, times, cur)
  else
    match fuel with
    | O => OutOfFuel
    | S f =>
        match Configuration r with
        | None => Panic
        | Some cfg =>
            match index times (uint64 (r - 1)),
                  index (cfgs ++ [cfg]) (uint64 (r - 1)) with
            | Some t, Some c =>
                fetch f (uint64 (r + 1)) until (cfgs ++ [cfg])
                  (times ++ [Add t (RoundInterval c)])
                  (if cur <=? NumChains cfg then NumChains cfg else cur)
            | _, _ => Panic
            end
        end
    end.
Proof. destruct fuel; reflexivity. Qed.

(** The loop only appends, as many round begin times as configurations,
    and [curMaxNumChains] bounds the chains of what it appended. *)
Lemma fetchConfigs_appends : forall (fuel : nat) (r until : Z) cfgs times
    (cur : Z) cfgs' times' (cur' : Z),
  fetch fuel r until cfgs times cur = Return (cfgs', times', cur') ->
  cfgs `prefix_of` cfgs' /\ times `prefix_of` times' /\
  (length times' + length cfgs = length times + length cfgs')%nat /\
  cur <= cur' /\
  forall (i : nat) c, (length cfgs <= i)%nat -> cfgs' !! i = Some c ->
                      NumChains c <= cur'.
Proof.
  induction fuel as [|f IH]; intros r until cfgs times cur cfgs' times' cur';
    rewrite fetchConfigs_eq; destruct (until <? r);
    try discriminate;
    try (intros [= <- <- <-]; repeat apply conj; try reflexivity; try lia;
         intros i c Hi Hc; apply lookup_lt_Some in Hc; lia).
  destruct (Configuration r) as [cfg|]; [|discriminate].
  destruct (index times _) as [t|]; [|discriminate].
  destruct (index (cfgs ++ [cfg]) _) as [c0|]; [|discriminate].
  intros H. apply IH in H as (Hpre & Hpre' & Hlen & Hcur & Hnew).
  rewrite (length_app cfgs), (length_app times) in Hlen.
  rewrite length_app in Hnew. cbn [length] in Hlen, Hnew.
  assert (Hcfg : NumChains cfg <= cur').
  { destruct (cur <=? NumChains cfg) eqn:E; [lia|].
    apply Z.leb_gt in E. lia. }
  repeat apply conj.
  - etransitivity; [|exact Hpre]. now apply prefix_app_r.
  - etransitivity; [|exact Hpre']. now apply prefix_app_r.
  - lia.
  - destruct (cur <=? NumChains cfg) eqn:E; [apply Z.leb_le in E|]; lia.
  - intros i c Hi Hc. destruct (Nat.eq_dec i (length cfgs)) as [->|Hne].
    + assert (cfgs' !! length cfgs = Some cfg) as Hmid.
      { eapply prefix_lookup_Some; [|exact Hpre].
        apply list_lookup_middle. reflexivity. }
      rewrite Hmid in Hc. injection Hc as <-. exact Hcfg.
    + apply (Hnew i c); [lia | exact Hc].
Qed.

(** Where the round counter does not wrap, the loop fetches exactly the
    rounds from [len(con.configs)] to [untilRound]. *)
Lemma fetchConfigs_exact : forall (fuel : nat) (r until : Z) cfgs times
    (cur : Z) cfgs' times' (cur' : Z),
  r = Z.of_nat (length cfgs) -> until < 2 ^ 64 - 1 ->
  fetch fuel r until cfgs times cur = Return (cfgs', times', cur') ->
  Z.of_nat (length cfgs') = Z.max r (until + 1) /\
  forall i : nat, (length cfgs <= i)%nat -> Z.of_nat i <= until ->
    exists c, Configuration (Z.of_nat i) = Some c /\ cfgs' !! i = Some c.
Proof.
  induction fuel as [|f IH]; intros r until cfgs times cur cfgs' times' cur'
    Hr Huntil; rewrite fetchConfigs_eq;
    destruct (Z.ltb_spec until r) as [Hlt|Hge];
    try discriminate;
    try (intros [= <- <- <-]; split; [lia|]; intros i Hi Hiu; lia).
  destruct (Configuration r) as [cfg|] eqn:Hcfg; [|discriminate].
  destruct (index times _) as [t|]; [|discriminate].
  destruct (index (cfgs ++ [cfg]) _) as [c0|]; [|discriminate].
  rewrite (uint64_small (r + 1)) by lia.
  intros H. pose proof (fetchConfigs_appends _ _ _ _ _ _ _ _ _ H) as (Hpre & _).
  apply IH in H; [| rewrite length_app; cbn [length]; lia | exact Huntil].
  destruct H as (Hlen & Hnew). split; [lia|].
  intros i Hi Hiu. destruct (Nat.eq_dec i (length cfgs)) as [->|Hne].
  - exists cfg. rewrite <- Hr. split; [exact Hcfg|].
    eapply prefix_lookup_Some; [|exact Hpre].
    apply list_lookup_middle. reflexivity.
  - apply Hnew; [rewrite length_app; cbn [length]; lia | exact Hiu].
Qed.

Lemma fetchConfigs_missing : forall (fuel : nat) (r0 until : Z) cfgs times
    (cur r : Z),
  0 <= r0 <= r -> r <= until < 2 ^ 64 -> Configuration r = None ->
  (Z.to_nat (r - r0) < fuel)%nat ->
  fetch fuel r0 until cfgs times cur = Panic.
Proof.
  induction fuel as [|f IH]; intros r0 until cfgs times cur r Hr Hu Hnone Hfuel;
    [lia|].
  rewrite fetchConfigs_eq.
  destruct (Z.ltb_spec until r0) as [?|_]; [lia|].
  destruct (Configuration r0) as [cfg|] eqn:Hcfg; [|reflexivity].
  destruct (index times _) as [t|]; [|reflexivity].
  destruct (index (cfgs ++ [cfg]) _) as [c0|]; [|reflexivity].
  assert (r0 <> r) by congruence.
  rewrite (uint64_small (r0 + 1)) by lia.
  apply (IH _ _ _ _ _ r); try assumption; lia.
Qed.

Lemma setupConfigs_fetch (fuel : nat) con times bs con' times' :
  setup fuel con times bs = Return (con', times') ->
  exists cur,
    fetch fuel (uint64 (Z.of_nat (length (configs con)))) (untilRound bs)
      (configs con) times 0
    = Return (configs con', times', cur) /\
    blocks con' = resizeByNumChains cur (blocks con) /\
    db con' = db con /\ isSynced con' = isSynced con /\
    agreementRoundCut con' = agreementRoundCut con.
Proof.
  unfold setupConfigs.
  destruct (fetch _ _ _ _ _ _) as [[[cfgs ts] cur]| |]; try discriminate.
  destruct (lattice con) as [lat|].
  - destruct (notifyLattice _ _ _ _ _ _) as [[lat' last]| |]; try discriminate.
    intros [= <- <-]. exists cur. now repeat split.
  - intros [= <- <-]. exists cur. now repeat split.
Qed.

(** When the sum [maxRound + core.ConfigRoundShift] wraps around to a
    round below [len(con.configs)], nothing is fetched: a syncer
    without lattice is left as it was. *)
Lemma setupConfigs_nothing_to_fetch (fuel : nat) con times bs :
  untilRound bs < uint64 (Z.of_nat (length (configs con))) ->
  lattice con = None ->
  setup fuel con times bs = Return (con, times).
Proof.
  intros Hlt Hlat. unfold setupConfigs. rewrite fetchConfigs_eq.
  destruct (Z.ltb_spec (untilRound bs)
              (uint64 (Z.of_nat (length (configs con))))) as [_|?]; [|lia].
  rewrite Hlat. unfold resizeByNumChains.
  destruct (Z.ltb_spec (uint32 (Z.of_nat (length (blocks con)))) 0) as [Hneg|_].
  { unfold uint32 in Hneg.
    pose proof (Z.mod_pos_bound (Z.of_nat (length (blocks con))) (2 ^ 32)
                  ltac:(lia)). lia. }
  destruct con; cbn in *. now subst.
Qed.

(** X18. setupConfigs only appends: the configurations and the round
    begin times the syncer had stay in place, as many of the ones as of
    the others are added, and the database and the synced flag are not
    touched.  Where maxRound + ConfigRoundShift + 1 does not wrap
    around in uint64, the configurations afterwards reach up to round
    maxRound + ConfigRoundShift, and every round added holds what the
    governance gives for it. *)
Theorem setupConfigs_appends (fuel : nat) con times bs con' times' :
  setupConfigs Configuration ConfigRoundShift Add AppendConfig fuel con times
    bs = Return (con', times') ->
  configs con `prefix_of` configs con' /\
  times `prefix_of` times' /\
  (length times' + length (configs con) =
   length times + length (configs con'))%nat /\
  db con' = db con /\ isSynced con' = isSynced con /\
  (Z.of_nat (length (configs con)) < 2 ^ 64 -> 0 <= ConfigRoundShift ->
   Z.of_nat (maxRoundOf bs) + ConfigRoundShift < 2 ^ 64 - 1 ->
   Z.of_nat (length (configs con')) =
     Z.max (Z.of_nat (length (configs con)))
           (Z.of_nat (maxRoundOf bs) + ConfigRoundShift + 1) /\
   forall r : nat, (length (configs con) <= r)%nat ->
     Z.of_nat r <= Z.of_nat (maxRoundOf bs) + ConfigRoundShift ->
     is_Some (Configuration (Z.of_nat r)) /\
     configs con' !! r = Configuration (Z.of_nat r)).
Proof.
  intros H. apply setupConfigs_fetch in H as (cur & Hf & _ & Hdb & Hsy & _).
  pose proof (fetchConfigs_appends _ _ _ _ _ _ _ _ _ Hf)
    as (Hpre & Hpre' & Hlen & _).
  repeat apply conj; try assumption.
  intros Hsmall Hshift Hsum.
  unfold untilRoundOf in Hf. rewrite !uint64_small in Hf by lia.
  apply fetchConfigs_exact in Hf as (Hexact & Hnew); [| reflexivity | lia].
  split; [exact Hexact|]. intros r Hr Hru.
  destruct (Hnew r Hr Hru) as (c & Hc & Hc'). rewrite Hc.
  split; [now eexists | exact Hc'].
Qed.

(** X19. setupConfigs panics when the governance has no configuration
    for one of the rounds from len(con.configs) to untilRound, the
    uint64 sum of maxRound and ConfigRoundShift. *)
Theorem setupConfigs_missing_config (fuel : nat) con times bs (r : Z) :
  uint64 (Z.of_nat (length (configs con))) <= r <= untilRoundOf ConfigRoundShift bs ->
  Configuration r = None ->
  (Z.to_nat (r - uint64 (Z.of_nat (length (configs con)))) < fuel)%nat ->
  setupConfigs Configuration ConfigRoundShift Add AppendConfig fuel con times
    bs = Panic.
Proof.
  intros Hr Hnone Hfuel. unfold setupConfigs.
  rewrite (fetchConfigs_missing _ _ _ _ _ _ r); try assumption;
    [reflexivity | |].
  - split; [|lia]. unfold uint64. apply Z.mod_pos_bound. lia.
  - split; [lia|]. unfold untilRoundOf, uint64. apply Z.mod_pos_bound. lia.
Qed.

Lemma findSafeRound_defined cfgs (round : nat) :
  (S round < length cfgs)%nat ->
  exists o, findSafeRound cfgs round = Return o.
Proof.
  induction round as [|round IH]; intros Hlen; rewrite findSafeRound_eq.
  - destruct (sameAsPrevRound_defined cfgs 0 ltac:(lia)) as [p ->].
    destruct (sameAsNextRound_defined cfgs 0 ltac:(lia)) as [n ->].
    destruct (p && n); now eexists.
  - destruct (sameAsPrevRound_defined cfgs (S round) ltac:(lia)) as [p ->].
    destruct (sameAsNextRound_defined cfgs (S round) ltac:(lia)) as [n ->].
    destruct (p && n); [now eexists | apply IH; lia].
Qed.

(** X20. After setupConfigs, with a ConfigRoundShift of at least one
    round and maxRound + ConfigRoundShift + 1 within uint64, the search
    for a safe round that findLatticeSyncBlock starts from any of the
    blocks given stays within the configurations: it returns and does
    not panic. *)
Theorem setupConfigs_safe_round_search (fuel : nat) con times bs con' times'
    (b : Block) :
  1 <= ConfigRoundShift ->
  Z.of_nat (length (configs con)) < 2 ^ 64 ->
  Z.of_nat (maxRoundOf bs) + ConfigRoundShift < 2 ^ 64 - 1 ->
  setupConfigs Configuration ConfigRoundShift Add AppendConfig fuel con times
    bs = Return (con', times') ->
  b ∈ bs ->
  exists o, findSafeRound (configs con') (Round (BlockPosition b)) = Return o.
Proof.
  intros Hshift Hsmall Hsum H Hb.
  apply setupConfigs_fetch in H as (cur & Hf & _).
  unfold untilRoundOf in Hf. rewrite !uint64_small in Hf by lia.
  apply fetchConfigs_exact in Hf as (Hlen & _); [| reflexivity | lia].
  destruct (maxRoundOf_from bs 0) as (_ & Hmax & _).
  specialize (Hmax b Hb). fold (maxRoundOf bs) in Hmax.
  apply findSafeRound_defined. lia.
Qed.

(** X21. setupConfigs never removes or reorders a queue of the pool of
    blocks, the queues it adds are empty, and afterwards the pool has a
    queue for every chain of every configuration it appended. *)
Theorem setupConfigs_queues (fuel : nat) con times bs con' times' :
  Z.of_nat (length (blocks con)) < 2 ^ 32 ->
  setupConfigs Configuration ConfigRoundShift Add AppendConfig fuel con times
    bs = Return (con', times') ->
  (exists k, blocks con' = blocks con ++ replicate k []) /\
  forall (i : nat) c, (length (configs con) <= i)%nat ->
    configs con' !! i = Some c ->
    NumChains c <= Z.of_nat (length (blocks con')).
Proof.
  intros Hsmall H.
  apply setupConfigs_fetch in H as (cur & Hf & Hq & _).
  apply fetchConfigs_appends in Hf as (_ & _ & _ & _ & Hnew).
  rewrite Hq. unfold resizeByNumChains.
  rewrite uint32_id by lia.
  destruct (Z.ltb_spec (Z.of_nat (length (blocks con))) cur) as [Hlt|Hge].
  - split; [now eexists|]. intros i c Hi Hc.
    specialize (Hnew i c Hi Hc).
    rewrite length_app, length_replicate. lia.
  - split; [exists 0%nat; cbn; now rewrite app_nil_r|]. intros i c Hi Hc.
    specialize (Hnew i c Hi Hc). lia.
Qed.

Lemma notifyLattice_spec cfgs (maxRound : nat) :
  Z.of_nat maxRound < 2 ^ 64 - 1 ->
  forall (fuel : nat) (lat : Lattice) (last : nat) lat' (last' : nat),
  Z.of_nat last < 2 ^ 64 - 1 ->
  notifyLattice AppendConfig fuel lat last maxRound cfgs = Return (lat', last') ->
  last' = Nat.max last maxRound.
Proof.
  intros Hmax. induction fuel as [|f IH]; intros lat last lat' last' Hlast;
    cbn [notifyLattice]; rewrite (uint64_small (Z.of_nat last + 1)) by lia;
    destruct (Z.leb_spec (Z.of_nat last + 1) (Z.of_nat maxRound)) as [Hle|Hgt];
    try discriminate; try (intros [= _ <-]; lia).
  destruct (index cfgs _) as [c|]; [|discriminate].
  destruct (AppendConfig lat _ c) as [l1|]; [|discriminate].
  intros H. apply IH in H; lia.
Qed.

(** X22. setupConfigs leaves a syncer without a lattice without one and
    does not move its last lattice round; with a lattice, and where
    neither the last lattice round nor the greatest round of the blocks
    given is so high that adding one wraps around in uint64, the last
    lattice round becomes the greatest round of the blocks given,
    unless it was beyond it already. *)
Theorem setupConfigs_lattice (fuel : nat) con times bs con' times' :
  setupConfigs Configuration ConfigRoundShift Add AppendConfig fuel con times
    bs = Return (con', times') ->
  (lattice con = None ->
   lattice con' = None /\ latticeLastRound con' = latticeLastRound con) /\
  (is_Some (lattice con) ->
   is_Some (lattice con') /\
   (Z.of_nat (latticeLastRound con) < 2 ^ 64 - 1 ->
    Z.of_nat (maxRoundOf bs) < 2 ^ 64 - 1 ->
    latticeLastRound con' = Nat.max (latticeLastRound con) (maxRoundOf bs))).
Proof.
  unfold setupConfigs.
  destruct (fetch _ _ _ _ _ _) as [[[cfgs ts] cur]| |]; try discriminate.
  destruct (lattice con) as [lat|].
  - destruct (notifyLattice _ _ _ _ _ _) as [[lat' last]| |] eqn:Hn;
      try discriminate.
    intros [= <- <-]. cbn. split; [discriminate|]. intros _.
    split; [now eexists|]. intros Hlast Hmax.
    exact (notifyLattice_spec _ _ Hmax _ _ _ _ _ Hlast Hn).
  - intros [= <- <-]. cbn. split; [now split|]. intros [? [=]].
Qed.

End SetupConfigsFacts.

Section SetupConfigsExamples.
Import MachineInt Types Syncer SyncerSetup.

Local Abbreviation setup2 :=
  (setupConfigs (Lattice := unit) tenRounds 2 Z.add (fun l _ _ => Some l)).

Lemma setupConfigs_run :
  setup2 8 newConsensus [0] [roundBlock 1] = Return (afterSetup, afterSetupTimes).
Proof. vm_compute. reflexivity. Qed.

Lemma setupConfigs_appends_witness :
  configs newConsensus `prefix_of` configs afterSetup /\
  [0] `prefix_of` afterSetupTimes /\
  (length afterSetupTimes + length (configs newConsensus) =
   length [0] + length (configs afterSetup))%nat /\
  db afterSetup = db newConsensus /\ isSynced afterSetup = isSynced newConsensus /\
  (Z.of_nat (length (configs newConsensus)) < 2 ^ 64 -> 0 <= 2 ->
   Z.of_nat (maxRoundOf [roundBlock 1]) + 2 < 2 ^ 64 - 1 ->
   Z.of_nat (length (configs afterSetup)) =
     Z.max (Z.of_nat (length (configs newConsensus)))
           (Z.of_nat (maxRoundOf [roundBlock 1]) + 2 + 1) /\
   forall r : nat, (length (configs newConsensus) <= r)%nat ->
     Z.of_nat r <= Z.of_nat (maxRoundOf [roundBlock 1]) + 2 ->
     is_Some (tenRounds (Z.of_nat r)) /\
     configs afterSetup !! r = tenRounds (Z.of_nat r)).
Proof.
  apply (setupConfigs_appends tenRounds 2 Z.add (fun l _ _ => Some l)
           8 newConsensus [0] [roundBlock 1] afterSetup afterSetupTimes).
  vm_compute. reflexivity.
Defined.

Lemma setupConfigs_missing_config_witness :
  setup2 12 newConsensus [0] [roundBlock 8] = Panic.
Proof.
  apply (setupConfigs_missing_config tenRounds 2 Z.add (fun l _ _ => Some l)
           12 newConsensus [0] [roundBlock 8] 10).
  - vm_compute. split; discriminate.
  - reflexivity.
  - vm_compute. lia.
Defined.

Lemma setupConfigs_safe_round_search_witness :
  exists o, findSafeRound (configs afterSetup)
              (Round (BlockPosition (roundBlock 1))) = Return o.
Proof.
  apply (setupConfigs_safe_round_search tenRounds 2 Z.add (fun l _ _ => Some l)
           8 newConsensus [0] [roundBlock 1] afterSetup afterSetupTimes
           (roundBlock 1)).
  - lia.
  - vm_compute. reflexivity.
  - vm_compute. reflexivity.
  - vm_compute. reflexivity.
  - left.
Defined.

Lemma setupConfigs_queues_witness :
  (exists k, blocks afterSetup = blocks newConsensus ++ replicate k []) /\
  forall (i : nat) c, (length (configs newConsensus) <= i)%nat ->
    configs afterSetup !! i = Some c ->
    NumChains c <= Z.of_nat (length (blocks afterSetup)).
Proof.
  apply (setupConfigs_queues tenRounds 2 Z.add (fun l _ _ => Some l)
           8 newConsensus [0] [roundBlock 1] afterSetup afterSetupTimes).
  - vm_compute. reflexivity.
  - vm_compute. reflexivity.
Defined.

Lemma setupConfigs_lattice_witness :
  (lattice withLattice = None ->
   lattice afterNotify = None /\
   latticeLastRound afterNotify = latticeLastRound withLattice) /\
  (is_Some (lattice withLattice) ->
   is_Some (lattice afterNotify) /\
   (Z.of_nat (latticeLastRound withLattice) < 2 ^ 64 - 1 ->
    Z.of_nat (maxRoundOf [roundBlock 3]) < 2 ^ 64 - 1 ->
    latticeLastRound afterNotify
    = Nat.max (latticeLastRound withLattice) (maxRoundOf [roundBlock 3]))).
Proof.
  apply (setupConfigs_lattice tenRounds 2 Z.add (fun l _ _ => Some l)
           8 withLattice [0] [roundBlock 3] afterNotify afterNotifyTimes).
  vm_compute. reflexivity.
Defined.

End SetupConfigsExamples.


(** ** [ensureAgreementOverlapRound] *)

Section OverlapFacts.
Import MachineInt Types Syncer SyncerOverlap.
Context {Lattice : Type}.
Implicit Types (con : Consensus Lattice) (queues : list (list Block)).
Implicit Types (m : gmap nat Z).

Lemma dropTips_suffix (cond : Block -> bool) (bs : list Block) :
  dropTips cond bs `suffix_of` bs.
Proof.
  induction bs as [|b bs IH]; cbn [dropTips]; [reflexivity|].
  destruct (cond b); [now apply suffix_cons_r | reflexivity].
Qed.

Lemma dropTips_all_suffix (cond : Block -> bool) queues :
  Forall2 suffix (map (dropTips cond) queues) queues.
Proof.
  induction queues as [|q queues IH]; cbn [map]; constructor;
    [apply dropTips_suffix | exact IH].
Qed.

Lemma Forall2_suffix_trans (a b c : list (list Block)) :
  Forall2 suffix a b -> Forall2 suffix b c -> Forall2 suffix a c.
Proof.
  intros Hab. revert c. induction Hab as [|x y a b Hxy Hab IH]; intros c Hbc.
  - inversion Hbc. constructor.
  - inversion Hbc as [|y' z b' c' Hyz Hbc']; subst. constructor.
    + now transitivity y.
    + now apply IH.
Qed.

(** The tip rounds counted: the entry of a round is the number of
    queues whose oldest block is of that round, no entry when there is
    none. *)
Lemma uint32_succ (x k : Z) : uint32 (uint32 (x + 1) + k) = uint32 (x + (1 + k)).
Proof.
  unfold uint32. rewrite Zplus_mod_idemp_l. f_equal. lia.
Qed.

Lemma countTip_fold queues : forall m (r : nat),
  foldl countTip m queues !! r =
  match tipVotes r queues with
  | O => m !! r
  | S k => Some (uint32 (default 0 (m !! r) + Z.of_nat (S k)))
  end.
Proof.
  induction queues as [|q queues IH]; intros m r; [reflexivity|].
  cbn [foldl]. rewrite IH. destruct q as [|b q]; cbn [tipVotes countTip].
  - reflexivity.
  - destruct (Nat.eqb_spec (Round (BlockPosition b)) r) as [Heq|Hne].
    + subst r. rewrite lookup_insert_eq.
      destruct (tipVotes (Round (BlockPosition b)) queues) as [|k];
        cbn -[Z.of_nat uint32 Z.add].
      * reflexivity.
      * f_equal. rewrite uint32_succ. f_equal. lia.
    + rewrite lookup_insert_ne by assumption. reflexivity.
Qed.

Lemma tipRoundMapOf_lookup queues (r : nat) :
  tipRoundMapOf queues !! r =
  match tipVotes r queues with
  | O => None
  | S k => Some (uint32 (Z.of_nat (S k)))
  end.
Proof.
  unfold tipRoundMapOf. rewrite countTip_fold, lookup_empty. reflexivity.
Qed.

Lemma tipVotes_tip queues (b : Block) (rest : list Block) :
  (b :: rest) ∈ queues -> (0 < tipVotes (Round (BlockPosition b)) queues)%nat.
Proof.
  induction queues as [|q queues IH]; intros Hin.
  - now apply elem_of_nil in Hin.
  - apply elem_of_cons in Hin as [<-|Hin].
    + cbn [tipVotes]. rewrite Nat.eqb_refl. lia.
    + specialize (IH Hin). destruct q as [|b' q]; cbn [tipVotes]; lia.
Qed.

Lemma tipVotes_some queues (r : nat) :
  (0 < tipVotes r queues)%nat ->
  exists b rest, (b :: rest) ∈ queues /\ Round (BlockPosition b) = r.
Proof.
  induction queues as [|q queues IH]; cbn [tipVotes]; [lia|].
  destruct q as [|b q].
  - intros H. destruct (IH H) as (b & rest & Hin & Hr).
    exists b, rest. split; [now right | exact Hr].
  - destruct (Nat.eqb_spec (Round (BlockPosition b)) r) as [Heq|Hne].
    + intros _. exists b, q. split; [left | exact Heq].
    + intros H. destruct (IH H) as (b' & rest & Hin & Hr).
      exists b', rest. split; [now right | exact Hr].
Qed.

Lemma two_keys m (i j : nat) (x y : Z) :
  m !! i = Some x -> m !! j = Some y -> i <> j -> (2 <= size m)%nat.
Proof.
  intros Hi Hj Hne.
  pose proof (map_size_delete_Some i m ltac:(eauto)) as Hd.
  assert (size (delete i m) <> 0%nat).
  { apply map_size_ne_0_lookup. exists j.
    rewrite lookup_delete_ne by assumption. eauto. }
  lia.
Qed.

Lemma aligned_size queues :
  (size (tipRoundMapOf queues) <= 1)%nat -> tipsAligned queues.
Proof.
  intros Hsize q1 q2 b1 b2 rest1 rest2 H1 H2 -> ->.
  pose proof (tipVotes_tip _ _ _ H1) as V1.
  pose proof (tipVotes_tip _ _ _ H2) as V2.
  pose proof (tipRoundMapOf_lookup queues (Round (BlockPosition b1))) as L1.
  pose proof (tipRoundMapOf_lookup queues (Round (BlockPosition b2))) as L2.
  destruct (tipVotes (Round (BlockPosition b1)) queues); [lia|].
  destruct (tipVotes (Round (BlockPosition b2)) queues); [lia|].
  destruct (Nat.eq_dec (Round (BlockPosition b1)) (Round (BlockPosition b2)))
    as [Heq|Hne]; [exact Heq|].
  pose proof (two_keys _ _ _ _ _ L1 L2 Hne). lia.
Qed.

Lemma alignTips_spec : forall (fuel : nat) queues queues' m,
  alignTips fuel queues = Return (queues', m) ->
  m = tipRoundMapOf queues' /\ (size m <= 1)%nat /\
  Forall2 suffix queues' queues.
Proof.
  induction fuel as [|f IH]; intros queues queues' m; cbn [alignTips];
    destruct (Nat.leb_spec (size (tipRoundMapOf queues)) 1) as [Hle|Hgt];
    try discriminate;
    try (intros [= <- <-]; repeat split; try assumption;
         apply Forall2_same_length_lookup_2; [reflexivity|];
         intros i x y Hx Hy; assert (x = y) by congruence; now subst).
  intros H. apply IH in H as (Hm & Hs & Hsuf).
  repeat split; try assumption.
  eapply Forall2_suffix_trans; [exact Hsuf | apply dropTips_all_suffix].
Qed.

(** X23. ensureAgreementOverlapRound only takes blocks from the front
    of the queues: every queue afterwards is a suffix of what it was,
    there are as many queues as before, and but for the round cut
    nothing else of the syncer changes. *)
Theorem ensureAgreementOverlapRound_drops_tips (fuel : nat) con con'
    (ok : bool) :
  ensureAgreementOverlapRound fuel con = Return (con', ok) ->
  Forall2 suffix (blocks con') (blocks con) /\
  db con' = db con /\ configs con' = configs con /\
  lattice con' = lattice con /\ isSynced con' = isSynced con.
Proof.
  unfold ensureAgreementOverlapRound.
  destruct (0 <? agreementRoundCut con)%nat.
  { intros [= <- <-]. repeat split.
    apply Forall2_same_length_lookup_2; [reflexivity|].
    intros i x y Hx Hy. assert (x = y) by congruence. now subst. }
  destruct (buildAll _ _) as [[]| |]; try discriminate.
  destruct (alignTips fuel _) as [[queues' m]| |] eqn:Ha; try discriminate.
  apply alignTips_spec in Ha as (_ & _ & Hsuf).
  assert (Hq : Forall2 suffix queues' (blocks con)).
  { eapply Forall2_suffix_trans; [exact Hsuf | apply dropTips_all_suffix]. }
  destruct (map_to_list m) as [|[r count] [|? ?]].
  - intros [= <- <-]. now repeat split.
  - destruct (configs con !! r) as [cfg|]; [|discriminate].
    destruct (count =? NumChains cfg); intros [= <- <-]; now repeat split.
  - intros [= <- <-]. now repeat split.
Qed.

(** X24. When ensureAgreementOverlapRound, called with no round cut
    set, returns, the oldest blocks of the queues that are left are all
    of one round.  It answers true exactly when it sets the round cut:
    the cut is then that round, and the number of queues that have a
    block left is the NumChains of the round's configuration. *)
Theorem ensureAgreementOverlapRound_aligns (fuel : nat) con con' (ok : bool) :
  agreementRoundCut con = 0%nat ->
  ensureAgreementOverlapRound fuel con = Return (con', ok) ->
  tipsAligned (blocks con') /\
  (ok = false -> agreementRoundCut con' = 0%nat) /\
  (ok = true ->
   exists cfg, configs con !! agreementRoundCut con' = Some cfg /\
     (0 < tipVotes (agreementRoundCut con') (blocks con'))%nat /\
     uint32 (Z.of_nat (tipVotes (agreementRoundCut con') (blocks con')))
     = NumChains cfg).
Proof.
  intros Hcut. unfold ensureAgreementOverlapRound. rewrite Hcut.
  cbn [Nat.ltb Nat.leb].
  destruct (buildAll _ _) as [[]| |]; try discriminate.
  destruct (alignTips fuel _) as [[queues' m]| |] eqn:Ha; try discriminate.
  apply alignTips_spec in Ha as (Hm & Hsize & _).
  assert (Hal : tipsAligned queues').
  { apply aligned_size. now rewrite <- Hm. }
  destruct (map_to_list m) as [|[r count] [|? ?]] eqn:Hl.
  - intros [= <- <-]. cbn. split; [exact Hal|]. split; [auto | discriminate].
  - destruct (configs con !! r) as [cfg|] eqn:Hcfg; [|discriminate].
    destruct (Z.eqb_spec count (NumChains cfg)) as [Heq|Hne].
    + intros [= <- <-]. cbn. split; [exact Hal|]. split; [discriminate|].
      intros _. exists cfg. split; [exact Hcfg|].
      assert (Hr : m !! r = Some count).
      { apply elem_of_map_to_list. rewrite Hl. left. }
      rewrite Hm, tipRoundMapOf_lookup in Hr.
      destruct (tipVotes r queues') as [|k]; [discriminate|].
      injection Hr as Hr. split; [lia | congruence].
    + intros [= <- <-]. cbn. split; [exact Hal|]. split; [auto | discriminate].
  - intros [= <- <-]. cbn. split; [exact Hal|]. split; [auto | discriminate].
Qed.

(** *** The loop ends *)

Lemma maxRoundIn_spec m :
  (forall (r : nat) (x : Z), m !! r = Some x -> (r <= maxRoundIn m)%nat).
Proof.
  unfold maxRoundIn. rewrite map_fold_foldr.
  intros r x Hr. apply elem_of_map_to_list in Hr.
  induction (map_to_list m) as [|[r' x'] l IH].
  - now apply elem_of_nil in Hr.
  - cbn [foldr uncurry].
    set (rest := foldr _ _ l) in *.
    apply elem_of_cons in Hr as [[= -> ->]|Hr].
    + destruct (Nat.ltb_spec rest r'); lia.
    + specialize (IH Hr). destruct (Nat.ltb_spec rest r'); cbn; lia.
Qed.

Lemma queued_cons (q : list Block) queues :
  queued (q :: queues) = (length q + queued queues)%nat.
Proof. reflexivity. Qed.

Lemma dropTips_queued (cond : Block -> bool) queues :
  (queued (map (dropTips cond) queues) <= queued queues)%nat.
Proof.
  induction queues as [|q queues IH]; [reflexivity|].
  cbn [map]. rewrite !queued_cons.
  pose proof (suffix_length _ _ (dropTips_suffix cond q)). lia.
Qed.

Lemma dropTips_queued_lt (cond : Block -> bool) queues (b : Block)
    (rest : list Block) :
  (b :: rest) ∈ queues -> cond b = true ->
  (queued (map (dropTips cond) queues) < queued queues)%nat.
Proof.
  induction queues as [|q queues IH]; intros Hin Hc.
  - now apply elem_of_nil in Hin.
  - cbn [map]. rewrite !queued_cons.
    apply elem_of_cons in Hin as [<-|Hin].
    + cbn [dropTips]. rewrite Hc.
      pose proof (suffix_length _ _ (dropTips_suffix cond rest)).
      pose proof (dropTips_queued cond queues). cbn [length]. lia.
    + specialize (IH Hin Hc).
      pose proof (suffix_length _ _ (dropTips_suffix cond q)). lia.
Qed.

Lemma alignTips_step queues :
  (1 < size (tipRoundMapOf queues))%nat ->
  (queued (map (dropTips (fun b => (Round (BlockPosition b)
                                    <? maxRoundIn (tipRoundMapOf queues))%nat))
               queues) < queued queues)%nat.
Proof.
  intros Hsize. rewrite <- length_map_to_list in Hsize.
  pose proof (NoDup_fst_map_to_list (tipRoundMapOf queues)) as Hnd.
  destruct (map_to_list (tipRoundMapOf queues)) as [|[r1 x1] [|[r2 x2] l]] eqn:Hl;
    cbn [length] in Hsize; try lia.
  assert (H1 : tipRoundMapOf queues !! r1 = Some x1).
  { apply elem_of_map_to_list. rewrite Hl. left. }
  assert (H2 : tipRoundMapOf queues !! r2 = Some x2).
  { apply elem_of_map_to_list. rewrite Hl. right. left. }
  assert (Hne : r1 <> r2).
  { cbn in Hnd. apply NoDup_cons in Hnd as [Hnot _]. intros ->.
    apply Hnot. left. }
  pose proof (maxRoundIn_spec _ _ _ H1) as M1.
  pose proof (maxRoundIn_spec _ _ _ H2) as M2.
  assert (Hlow : exists r x, tipRoundMapOf queues !! r = Some x /\
                   (r < maxRoundIn (tipRoundMapOf queues))%nat).
  { destruct (Nat.eq_dec r1 (maxRoundIn (tipRoundMapOf queues))).
    - exists r2, x2. split; [exact H2 | lia].
    - exists r1, x1. split; [exact H1 | lia]. }
  destruct Hlow as (r & x & Hr & Hlt).
  rewrite tipRoundMapOf_lookup in Hr.
  destruct (tipVotes r queues) as [|k] eqn:Hv; [discriminate|].
  destruct (tipVotes_some queues r ltac:(lia)) as (b & rest & Hin & Hb).
  apply (dropTips_queued_lt _ _ b rest Hin).
  apply Nat.ltb_lt. lia.
Qed.

Lemma alignTips_ends : forall (fuel : nat) queues,
  (queued queues < fuel)%nat ->
  exists queues' m, alignTips fuel queues = Return (queues', m).
Proof.
  induction fuel as [|f IH]; intros queues Hfuel; [lia|].
  cbn [alignTips].
  destruct (Nat.leb_spec (size (tipRoundMapOf queues)) 1) as [Hle|Hgt];
    [now eexists _, _|].
  apply IH. pose proof (alignTips_step queues Hgt). lia.
Qed.

Lemma dropTips_head (cond : Block -> bool) (bs : list Block) (b : Block)
    (rest : list Block) :
  dropTips cond bs = b :: rest -> cond b = false.
Proof.
  induction bs as [|b' bs IH]; cbn [dropTips]; [discriminate|].
  destruct (cond b') eqn:E; [exact IH|]. now intros [= <- _].
Qed.

(** The second loop reads the block before an empty block; the empty
    blocks at the front of a queue are gone by then, so it never reads
    before the start of a queue. *)
Lemma buildEmptyBlocks_returns (cfgs : list Config) : forall bs prev,
  (forall b, b ∈ bs -> is_Some (cfgs !! Round (BlockPosition b))) ->
  (prev = None -> forall b rest, bs = b :: rest -> isEmptyBlock b = false) ->
  buildEmptyBlocks cfgs prev bs = Return tt.
Proof.
  induction bs as [|b bs IH]; intros prev Hcfg Hhead; cbn [buildEmptyBlocks];
    [reflexivity|].
  assert (Hrest : buildEmptyBlocks cfgs (Some b) bs = Return tt).
  { apply IH; [|discriminate]. intros b' Hb'. apply Hcfg. now right. }
  destruct (isEmptyBlock b) eqn:He; [|exact Hrest].
  destruct prev as [parent|].
  - destruct (_ =? _); [|exact Hrest]. unfold buildEmptyBlock.
    destruct (Hcfg b ltac:(left)) as [c ->]. exact Hrest.
  - rewrite (Hhead eq_refl b bs eq_refl) in He. discriminate.
Qed.

Lemma buildAll_returns (cfgs : list Config) queues :
  (forall q b, q ∈ queues -> b ∈ q ->
               is_Some (cfgs !! Round (BlockPosition b))) ->
  buildAll cfgs (map (dropTips isEmptyBlock) queues) = Return tt.
Proof.
  induction queues as [|q queues IH]; intros Hcfg; cbn [map buildAll];
    [reflexivity|].
  rewrite buildEmptyBlocks_returns.
  - apply IH. intros q' b Hq'. apply Hcfg. now right.
  - intros b Hb. apply (Hcfg q); [left|].
    destruct (dropTips_suffix isEmptyBlock q) as [k ->].
    apply elem_of_app. now right.
  - intros _ b rest Hq. exact (dropTips_head _ _ _ _ Hq).
Qed.

Lemma suffix_queue_elem (queues' queues : list (list Block)) (q' : list Block)
    (b : Block) :
  Forall2 suffix queues' queues -> q' ∈ queues' -> b ∈ q' ->
  exists q, q ∈ queues /\ b ∈ q.
Proof.
  intros HF Hq' Hb. apply list_elem_of_lookup in Hq' as [i Hi].
  destruct (Forall2_lookup_l _ _ _ _ _ HF Hi) as (q & Hq & [k ->]).
  exists (k ++ q'). split; [eapply list_elem_of_lookup_2; exact Hq|].
  apply elem_of_app. now right.
Qed.

(** X25. ensureAgreementOverlapRound returns whenever the syncer has a
    configuration for the round of every block queued: the loop that
    brings the tips to one round takes at least one block from the
    queues at every turn, and the loop that builds empty blocks never
    reads before the start of a queue. *)
Theorem ensureAgreementOverlapRound_returns (fuel : nat) con :
  (forall q b, q ∈ blocks con -> b ∈ q ->
               is_Some (configs con !! Round (BlockPosition b))) ->
  (queued (blocks con) < fuel)%nat ->
  exists con' ok, ensureAgreementOverlapRound fuel con = Return (con', ok).
Proof.
  intros Hcfg Hfuel. unfold ensureAgreementOverlapRound.
  destruct (0 <? agreementRoundCut con)%nat; [now eexists _, _|].
  rewrite (buildAll_returns _ _ Hcfg).
  destruct (alignTips_ends fuel (map (dropTips isEmptyBlock) (blocks con)))
    as (queues' & m & Ha).
  { pose proof (dropTips_queued isEmptyBlock (blocks con)). lia. }
  rewrite Ha. apply alignTips_spec in Ha as (Hm & _ & Hsuf).
  destruct (map_to_list m) as [|[r count] [|? ?]] eqn:Hl;
    try (now eexists _, _).
  assert (Hr : m !! r = Some count).
  { apply elem_of_map_to_list. rewrite Hl. left. }
  rewrite Hm, tipRoundMapOf_lookup in Hr.
  destruct (tipVotes r queues') as [|k] eqn:Hv; [discriminate|].
  destruct (tipVotes_some queues' r ltac:(lia)) as (b & rest & Hin & Hb).
  destruct (suffix_queue_elem queues' (blocks con) (b :: rest) b) as (q & Hq & Hbq).
  { eapply Forall2_suffix_trans; [exact Hsuf | apply dropTips_all_suffix]. }
  { exact Hin. }
  { left. }
  destruct (Hcfg q b Hq Hbq) as [cfg Hc]. rewrite Hb in Hc. rewrite Hc.
  destruct (count =? NumChains cfg); now eexists _, _.
Qed.

End OverlapFacts.

Section OverlapExamples.
Import MachineInt Types Syncer SyncerOverlap.

Lemma ensureAgreementOverlapRound_run :
  ensureAgreementOverlapRound 8 twoChains = Return (alignedChains, true).
Proof. vm_compute. reflexivity. Qed.

Lemma ensureAgreementOverlapRound_drops_tips_witness :
  Forall2 suffix (blocks alignedChains) (blocks twoChains) /\
  db alignedChains = db twoChains /\ configs alignedChains = configs twoChains /\
  lattice alignedChains = lattice twoChains /\
  isSynced alignedChains = isSynced twoChains.
Proof.
  apply (ensureAgreementOverlapRound_drops_tips 8 twoChains alignedChains true).
  vm_compute. reflexivity.
Defined.

Lemma ensureAgreementOverlapRound_aligns_witness :
  tipsAligned (blocks alignedChains) /\
  (true = false -> agreementRoundCut alignedChains = 0%nat) /\
  (true = true ->
   exists cfg, configs twoChains !! agreementRoundCut alignedChains = Some cfg /\
     (0 < tipVotes (agreementRoundCut alignedChains) (blocks alignedChains))%nat /\
     uint32 (Z.of_nat (tipVotes (agreementRoundCut alignedChains)
                                (blocks alignedChains)))
     = NumChains cfg).
Proof.
  apply (ensureAgreementOverlapRound_aligns 8 twoChains alignedChains true).
  - reflexivity.
  - vm_compute. reflexivity.
Defined.

Lemma twoChains_blocks q b :
  q ∈ blocks twoChains -> b ∈ q -> (Round (BlockPosition b) <= 2)%nat.
Proof.
  intros Hq Hb. cbn in Hq.
  repeat (apply elem_of_cons in Hq as [->|Hq];
          [repeat (apply elem_of_cons in Hb as [->|Hb]; [cbn; lia|]);
           now apply elem_of_nil in Hb|]).
  now apply elem_of_nil in Hq.
Qed.

Lemma ensureAgreementOverlapRound_returns_witness :
  exists con' ok, ensureAgreementOverlapRound 6 twoChains = Return (con', ok).
Proof.
  apply (ensureAgreementOverlapRound_returns 6 twoChains).
  - intros q b Hq Hb. apply lookup_lt_is_Some_2.
    pose proof (twoChains_blocks q b Hq Hb). cbn. lia.
  - vm_compute. lia.
Defined.

End OverlapExamples.


(** ** [PushBlocks] *)

Section PushBlocksFacts.
Import MachineInt Syncer Simulation SimulationPush.
Variable heapPush : list BlockList -> BlockList -> list BlockList.
Variable heapPop : list BlockList -> option (BlockList * list BlockList).
Implicit Types (r : Result) (blocks : BlockList) (pending : list BlockList).

Lemma int64_add_l (x y : Z) : int64 (int64 x + y) = int64 (x + y).
Proof.
  unfold int64. f_equal.
  replace ((x + 2 ^ 63) mod 2 ^ 64 - 2 ^ 63 + y + 2 ^ 63)
    with ((x + 2 ^ 63) mod 2 ^ 64 + y) by lia.
  rewrite Zplus_mod_idemp_l. f_equal. lia.
Qed.

Lemma appendConsecutive_spec :
  popTakesRoot heapPop ->
  forall (fuel : nat) blocks (hashes : list Z) (cur : Z) pending
         (hashes' : list Z) (cur' : Z) pending',
  appendConsecutive heapPop fuel blocks hashes cur pending
    = Return (hashes', cur', pending') ->
  exists popped : list BlockList,
    hashes' = hashes ++ BlockHash blocks ++ concat (BlockHash <$> popped) /\
    pending ≡ₚ popped ++ pending' /\
    cur' = int64 (cur + 1 + Z.of_nat (length popped)) /\
    (forall (i : nat) x, popped !! i = Some x ->
                         ID x = int64 (cur + 1 + Z.of_nat i)) /\
    (forall top rest, pending' = top :: rest -> ID top <> cur').
Proof.
  intros Hpop.
  assert (Hstop : forall blocks (hashes : list Z) (cur : Z) pending,
    (forall top rest, pending = top :: rest -> ID top <> int64 (cur + 1)) ->
    exists popped : list BlockList,
      hashes ++ BlockHash blocks
        = hashes ++ BlockHash blocks ++ concat (BlockHash <$> popped) /\
      pending ≡ₚ popped ++ pending /\
      int64 (cur + 1) = int64 (cur + 1 + Z.of_nat (length popped)) /\
      (forall (i : nat) x, popped !! i = Some x ->
                           ID x = int64 (cur + 1 + Z.of_nat i)) /\
      (forall top rest, pending = top :: rest -> ID top <> int64 (cur + 1))).
  { intros blocks hashes cur pending Hne. exists [].
    cbn [fmap list_fmap concat length app Z.of_nat].
    rewrite app_nil_r, Z.add_0_r.
    repeat apply conj;
      [reflexivity | reflexivity | reflexivity
      | intros i x Hx; discriminate | exact Hne]. }
  induction fuel as [|f IH];
    intros blocks hashes cur pending hashes' cur' pending';
    cbn [appendConsecutive].
  - destruct pending as [|top tl].
    + intros [= <- <- <-]. apply Hstop. intros top rest [=].
    + destruct (Z.eqb_spec (ID top) (int64 (cur + 1))) as [Heq|Hne];
        cbn [negb]; [discriminate|].
      intros [= <- <- <-]. apply Hstop. now intros top' rest [= <- _].
  - destruct pending as [|top tl].
    + intros [= <- <- <-]. apply Hstop. intros top rest [=].
    + destruct (Z.eqb_spec (ID top) (int64 (cur + 1))) as [Heq|Hne];
        cbn [negb].
      * destruct (Hpop top tl) as (h' & -> & Hperm).
        intros H. apply IH in H as (popped & Hh & Hp & Hc & Hids & Hhead).
        exists (top :: popped). repeat apply conj.
        -- rewrite Hh. cbn [fmap list_fmap concat]. now rewrite <- !app_assoc.
        -- cbn [app]. constructor. now rewrite Hperm.
        -- rewrite Hc, <- Z.add_assoc, int64_add_l. f_equal. cbn [length]. lia.
        -- intros [|i] x Hx.
           ++ injection Hx as <-. rewrite Heq. f_equal. lia.
           ++ cbn in Hx.
              rewrite (Hids i x Hx), <- Z.add_assoc, int64_add_l. f_equal. lia.
        -- exact Hhead.
      * intros [= <- <- <-]. apply Hstop. now intros top' rest [= <- _].
Qed.

Lemma appendConsecutive_ends :
  popTakesRoot heapPop ->
  forall (fuel : nat) blocks (hashes : list Z) (cur : Z) pending,
  (length pending <= fuel)%nat ->
  exists res, appendConsecutive heapPop fuel blocks hashes cur pending
              = Return res.
Proof.
  intros Hpop. induction fuel as [|f IH]; intros blocks hashes cur pending Hlen;
    cbn [appendConsecutive].
  - destruct pending; [now eexists | cbn in Hlen; lia].
  - destruct pending as [|top tl]; [now eexists|].
    destruct (negb (ID top =? int64 (cur + 1))); [now eexists|].
    destruct (Hpop top tl) as (h' & -> & Hperm). apply IH.
    apply Permutation_length in Hperm. cbn [length] in Hlen. lia.
Qed.

(** X26. A block list that is not the next one in turn is only put
    aside: PushBlocks answers false, the hash list and the expected id
    stay as they were, and the pending lists are those there were and
    the new one. *)
Theorem PushBlocks_out_of_turn (fuel : nat) r blocks :
  pushAdds heapPush ->
  ID blocks <> curID (result r) ->
  exists r', PushBlocks heapPush heapPop fuel r blocks = Return (r', false) /\
    result r' = result r /\
    pendingBlockList r' ≡ₚ blocks :: pendingBlockList r.
Proof.
  intros Hpush Hne. unfold PushBlocks.
  destruct (Z.eqb_spec (ID blocks) (curID (result r))); [contradiction|].
  cbn [negb]. eexists. split; [reflexivity|]. split; [reflexivity|].
  apply Hpush.
Qed.

(** X27. When the block list in turn arrives, PushBlocks appends its
    hashes and then those of the pending lists that follow it without a
    gap, in the order of their ids; the expected id moves past the last
    of them, the lists appended leave the pending ones, the others stay,
    and the list at the root of what is left is not the next in turn. *)
Theorem PushBlocks_in_turn (fuel : nat) r blocks r' (ready : bool) :
  popTakesRoot heapPop ->
  ID blocks = curID (result r) ->
  PushBlocks heapPush heapPop fuel r blocks = Return (r', ready) ->
  ready = true /\
  exists popped : list BlockList,
    hashList (result r') =
      hashList (result r) ++ BlockHash blocks ++ concat (BlockHash <$> popped) /\
    pendingBlockList r ≡ₚ popped ++ pendingBlockList r' /\
    curID (result r') = int64 (curID (result r) + 1 + Z.of_nat (length popped)) /\
    (forall (i : nat) x, popped !! i = Some x ->
       ID x = int64 (curID (result r) + 1 + Z.of_nat i)) /\
    (forall top rest, pendingBlockList r' = top :: rest ->
       ID top <> curID (result r')).
Proof.
  intros Hpop Heq. unfold PushBlocks.
  destruct (Z.eqb_spec (ID blocks) (curID (result r))); [|contradiction].
  cbn [negb].
  destruct (appendConsecutive _ _ _ _ _ _) as [[[hashes cur] pending]| |] eqn:Ha;
    try discriminate.
  intros [= <- <-]. split; [reflexivity|].
  exact (appendConsecutive_spec Hpop _ _ _ _ _ _ _ _ Ha).
Qed.

(** X28. PushBlocks returns: the loop over the pending lists takes one
    of them at every turn. *)
Theorem PushBlocks_returns (fuel : nat) r blocks :
  popTakesRoot heapPop ->
  (length (pendingBlockList r) <= fuel)%nat ->
  exists r' ready,
    PushBlocks heapPush heapPop fuel r blocks = Return (r', ready).
Proof.
  intros Hpop Hfuel. unfold PushBlocks.
  destruct (negb (ID blocks =? curID (result r))); [now eexists _, _|].
  destruct (appendConsecutive_ends Hpop fuel blocks (hashList (result r))
              (curID (result r)) (pendingBlockList r) Hfuel)
    as ([[hashes cur] pending] & ->).
  now eexists _, _.
Qed.

End PushBlocksFacts.

Section PushBlocksExamples.
Import MachineInt Syncer Simulation SimulationPush.

Lemma sortedPush_adds : pushAdds sortedPush.
Proof.
  intros h x. induction h as [|y rest IH]; cbn [sortedPush]; [reflexivity|].
  destruct (ID x <? ID y); [reflexivity|]. rewrite IH. apply Permutation_swap.
Qed.

Lemma sortedPop_root : popTakesRoot sortedPop.
Proof. intros x h. now exists h. Qed.

Lemma PushBlocks_out_of_turn_witness :
  exists r', PushBlocks sortedPush sortedPop 3 waiting (mkBlockList 6 [17; 18])
             = Return (r', false) /\
    result r' = result waiting /\
    pendingBlockList r' ≡ₚ mkBlockList 6 [17; 18] :: pendingBlockList waiting.
Proof.
  apply (PushBlocks_out_of_turn sortedPush sortedPop 3 waiting
           (mkBlockList 6 [17; 18])).
  - exact sortedPush_adds.
  - cbn. lia.
Defined.

Lemma PushBlocks_in_turn_witness :
  true = true /\
  exists popped : list BlockList,
    hashList (result caughtUp) =
      hashList (result waiting) ++ BlockHash (mkBlockList 3 [13])
        ++ concat (BlockHash <$> popped) /\
    pendingBlockList waiting ≡ₚ popped ++ pendingBlockList caughtUp /\
    curID (result caughtUp)
      = int64 (curID (result waiting) + 1 + Z.of_nat (length popped)) /\
    (forall (i : nat) x, popped !! i = Some x ->
       ID x = int64 (curID (result waiting) + 1 + Z.of_nat i)) /\
    (forall top rest, pendingBlockList caughtUp = top :: rest ->
       ID top <> curID (result caughtUp)).
Proof.
  apply (PushBlocks_in_turn sortedPush sortedPop 3 waiting (mkBlockList 3 [13])
           caughtUp true).
  - exact sortedPop_root.
  - reflexivity.
  - vm_compute. reflexivity.
Defined.

Lemma PushBlocks_returns_witness :
  exists r' ready,
    PushBlocks sortedPush sortedPop 3 waiting (mkBlockList 3 [13])
    = Return (r', ready).
Proof.
  apply (PushBlocks_returns sortedPush sortedPop 3 waiting (mkBlockList 3 [13])).
  - exact sortedPop_root.
  - cbn. lia.
Defined.

End PushBlocksExamples.

